(** * Routing Table Change Tracker: the snapshot / diff / persist cycle

    A shallow embedding of [tracker.py] (class [RouteTracker]) and of the
    parts of the Python standard library its core relies on
    ([str.splitlines], [str.strip], [sorted], [set], [os.path.dirname],
    [difflib.unified_diff]), followed by the properties of the change
    report and of the acquisition cycle.

    Python [str] values are sequences of Unicode code points and are
    modelled as [list N]; literals are written as Rocq strings and
    converted with [u]. *)

From Stdlib Require Import ZArith NArith Ascii String.
From stdpp Require Import base decidable option list sorting gmap.

Local Open Scope N_scope.
Local Open Scope nat_scope.

(** ** Python strings *)

Module PyStr.

Definition str := list N.

(** A Rocq string literal read as a Python [str] (one code point per
    character). *)
Definition u (s : string) : str :=
  map N_of_ascii (list_ascii_of_string s).
Global Arguments u : simpl never.

(** Code points that [str.splitlines] treats as line boundaries. *)
Definition is_linebreak (c : N) : bool :=
  ((10 <=? c) && (c <=? 13))%N || ((28 <=? c) && (c <=? 30))%N
  || (c =? 133)%N || (c =? 8232)%N || (c =? 8233)%N.

(** Code points that [str.strip] / [str.rstrip] remove when called without
    an argument (Unicode white space). *)
Definition is_space (c : N) : bool :=
  ((9 <=? c) && (c <=? 13))%N || ((28 <=? c) && (c <=? 32))%N
  || (c =? 133)%N || (c =? 160)%N || (c =? 5760)%N
  || ((8192 <=? c) && (c <=? 8202))%N
  || (c =? 8232)%N || (c =? 8233)%N || (c =? 8239)%N || (c =? 8287)%N
  || (c =? 12288)%N.

Definition CR : N := 13%N.
Definition LF : N := 10%N.

(** [s.splitlines(keepends)]: [cur] is the part of the current line
    already scanned.  A ["\r\n"] pair is one boundary; a final line
    without a boundary is kept unless it is empty. *)
Fixpoint splitlines_from (keepends : bool) (cur : str) (s : str) : list str :=
  match s with
  | [] => match cur with [] => [] | _ => [cur] end
  | c :: rest =>
      if is_linebreak c then
        match rest with
        | c' :: rest' =>
            if (c =? CR)%N && (c' =? LF)%N
            then (cur ++ if keepends then [c; c'] else [])
                   :: splitlines_from keepends [] rest'
            else (cur ++ if keepends then [c] else [])
                   :: splitlines_from keepends [] rest
        | [] => (cur ++ if keepends then [c] else [])
                   :: splitlines_from keepends [] rest
        end
      else splitlines_from keepends (cur ++ [c]) rest
  end.

Definition splitlines (s : str) : list str := splitlines_from false [] s.
Definition splitlines_keepends (s : str) : list str := splitlines_from true [] s.

Fixpoint lstrip (s : str) : str :=
  match s with
  | c :: rest => if is_space c then lstrip rest else s
  | [] => []
  end.

Definition rstrip (s : str) : str := reverse (lstrip (reverse s)).
Definition strip (s : str) : str := rstrip (lstrip s).

(** Truth value of a [str]: non-empty. *)
Definition truthy (s : str) : bool :=
  match s with [] => false | _ => true end.

(** Comparison of two [str] values, code point by code point. *)
Fixpoint str_leb (s t : str) : bool :=
  match s, t with
  | [], _ => true
  | _ :: _, [] => false
  | c :: s', d :: t' =>
      if (c <? d)%N then true
      else if (c =? d)%N then str_leb s' t' else false
  end.

Definition str_le (s t : str) : Prop := str_leb s t = true.

Global Instance str_le_dec s t : Decision (str_le s t).
Proof. unfold str_le. apply _. Defined.

(** [sorted(xs)] on strings. *)
Definition sorted (l : list str) : list str := merge_sort str_le l.

(** Decimal rendering of a non-negative integer, as [str(n)] or [f"{n}"]. *)
Definition digit (d : nat) : N := (48 + N.of_nat d)%N.

Fixpoint decimal_fuel (fuel n : nat) (acc : str) : str :=
  match fuel with
  | O => acc
  | S fuel' =>
      let acc' := digit (n mod 10) :: acc in
      if n / 10 =? 0 then acc' else decimal_fuel fuel' (n / 10) acc'
  end.

Definition decimal (n : nat) : str := decimal_fuel (S n) n [].

(** [s * n] for a one-character string. *)
Definition repeat_char (c : string) (n : nat) : str :=
  concat (replicate n (u c)).

End PyStr.
Import PyStr.

(** ** difflib: [SequenceMatcher] *)

Module Difflib.

(** A matching block [(i, j, k)]: [a[i:i+k] == b[j:j+k]]. *)
Definition Match : Type := nat * nat * nat.

(** Tuples compare lexicographically ([list.sort] on matching blocks). *)
Definition match_leb (x y : Match) : bool :=
  let '(i1, j1, k1) := x in
  let '(i2, j2, k2) := y in
  (i1 <? i2) || ((i1 =? i2) && ((j1 <? j2) || ((j1 =? j2) && (k1 <=? k2)))).

Definition match_le (x y : Match) : Prop := match_leb x y = true.

Global Instance match_le_dec x y : Decision (match_le x y).
Proof. unfold match_le. apply _. Defined.

Inductive tag := Replace | Delete | Insert | Equal.

Global Instance tag_eq_dec : EqDecision tag.
Proof. solve_decision. Defined.

Definition is_equal (t : tag) : bool :=
  match t with Equal => true | _ => false end.

(** An opcode [(tag, i1, i2, j1, j2)]. *)
Definition opcode : Type := tag * nat * nat * nat * nat.

Definition op_tag (o : opcode) : tag := let '(t, _, _, _, _) := o in t.

Section SequenceMatcher.
Context {A : Type} `{Countable A}.
(** [SequenceMatcher(None, a, b)]: no junk predicate, [autojunk=True]. *)
Variables a b : list A.

(** [__chain_b]: for each element of [b] the increasing list of the
    indices where it occurs. *)
Definition b2j_all : gmap A (list nat) :=
  fold_left (fun (m : gmap A (list nat)) '(i, elt) =>
               <[elt := default [] (m !! elt) ++ [i]]> m)
            (imap pair b) ∅.

(** [isjunk] is [None]: the junk set stays empty. *)
Definition bjunk : gset A := ∅.
Definition isbjunk (x : A) : bool := bool_decide (x ∈ bjunk).

(** Popular elements are purged when [b] has at least 200 elements. *)
Definition b2j : gmap A (list nat) :=
  let n := length b in
  if 200 <=? n then
    let ntest := n / 100 + 1 in
    filter (fun kv : A * list nat => length kv.2 ≤ ntest) b2j_all
  else b2j_all.

(** [j2len.get(j-1, 0)]: the key [-1] is never present. *)
Definition j2lenget_pred (j2len : gmap nat nat) (j : nat) : nat :=
  match j with
  | O => 0
  | S j' => default 0 (j2len !! j')
  end.

(** The inner loop of [find_longest_match] over the indices [js] of the
    occurrences of [a[i]] in [b]; [continue] below [blo], [break] at
    [bhi].  [i-k+1] and [j-k+1] are written [i + 1 - k] and [j + 1 - k]:
    [k] never exceeds [i + 1] or [j + 1] (see [scan_row_fits]), so the
    subtraction of natural numbers loses nothing. *)
Fixpoint scan_row (i blo bhi : nat) (j2len : gmap nat nat) (js : list nat)
    (newj2len : gmap nat nat) (best : Match) : gmap nat nat * Match :=
  match js with
  | [] => (newj2len, best)
  | j :: js' =>
      if j <? blo then scan_row i blo bhi j2len js' newj2len best
      else if bhi <=? j then (newj2len, best)
      else
        let k := j2lenget_pred j2len j + 1 in
        let best' :=
          let '(_, _, bestsize) := best in
          if bestsize <? k then (i + 1 - k, j + 1 - k, k) else best in
        scan_row i blo bhi j2len js' (<[j := k]> newj2len) best'
  end.

Definition b2j_get (x : option A) : list nat :=
  match x with
  | Some elt => default [] (b2j !! elt)
  | None => []
  end.

Definition scan_rows (alo ahi blo bhi : nat) : Match :=
  snd (fold_left
         (fun '(j2len, best) i =>
            scan_row i blo bhi j2len (b2j_get (a !! i)) ∅ best)
         (seq alo (ahi - alo)) (∅, (alo, blo, 0))).

(** The four [while] loops that extend the best match; [junk] selects
    between the [not isbjunk(...)] and the [isbjunk(...)] variants. *)
Definition junk_test (junk : bool) (x : option A) : bool :=
  match x with
  | Some elt => bool_decide (isbjunk elt = junk)
  | None => false
  end.

Fixpoint extend_back (junk : bool) (alo blo besti bestj bestsize : nat) : Match :=
  match besti, bestj with
  | S i', S j' =>
      if (alo <? besti) && (blo <? bestj)
         && junk_test junk (b !! j')
         && bool_decide (a !! i' = b !! j')
      then extend_back junk alo blo i' j' (S bestsize)
      else (besti, bestj, bestsize)
  | _, _ => (besti, bestj, bestsize)
  end.

Fixpoint extend_fwd (fuel : nat) (junk : bool) (ahi bhi besti bestj bestsize : nat) : nat :=
  match fuel with
  | O => bestsize
  | S fuel' =>
      if (besti + bestsize <? ahi) && (bestj + bestsize <? bhi)
         && junk_test junk (b !! (bestj + bestsize))
         && bool_decide (a !! (besti + bestsize) = b !! (bestj + bestsize))
      then extend_fwd fuel' junk ahi bhi besti bestj (S bestsize)
      else bestsize
  end.

Definition extend (junk : bool) (alo ahi blo bhi : nat) (m : Match) : Match :=
  let '(besti, bestj, bestsize) := m in
  let '(besti, bestj, bestsize) := extend_back junk alo blo besti bestj bestsize in
  (besti, bestj,
   extend_fwd (ahi - (besti + bestsize)) junk ahi bhi besti bestj bestsize).

Definition find_longest_match (alo ahi blo bhi : nat) : Match :=
  extend true alo ahi blo bhi
    (extend false alo ahi blo bhi (scan_rows alo ahi blo bhi)).

(** [get_matching_blocks]: the work list.  The Python list [queue] is
    used as a stack ([append] / [pop]); its top is the head here. *)
Definition region : Type := nat * nat * nat * nat.

Fixpoint matching_loop (fuel : nat) (queue : list region) (blocks : list Match)
    : option (list Match) :=
  match queue with
  | [] => Some blocks
  | (alo, ahi, blo, bhi) :: rest =>
      match fuel with
      | O => None
      | S fuel' =>
          let '(i, j, k) := find_longest_match alo ahi blo bhi in
          if k =? 0 then matching_loop fuel' rest blocks
          else
            let q1 := if (alo <? i) && (blo <? j)
                      then (alo, i, blo, j) :: rest else rest in
            let q2 := if (i + k <? ahi) && (j + k <? bhi)
                      then (i + k, ahi, j + k, bhi) :: q1 else q1 in
            matching_loop fuel' q2 (blocks ++ [(i, j, k)])
      end
  end.

(** Collapsing adjacent blocks. *)
Definition collapse_step (st : Match * list Match) (x : Match)
    : Match * list Match :=
  let '((i1, j1, k1), non_adjacent) := st in
  let '(i2, j2, k2) := x in
  if (i1 + k1 =? i2) && (j1 + k1 =? j2)
  then ((i1, j1, k1 + k2), non_adjacent)
  else ((i2, j2, k2),
        if k1 =? 0 then non_adjacent else non_adjacent ++ [(i1, j1, k1)]).

Definition collapse (blocks : list Match) : list Match :=
  let '((i1, j1, k1), non_adjacent) :=
    fold_left collapse_step blocks ((0, 0, 0), []) in
  (if k1 =? 0 then non_adjacent else non_adjacent ++ [(i1, j1, k1)])
    ++ [(length a, length b, 0)].

(** Every window taken from the work list is replaced by strictly
    smaller ones, so [2 * len(a) + 2] rounds are enough (see
    [get_matching_blocks_chain]). *)
Definition get_matching_blocks : option (list Match) :=
  blocks ← matching_loop (2 * length a + 2) [(0, length a, 0, length b)] [];
  Some (collapse (merge_sort match_le blocks)).

Definition opcode_step (st : nat * nat * list opcode) (x : Match)
    : nat * nat * list opcode :=
  let '(i, j, answer) := st in
  let '(ai, bj, size) := x in
  let answer :=
    if (i <? ai) && (j <? bj) then answer ++ [(Replace, i, ai, j, bj)]
    else if i <? ai then answer ++ [(Delete, i, ai, j, bj)]
    else if j <? bj then answer ++ [(Insert, i, ai, j, bj)]
    else answer in
  let i' := ai + size in
  let j' := bj + size in
  (i', j', if size =? 0 then answer else answer ++ [(Equal, ai, i', bj, j')]).

Definition opcodes_of (blocks : list Match) : list opcode :=
  snd (fold_left opcode_step blocks (0, 0, [])).

Definition get_opcodes : option (list opcode) :=
  opcodes_of <$> get_matching_blocks.

(** [get_grouped_opcodes(n)].  Where Python's [i2 - n] is negative the
    natural-number difference is [0], and [max(i1, _)] is [i1] either
    way; likewise for [i2 - i1 > n + n]. *)
Definition fix_first (n : nat) (codes : list opcode) : list opcode :=
  match codes with
  | (Equal, i1, i2, j1, j2) :: rest =>
      (Equal, i1 `max` (i2 - n), i2, j1 `max` (j2 - n), j2) :: rest
  | _ => codes
  end.

Fixpoint fix_last (n : nat) (codes : list opcode) : list opcode :=
  match codes with
  | [] => []
  | [(Equal, i1, i2, j1, j2)] =>
      [(Equal, i1, i2 `min` (i1 + n), j1, j2 `min` (j1 + n))]
  | c :: rest => c :: fix_last n rest
  end.

Definition group_step (n : nat) (st : list (list opcode) * list opcode)
    (c : opcode) : list (list opcode) * list opcode :=
  let '(groups, group) := st in
  let '(t, i1, i2, j1, j2) := c in
  if is_equal t && (n + n <? i2 - i1) then
    (groups ++ [group ++ [(t, i1, i2 `min` (i1 + n), j1, j2 `min` (j1 + n))]],
     [(t, i1 `max` (i2 - n), i2, j1 `max` (j2 - n), j2)])
  else (groups, group ++ [c]).

Definition group_codes (n : nat) (codes : list opcode) : list (list opcode) :=
  let codes := match codes with [] => [(Equal, 0, 1, 0, 1)] | _ => codes end in
  let codes := fix_last n (fix_first n codes) in
  let '(groups, group) := fold_left (group_step n) codes ([], []) in
  match group with
  | [] => groups
  | [(Equal, _, _, _, _)] => groups
  | _ => groups ++ [group]
  end.

Definition get_grouped_opcodes (n : nat) : option (list (list opcode)) :=
  group_codes n <$> get_opcodes.

End SequenceMatcher.

(** ** difflib: [unified_diff] *)

(** [_format_range_unified(start, stop)]. *)
Definition format_range_unified (start stop : nat) : str :=
  let beginning := start + 1 in
  let length := stop - start in
  if length =? 1 then decimal beginning
  else
    let beginning := if length =? 0 then beginning - 1 else beginning in
    decimal beginning ++ u "," ++ decimal length.

(** The slice [l[i1:i2]]. *)
Definition slice {A} (l : list A) (i1 i2 : nat) : list A :=
  take (i2 - i1) (drop i1 l).

Definition first_op (g : list opcode) : opcode := default (Equal, 0, 0, 0, 0) (head g).
Definition last_op (g : list opcode) : opcode := default (Equal, 0, 0, 0, 0) (last g).

Section UnifiedDiff.
Variables a b : list str.
Variables fromfile tofile fromfiledate tofiledate : str.
Variable n : nat.
Variable lineterm : str.

Definition group_lines (c : opcode) : list str :=
  let '(t, i1, i2, j1, j2) := c in
  match t with
  | Equal => map (fun line => u " " ++ line) (slice a i1 i2)
  | Replace =>
      map (fun line => u "-" ++ line) (slice a i1 i2)
      ++ map (fun line => u "+" ++ line) (slice b j1 j2)
  | Delete => map (fun line => u "-" ++ line) (slice a i1 i2)
  | Insert => map (fun line => u "+" ++ line) (slice b j1 j2)
  end.

Definition hunk (group : list opcode) : list str :=
  let '(_, f1, _, f3, _) := first_op group in
  let '(_, _, l2, _, l4) := last_op group in
  let file1_range := format_range_unified f1 l2 in
  let file2_range := format_range_unified f3 l4 in
  (u "@@ -" ++ file1_range ++ u " +" ++ file2_range ++ u " @@" ++ lineterm)
    :: concat (map group_lines group).

Definition file_header : list str :=
  let fromdate := if truthy fromfiledate then u (String "009" "") ++ fromfiledate else [] in
  let todate := if truthy tofiledate then u (String "009" "") ++ tofiledate else [] in
  [u "--- " ++ fromfile ++ fromdate ++ lineterm;
   u "+++ " ++ tofile ++ todate ++ lineterm].

(** The generator, read off as the list it yields; the file header is
    yielded before the first hunk only. *)
Definition unified_diff_groups (groups : list (list opcode)) : list str :=
  match groups with
  | [] => []
  | _ => file_header ++ concat (map hunk groups)
  end.

Definition unified_diff : option (list str) :=
  unified_diff_groups <$> get_grouped_opcodes a b n.

End UnifiedDiff.

End Difflib.

(** ** The environment of the tracker *)

Module Py.

(** Exceptions.  [Exc cls msg] is an instance of a subclass [cls] of
    [Exception] with [str(e) = msg]; [KeyboardInterrupt] derives from
    [BaseException] only, so [except Exception] lets it through. *)
Inductive exn :=
  | Exc (cls : string) (message : str)
  | KeyboardInterrupt.

Definition is_Exception (e : exn) : bool :=
  match e with Exc _ _ => true | KeyboardInterrupt => false end.

Definition exn_str (e : exn) : str :=
  match e with Exc _ m => m | KeyboardInterrupt => [] end.

(** Outcome of a call into a library or the operating system. *)
Inductive ext (T : Type) :=
  | Ok (x : T)
  | Fail (cls : string) (message : str).
Arguments Ok {T} x.
Arguments Fail {T} cls message.

(** The [logging] module: records of the root logger. *)
Inductive level := INFO | WARNING | ERROR.
Abbreviation LogRecord := (level * str)%type.

(** The file system: regular files with their text, and directories. *)
Record FS := mkFS {
  files : gmap str str;
  dirs : gset str
}.

(** Process state: the file system, the log written so far, and the
    number of calls made to the outside so far. *)
Record World := mkWorld {
  fs : FS;
  log : list LogRecord;
  tick : nat
}.

(** A byte counter as [psutil] reads it from the operating system: an
    unsigned 64-bit number. *)
Definition u64 : Type := { n : N | (n <? 2 ^ 64)%N = true }.

(** [psutil] values. *)
Record NetIO := mkNetIO {
  bytes_sent : u64; bytes_recv : u64;
  packets_sent : nat; packets_recv : nat;
  errin : nat; errout : nat; dropin : nat; dropout : nat
}.

(** A connection: its status and the ports of [laddr] and [raddr]
    ([None] for the empty tuple). *)
Record Conn := mkConn {
  status : str;
  laddr_port : option nat;
  raddr_port : option nat
}.

Record IfStat := mkIfStat { isup : bool; speed : nat }.

(** The device dictionary handed to [netmiko.ConnectHandler]. *)
Record Device := mkDevice {
  dev_device_type : str;
  dev_host : str;
  dev_port : Z;
  dev_username : str;
  dev_timeout : Z;
  dev_password : option str;
  dev_key_file : option str
}.

(** What the outside answers.  Every answer may depend on the number of
    calls made before it, so two calls of one function need not agree.
    Failures of library and system calls are subclasses of [Exception];
    an interrupt signal is observed in [time.sleep]. *)
Record Env := mkEnv {
  NETMIKO_AVAILABLE : bool;
  ConnectHandler : nat -> Device -> ext unit;
  send_command : nat -> str -> ext str;
  disconnect : nat -> ext unit;
  (* (returncode, stdout, stderr) *)
  subprocess_run : nat -> list str -> Z -> ext (Z * str * str);
  net_io_counters : nat -> ext NetIO;
  net_connections : nat -> ext (list Conn);
  net_if_addrs : nat -> ext unit;
  net_if_stats : nat -> ext (list (str * IfStat));
  (* failure of open(path, 'r') or of read() *)
  read_fault : nat -> str -> option (string * str);
  makedirs_fault : nat -> str -> option (string * str);
  (* failure of open(path, 'w'): the file is left as it was *)
  open_write_fault : nat -> str -> option (string * str);
  (* failure of write() or of the closing flush: the number of
     characters that reached the file *)
  write_fault : nat -> str -> str -> option (nat * (string * str));
  (* True when the sleep is cut short by an interrupt *)
  sleep_interrupted : nat -> bool;
  (* str.isprintable for a code point above 127, as repr() consults it *)
  isprintable : N -> bool;
  (* wording of the interpreter's UnboundLocalError for a variable *)
  unbound_local_message : str -> str
}.

(** *** A monad for effects and exceptions *)

Inductive result (A : Type) :=
  | Ret (x : A)
  | Raise (e : exn)
  (* the fuel of an embedded loop ran out *)
  | Unfinished.
Arguments Ret {A} x.
Arguments Raise {A} e.
Arguments Unfinished {A}.

Definition M (A : Type) : Type := World -> result A * World.

Definition ret {A} (x : A) : M A := fun w => (Ret x, w).

Definition bind {A B} (m : M A) (f : A -> M B) : M B :=
  fun w =>
    match m w with
    | (Ret x, w') => f x w'
    | (Raise e, w') => (Raise e, w')
    | (Unfinished, w') => (Unfinished, w')
    end.

Definition raise {A} (e : exn) : M A := fun w => (Raise e, w).

Definition of_option {A} (o : option A) : M A :=
  fun w => match o with Some x => (Ret x, w) | None => (Unfinished, w) end.

(** [try: body except <handles> as e: handler e]. *)
Definition try_except {A} (body : M A) (handles : exn -> bool)
    (handler : exn -> M A) : M A :=
  fun w =>
    match body w with
    | (Raise e, w') => if handles e then handler e w' else (Raise e, w')
    | r => r
    end.

(** A call to the outside: the answer at the current tick. *)
Definition call {A} (f : nat -> ext A) : M A :=
  fun w =>
    let w' := mkWorld (fs w) (log w) (S (tick w)) in
    match f (tick w) with
    | Ok x => (Ret x, w')
    | Fail cls m => (Raise (Exc cls m), w')
    end.

Definition logging (l : level) (m : str) : M unit :=
  fun w => (Ret tt, mkWorld (fs w) (log w ++ [(l, m)]) (tick w)).

Definition set_fs (f : FS) : M unit :=
  fun w => (Ret tt, mkWorld f (log w) (tick w)).

Definition get_fs : M FS := fun w => (Ret (fs w), w).

Definition get_tick : M nat :=
  fun w => (Ret (tick w), mkWorld (fs w) (log w) (S (tick w))).

Global Instance M_ret : MRet M := @ret.
Global Instance M_bind : MBind M := fun A B f m => bind m f.

(** The value of a library function, or the exception it raises. *)
Definition of_ext {A} (r : ext A) : M A :=
  match r with
  | Ok x => mret x
  | Fail cls m => raise (Exc cls m)
  end.

End Py.
Import Py.

(** ** Library functions used by the tracker *)

Module PyLib.

(** [str(z)] for an integer. *)
Definition decimalZ (z : Z) : str :=
  if (z <? 0)%Z then u "-" ++ decimal (Z.to_nat (- z))
  else decimal (Z.to_nat z).

(** [f"{n:,}"]: decimal digits in groups of three. *)
Fixpoint group3 (rev_digits : str) : str :=
  match rev_digits with
  | d1 :: d2 :: d3 :: (_ :: _) as rest => d1 :: d2 :: d3 :: 44%N :: group3 rest
  | _ => rev_digits
  end.

Definition format_thousands (n : nat) : str :=
  reverse (group3 (reverse (decimal n))).

(** [s.split()]: the maximal runs of non-blank characters. *)
Fixpoint split_from (cur : str) (s : str) : list str :=
  match s with
  | [] => match cur with [] => [] | _ => [cur] end
  | c :: rest =>
      if is_space c
      then match cur with
           | [] => split_from [] rest
           | _ => cur :: split_from [] rest
           end
      else split_from (cur ++ [c]) rest
  end.

Definition split (s : str) : list str := split_from [] s.

(** [posixpath.dirname]. *)
Definition SEP : N := 47%N.

Fixpoint drop_while (f : N -> bool) (s : str) : str :=
  match s with
  | c :: rest => if f c then drop_while f rest else s
  | [] => []
  end.

Definition os_path_dirname (p : str) : str :=
  (* head = p[:p.rfind('/') + 1] *)
  let head := reverse (drop_while (fun c => negb (c =? SEP)%N) (reverse p)) in
  if truthy head && negb (forallb (fun c => (c =? SEP)%N) head)
  then reverse (drop_while (fun c => (c =? SEP)%N) (reverse head))
  else head.

(** [collections.Counter]: counts in order of first occurrence. *)
Section Counter.
Context {K : Type} `{EqDecision K}.

Fixpoint counter_add (k : K) (c : list (K * nat)) : list (K * nat) :=
  match c with
  | [] => [(k, 1)]
  | (k', n) :: rest =>
      if decide (k = k') then (k', S n) :: rest
      else (k', n) :: counter_add k rest
  end.

Definition Counter (l : list K) : list (K * nat) :=
  fold_left (fun c k => counter_add k c) l [].

(** Insertion into a list sorted by decreasing count, behind the
    entries with the same count. *)
Fixpoint insert_by_count (x : K * nat) (l : list (K * nat)) : list (K * nat) :=
  match l with
  | [] => [x]
  | y :: rest =>
      if y.2 <? x.2 then x :: l else y :: insert_by_count x rest
  end.

(** [c.most_common()]: by decreasing count, ties in order of first
    occurrence. *)
Definition most_common (c : list (K * nat)) : list (K * nat) :=
  fold_left (fun acc x => insert_by_count x acc) c [].

(** [c.most_common(n)]. *)
Definition most_common_n (n : Z) (c : list (K * nat)) : list (K * nat) :=
  take (Z.to_nat n) (most_common c).
End Counter.

(** *** Files *)

(** Reading in text mode: ["\r\n"] and a lone ["\r"] arrive as ["\n"]. *)
Fixpoint universal_newlines (s : str) : str :=
  match s with
  | [] => []
  | c :: rest =>
      if (c =? CR)%N then
        LF :: match rest with
              | c' :: rest' =>
                  if (c' =? LF)%N then universal_newlines rest'
                  else universal_newlines rest
              | [] => []
              end
      else c :: universal_newlines rest
  end.

(** *** Paths

    Files and directories are known by the path they were given: the
    model does not relate two spellings of one place (["d/"] and ["d"],
    ["a//b"] and ["a/b"], a relative and an absolute path).  A call
    fails of itself where the paths a world records leave no choice
    (the empty path, a directory opened as a file, a path under a
    regular file, a directory that exists); whatever else the system
    can object to (a missing parent, permissions, a full disk) is an
    answer of the environment. *)

(** [posixpath.split]: the head is [os.path.dirname]. *)
Definition os_path_split (p : str) : str * str :=
  let raw := reverse (drop_while (fun c => negb (c =? SEP)%N) (reverse p)) in
  (os_path_dirname p, drop (length raw) p).

(** [repr(s)], as [str(e)] shows the file name of an [OSError]. *)
Definition hex_digit (d : N) : N :=
  if (d <? 10)%N then (48 + d)%N else (87 + d)%N.

Fixpoint hex (width : nat) (c : N) : str :=
  match width with
  | O => []
  | S width' => hex width' (c / 16)%N ++ [hex_digit (c mod 16)%N]
  end.

Definition repr_char (env : Env) (quote c : N) : str :=
  if (c =? quote)%N || (c =? 92)%N then [92%N; c]
  else if (c =? 9)%N then u "\t"
  else if (c =? 10)%N then u "\n"
  else if (c =? 13)%N then u "\r"
  else if (c <? 32)%N || (c =? 127)%N then u "\x" ++ hex 2 c
  else if (c <? 127)%N then [c]
  else if isprintable env c then [c]
  else if (c <=? 255)%N then u "\x" ++ hex 2 c
  else if (c <=? 65535)%N then u "\u" ++ hex 4 c
  else u "\U" ++ hex 8 c.

Definition repr (env : Env) (s : str) : str :=
  let quote :=
    if existsb (N.eqb 39) s && negb (existsb (N.eqb 34) s) then 34%N else 39%N in
  [quote] ++ concat (map (repr_char env quote) s) ++ [quote].

(** [str(OSError(errno, strerror, filename))]. *)
Definition OSError_str (env : Env) (errno strerror : string) (filename : str) : str :=
  u "[Errno " ++ u errno ++ u "] " ++ u strerror ++ u ": " ++ repr env filename.

Definition ENOENT (env : Env) (p : str) : exn :=
  Exc "FileNotFoundError" (OSError_str env "2" "No such file or directory" p).
Definition EEXIST (env : Env) (p : str) : exn :=
  Exc "FileExistsError" (OSError_str env "17" "File exists" p).
Definition ENOTDIR (env : Env) (p : str) : exn :=
  Exc "NotADirectoryError" (OSError_str env "20" "Not a directory" p).
Definition EISDIR (env : Env) (p : str) : exn :=
  Exc "IsADirectoryError" (OSError_str env "21" "Is a directory" p).

(** The classes of the [OSError] family. *)
Definition is_OSError (e : exn) : bool :=
  match e with
  | Exc cls _ =>
      bool_decide (cls ∈ ["OSError"; "BlockingIOError"; "ChildProcessError";
                          "ConnectionError"; "BrokenPipeError";
                          "ConnectionAbortedError"; "ConnectionRefusedError";
                          "ConnectionResetError"; "FileExistsError";
                          "FileNotFoundError"; "InterruptedError";
                          "IsADirectoryError"; "NotADirectoryError";
                          "PermissionError"; "ProcessLookupError";
                          "TimeoutError"]%string)
  | KeyboardInterrupt => false
  end.

Definition is_FileExistsError (e : exn) : bool :=
  match e with
  | Exc cls _ => bool_decide (cls = "FileExistsError"%string)
  | KeyboardInterrupt => false
  end.

(** [os.path.exists(p)]. *)
Definition os_path_exists (p : str) : M bool :=
  f ← get_fs;
  mret (bool_decide (is_Some (files f !! p)) || bool_decide (p ∈ dirs f)).

(** [os.path.isdir(p)]; the empty path names nothing. *)
Definition os_path_isdir (p : str) : M bool :=
  f ← get_fs;
  mret (truthy p && bool_decide (p ∈ dirs f)).

(** [with open(p, 'r') as f: return f.read()]. *)
Definition read_text (env : Env) (p : str) : M str :=
  f ← get_fs;
  t ← get_tick;
  match files f !! p with
  | None =>
      if bool_decide (p ∈ dirs f)
      then raise (EISDIR env p)
      else raise (ENOENT env p)
  | Some text =>
      match read_fault env t p with
      | Some (cls, m) => raise (Exc cls m)
      | None => mret (universal_newlines text)
      end
  end.

(** The head and the tail [os.makedirs] works with: a path that ends
    in a separator is split once more. *)
Definition makedirs_split (name : str) : str * str :=
  let '(head, tail) := os_path_split name in
  if truthy tail then (head, tail) else os_path_split head.

(** [os.mkdir(name)].  The empty path cannot be created, nor a path
    that exists, nor one under a regular file. *)
Definition os_mkdir (env : Env) (name : str) : M unit :=
  f ← get_fs;
  t ← get_tick;
  if negb (truthy name) then raise (ENOENT env name)
  else if bool_decide (is_Some (files f !! name)) || bool_decide (name ∈ dirs f)
  then raise (EEXIST env name)
  else if bool_decide (is_Some (files f !! (makedirs_split name).1))
  then raise (ENOTDIR env name)
  else
    match makedirs_fault env t name with
    | Some (cls, m) => raise (Exc cls m)
    | None => set_fs (mkFS (files f) ({[ name ]} ∪ dirs f))
    end.

(** [os.makedirs(name, exist_ok=True)]: the missing directories above
    [name] are created first.  Each head is shorter than its path, so
    the recursion ends within the length of [name] (see [makedirs_run]
    below). *)
Fixpoint makedirs (fuel : nat) (env : Env) (name : str) : M unit :=
  match fuel with
  | O => of_option None
  | S fuel' =>
      let '(head, tail) := makedirs_split name in
      created ←
        (if truthy head && truthy tail then
           exists_ ← os_path_exists head;
           if exists_ : bool then mret false
           else
             try_except (makedirs fuel' env head) is_FileExistsError
               (fun _ => mret tt);;
             (* xxx/newdir/. exists if xxx/newdir exists *)
             mret (bool_decide (tail = u "."))
         else mret false);
      if created : bool then mret tt
      else
        try_except (os_mkdir env name) is_OSError
          (fun e =>
             isdir ← os_path_isdir name;
             if isdir : bool then mret tt else raise e)
  end.

Definition os_makedirs (env : Env) (d : str) : M unit :=
  makedirs (S (length d)) env d.

(** [with open(p, 'w') as f: f.write(text)].  A directory cannot be
    opened for writing, nor a path that ends in a separator or lies
    under a regular file.  Opening truncates the file; a failure while
    writing leaves what reached the file. *)
Definition write_text (env : Env) (p : str) (text : str) : M unit :=
  f ← get_fs;
  t ← get_tick;
  if negb (truthy p) then raise (ENOENT env p)
  else if bool_decide (p ∈ dirs f) then raise (EISDIR env p)
  else if bool_decide (is_Some (files f !! (makedirs_split p).1))
  then raise (ENOTDIR env p)
  else if negb (truthy (os_path_split p).2) then raise (EISDIR env p)
  else
    match open_write_fault env t p with
    | Some (cls, m) => raise (Exc cls m)
    | None =>
        set_fs (mkFS (<[p := []]> (files f)) (dirs f));;
        t' ← get_tick;
        match write_fault env t' p text with
        | Some (written, (cls, m)) =>
            set_fs (mkFS (<[p := take written text]> (files f)) (dirs f));;
            raise (Exc cls m)
        | None => set_fs (mkFS (<[p := text]> (files f)) (dirs f))
        end
    end.

(** [time.sleep(secs)] for an integer: the seconds must fit the
    clock's 64-bit count of nanoseconds, and must not be negative. *)
Definition SLEEP_MAX : Z := 9223372036%Z.

Definition time_sleep (env : Env) (secs : Z) : M unit :=
  t ← get_tick;
  if (secs <? - SLEEP_MAX)%Z || (SLEEP_MAX <? secs)%Z
  then raise (Exc "OverflowError" (u "timestamp too large to convert to C _PyTime_t"))
  else if (secs <? 0)%Z
  then raise (Exc "ValueError" (u "sleep length must be non-negative"))
  else if sleep_interrupted env t then raise KeyboardInterrupt
  else mret tt.

End PyLib.
Import PyLib.

(** ** [RouteTracker.format_bytes] *)

Module Format.
Local Open Scope N_scope.

(** The value of [bytes_value] in the loop: the [int] the method was
    given, or a [float].  The floats that occur are integers divided by
    a power of two, [m / 2^e]. *)
Inductive number :=
  | Int (n : N)
  | Float (m : N) (e : N).

(** [float(n)], as the integer it is: [n] rounded to 53 significant
    bits, ties to even; [None] is [OverflowError]. *)
Definition to_float (n : N) : option N :=
  let bits := N.size n in
  if bits <=? 53 then Some n
  else
    let shift := bits - 53 in
    let q := N.shiftr n shift in
    let rest := N.land n (N.ones shift) in
    let half := N.shiftl 1 (shift - 1) in
    let q := if (half <? rest) || ((rest =? half) && N.odd q) then q + 1 else q in
    let f := N.shiftl q shift in
    if N.shiftl 1 1024 <=? f then None else Some f.

Definition overflow : string * str :=
  ("OverflowError"%string, u "int too large to convert to float").

(** [bytes_value < 1024.0]: an [int] and a [float] compare by value. *)
Definition below_1024 (v : number) : bool :=
  match v with
  | Int n => n <? 1024
  | Float m e => m <? N.shiftl 1024 e
  end.

(** [bytes_value /= 1024.0]: the [int] is converted first; dividing a
    float of at least 1024 by a power of two is exact. *)
Definition div_1024 (v : number) : ext number :=
  match v with
  | Int n =>
      match to_float n with
      | Some f => Ok (Float f 10)
      | None => Fail overflow.1 overflow.2
      end
  | Float m e => Ok (Float m (e + 10))
  end.

(** The quotient [x / d] rounded to an integer, ties to even. *)
Definition round_half_even (x d : N) : N :=
  let q := x / d in
  let r := x mod d in
  if 2 * r <? d then q
  else if (2 * r =? d) && N.even q then q
  else q + 1.

Fixpoint decimalN_fuel (fuel : nat) (n : N) (acc : str) : str :=
  match fuel with
  | O => acc
  | S fuel' =>
      let acc' := (48 + n mod 10) :: acc in
      if n / 10 =? 0 then acc' else decimalN_fuel fuel' (n / 10) acc'
  end.

(** [str(n)]: a number has no more decimal digits than bits. *)
Definition decimalN (n : N) : str := decimalN_fuel (S (N.to_nat (N.size n))) n [].

(** A count of hundredths, written with two decimals. *)
Definition hundredths (h : N) : str :=
  decimalN (h / 100) ++ u "." ++ [48 + h mod 100 / 10; 48 + h mod 10].

(** [f"{bytes_value:.2f}"]: the decimal with two places nearest to the
    value, ties to even; an [int] is converted to [float] first. *)
Definition format_2f (v : number) : ext str :=
  match v with
  | Int n =>
      match to_float n with
      | Some f => Ok (hundredths (100 * f))
      | None => Fail overflow.1 overflow.2
      end
  | Float m e => Ok (hundredths (round_half_even (100 * m) (N.shiftl 1 e)))
  end.

Definition units : list string := ["B"; "KB"; "MB"; "GB"; "TB"]%string.

(** The [for] loop over the units, and the [return] behind it. *)
Fixpoint format_loop (units : list string) (bytes_value : number) : ext str :=
  match units with
  | [] =>
      match format_2f bytes_value with
      | Ok s => Ok (s ++ u " PB")
      | Fail cls m => Fail cls m
      end
  | unit :: rest =>
      if below_1024 bytes_value then
        match format_2f bytes_value with
        | Ok s => Ok (s ++ u " " ++ u unit)
        | Fail cls m => Fail cls m
        end
      else
        match div_1024 bytes_value with
        | Ok v => format_loop rest v
        | Fail cls m => Fail cls m
        end
  end.

Definition format_bytes (bytes_value : N) : ext str :=
  format_loop units (Int bytes_value).

End Format.

(** ** The tracker: class [RouteTracker] *)

Module Tracker.

(** The configuration read from the YAML file.  A configuration provides
    every key the tracker reads with [[...]]; keys read with [.get] or
    tested with [in] are optional. *)
Record SshConfig := mkSshConfig {
  ssh_enabled : option bool;
  ssh_device_type : str;
  ssh_host : str;
  ssh_port : option Z;
  ssh_username : str;
  ssh_password : option str;
  ssh_key_file : option str;
  (* ssh_config['commands']['default'] when both keys are present *)
  ssh_commands_default : option str
}.

Record Config := mkConfig {
  mode : str;
  ssh_config : SshConfig;
  local_command : str;            (* ['local_config']['command'] *)
  check_timeout : Z;              (* ['monitoring']['check_timeout'] *)
  interval_seconds : Z;           (* ['monitoring']['interval_seconds'] *)
  store_previous : bool;          (* ['snapshot']['store_previous'] *)
  snapshot_file : str;            (* ['snapshot']['snapshot_file'] *)
  stats_enabled : bool;           (* ['statistics']['enabled'] *)
  collect_traffic : bool;
  collect_connections : bool;
  collect_ports : bool;
  top_ports_count : Z
}.

(** [for x in l: body x]. *)
Fixpoint for_each {A} (l : list A) (body : A -> M unit) : M unit :=
  match l with
  | [] => mret tt
  | x :: rest => body x;; for_each rest body
  end.

(** [if c: body]. *)
Definition when (c : bool) (body : M unit) : M unit :=
  if c then body else mret tt.

Definition rule (c : string) : str := repeat_char c 60.

Section Methods.
Variable config : Config.
Variable env : Env.

Definition get_routes_ssh : M (option str) :=
  if negb (NETMIKO_AVAILABLE env) then
    logging ERROR (u "Netmiko not installed. Install with: pip install netmiko");;
    mret None
  else
    let ssh_config := ssh_config config in
    if negb (default false (ssh_enabled ssh_config)) then
      logging ERROR (u "SSH mode selected but not enabled in config");;
      mret None
    else
      let device :=
        mkDevice (ssh_device_type ssh_config) (ssh_host ssh_config)
                 (default 22%Z (ssh_port ssh_config))
                 (ssh_username ssh_config) (check_timeout config)
                 (ssh_password ssh_config) (ssh_key_file ssh_config) in
      try_except
        (logging INFO (u "Connecting to router " ++ ssh_host ssh_config ++ u "...");;
         call (fun t => ConnectHandler env t device);;
         let command := default (u "show ip route") (ssh_commands_default ssh_config) in
         logging INFO (u "Executing command: " ++ command);;
         output ← call (fun t => send_command env t command);
         call (disconnect env);;
         logging INFO (u "Successfully retrieved routing table from router");;
         mret (Some output))
        is_Exception
        (fun e =>
           logging ERROR (u "SSH connection failed: " ++ exn_str e);;
           mret None).

Definition is_TimeoutExpired (e : exn) : bool :=
  match e with
  | Exc cls _ => bool_decide (cls = "TimeoutExpired"%string)
  | KeyboardInterrupt => false
  end.

Definition get_routes_local : M (option str) :=
  let command := local_command config in
  try_except
    (result ← call (fun t => subprocess_run env t (split command) (check_timeout config));
     let '(returncode, stdout, stderr) := result in
     if (returncode =? 0)%Z then
       logging INFO (u "Successfully retrieved local routing table");;
       mret (Some stdout)
     else
       logging ERROR (u "Command failed with return code " ++ decimalZ returncode);;
       logging ERROR (u "Error: " ++ stderr);;
       mret None)
    is_Exception
    (fun e =>
       if is_TimeoutExpired e then
         logging ERROR (u "Command timed out after "
                          ++ decimalZ (check_timeout config) ++ u " seconds");;
         mret None
       else
         logging ERROR (u "Error executing local command: " ++ exn_str e);;
         mret None).

Definition check_routes : M (option str) :=
  let mode := mode config in
  if bool_decide (mode = u "ssh") then get_routes_ssh
  else if bool_decide (mode = u "local") then get_routes_local
  else
    logging ERROR (u "Invalid mode: " ++ mode ++ u ". Must be 'ssh' or 'local'");;
    mret None.

Definition load_previous_snapshot : M (option str) :=
  if negb (store_previous config) then mret None
  else
    let snapshot_file := snapshot_file config in
    exists_ ← os_path_exists snapshot_file;
    if exists_ : bool then
      try_except
        (text ← read_text env snapshot_file; mret (Some text))
        is_Exception
        (fun e =>
           logging WARNING (u "Could not load previous snapshot: " ++ exn_str e);;
           mret None)
    else mret None.

Definition save_snapshot (routes : str) : M unit :=
  if negb (store_previous config) then mret tt
  else
    let snapshot_file := snapshot_file config in
    try_except
      (os_makedirs env (os_path_dirname snapshot_file);;
       write_text env snapshot_file routes)
      is_Exception
      (fun e => logging WARNING (u "Could not save snapshot: " ++ exn_str e)).

Definition line_set (text : str) : gset str := list_to_set (splitlines text).

(** The routes listed under a heading: [sorted(s)], blank ones skipped. *)
Definition listed (s : gset str) : list str :=
  filter (fun route => truthy (strip route) = true) (sorted (elements s)).

Definition diff_of (previous current : str) : option (list str) :=
  Difflib.unified_diff (splitlines_keepends previous) (splitlines_keepends current)
    (u "Previous Routes") (u "Current Routes") [] [] 3 [].

Definition compare_and_log_changes (previous current : str) : M unit :=
  if bool_decide (previous = current) then
    logging INFO (u "No routing table changes detected")
  else
    logging INFO (u "Route change detected!");;
    logging INFO (rule "-");;
    diff_output ← of_option (diff_of previous current);
    when (bool_decide (diff_output ≠ []))
      (logging INFO (u "Routing table diff:");;
       for_each diff_output (fun line => logging INFO (rstrip line)));;
    logging INFO (rule "-");;
    let previous_set := line_set previous in
    let current_set := line_set current in
    let added := current_set ∖ previous_set in
    let removed := previous_set ∖ current_set in
    when (bool_decide (added ≠ ∅))
      (logging INFO (u "Added routes:");;
       for_each (sorted (elements added))
         (fun route => when (truthy (strip route))
                         (logging INFO (u "  + " ++ route))));;
    when (bool_decide (removed ≠ ∅))
      (logging INFO (u "Removed routes:");;
       for_each (sorted (elements removed))
         (fun route => when (truthy (strip route))
                         (logging INFO (u "  - " ++ route))));;
    logging INFO (rule "=").

(** [collect_network_stats]: the body of the [try] block.  The local
    variable [connections] is bound only when connections are
    collected. *)
Definition log_ports (title : str) (ports : list nat) : M unit :=
  let top_count := top_ports_count config in
  when (bool_decide (ports ≠ []))
    (logging INFO ([LF] ++ u "Top " ++ decimalZ top_count ++ u " " ++ title ++ u " Ports:");;
     for_each (most_common_n top_count (Counter ports))
       (fun '(port, count) =>
          logging INFO (u "  Port " ++ decimal port ++ u ": "
                          ++ decimal count ++ u " connections"))).

Definition stats_body : M unit :=
  when (collect_traffic config)
    (net_io ← call (net_io_counters env);
     logging INFO (u "Network Traffic:");;
     sent ← of_ext (Format.format_bytes (proj1_sig (bytes_sent net_io)));
     logging INFO (u "  Bytes sent: " ++ sent);;
     received ← of_ext (Format.format_bytes (proj1_sig (bytes_recv net_io)));
     logging INFO (u "  Bytes received: " ++ received);;
     logging INFO (u "  Packets sent: " ++ format_thousands (packets_sent net_io));;
     logging INFO (u "  Packets received: " ++ format_thousands (packets_recv net_io));;
     logging INFO (u "  Errors in: " ++ decimal (errin net_io)
                     ++ u ", Errors out: " ++ decimal (errout net_io));;
     logging INFO (u "  Drops in: " ++ decimal (dropin net_io)
                     ++ u ", Drops out: " ++ decimal (dropout net_io)));;
  connections ←
    (if collect_connections config then
       connections ← call (net_connections env);
       logging INFO ([LF] ++ u "Active Connections: " ++ decimal (length connections));;
       let status_count := Counter (map status connections) in
       for_each (most_common status_count)
         (fun '(status, count) =>
            logging INFO (u "  " ++ status ++ u ": " ++ decimal count));;
       mret (Some connections)
     else mret None);
  when (collect_ports config)
    (match connections with
     | None =>
         raise (Exc "UnboundLocalError" (unbound_local_message env (u "connections")))
     | Some connections =>
         let local_ports := omap laddr_port connections in
         let remote_ports := omap raddr_port connections in
         log_ports (u "Local") local_ports;;
         log_ports (u "Remote") remote_ports
     end);;
  call (net_if_addrs env);;
  if_stats ← call (net_if_stats env);
  logging INFO ([LF] ++ u "Network Interfaces:");;
  for_each if_stats
    (fun '(interface, stats) =>
       let status := if isup stats then u "UP" else u "DOWN" in
       let speed := if 0 <? speed stats
                    then decimal (speed stats) ++ u " Mbps" else u "Unknown" in
       logging INFO (u "  " ++ interface ++ u ": " ++ status ++ u ", Speed: " ++ speed)).

Definition collect_network_stats : M unit :=
  if negb (stats_enabled config) then mret tt
  else
    logging INFO (u "Network Statistics:");;
    logging INFO (rule "-");;
    try_except stats_body is_Exception
      (fun e => logging ERROR (u "Error collecting network statistics: " ++ exn_str e));;
    logging INFO (rule "=").

Definition run_once : M bool :=
  logging INFO (u "Starting single route check...");;
  current_routes ← check_routes;
  match current_routes with
  | None =>
      logging ERROR (u "Failed to retrieve routing table");;
      mret false
  | Some current_routes =>
      previous_routes ← load_previous_snapshot;
      match previous_routes with
      | None =>
          logging INFO (u "No previous snapshot found - this is the first run");;
          logging INFO (u "Current routing table has "
                          ++ decimal (length (splitlines current_routes))
                          ++ u " entries")
      | Some previous_routes =>
          compare_and_log_changes previous_routes current_routes
      end;;
      collect_network_stats;;
      save_snapshot current_routes;;
      logging INFO (u "Route check completed");;
      mret true
  end.

End Methods.

(** *** The change report

    The values [compare_and_log_changes] works with: whether it returned
    at the equality test, [diff_output], and the sets [added] and
    [removed]. *)
Record ChangeReport := mkChangeReport {
  unchanged : bool;
  diffLines : list str;
  added : gset str;
  removed : gset str
}.

Definition compare (previous current : str) : option ChangeReport :=
  if bool_decide (previous = current) then Some (mkChangeReport true [] ∅ ∅)
  else
    diff_output ← diff_of previous current;
    Some (mkChangeReport false diff_output
            (line_set current ∖ line_set previous)
            (line_set previous ∖ line_set current)).

(** The log records that render a report. *)
Definition listing (heading sign : string) (s : gset str) : list LogRecord :=
  if bool_decide (s ≠ ∅)
  then (INFO, u heading) :: map (fun route => (INFO, u sign ++ route)) (listed s)
  else [].

Definition render (r : ChangeReport) : list LogRecord :=
  if unchanged r then [(INFO, u "No routing table changes detected")]
  else
    [(INFO, u "Route change detected!"); (INFO, rule "-")]
    ++ (if bool_decide (diffLines r ≠ [])
        then (INFO, u "Routing table diff:")
               :: map (fun line => (INFO, rstrip line)) (diffLines r)
        else [])
    ++ [(INFO, rule "-")]
    ++ listing "Added routes:" "  + " (added r)
    ++ listing "Removed routes:" "  - " (removed r)
    ++ [(INFO, rule "=")].

(** *** Daemon mode: [run_periodically]

    The loop as a machine: about to run a cycle, about to sleep, or
    left (by [return] after an interrupt, or by a re-raised exception).
    [cycle] is what [self.run_once()] does. *)
Inductive Loop :=
  | AtCycle (w : World)
  | AtSleep (w : World)
  | Left (r : result unit) (w : World).

Section Daemon.
Variable env : Env.
Variable cycle : M bool.
Variable interval : Z.

(** The two [except] clauses of [run_periodically]. *)
Definition daemon_except (e : exn) (w : World) : Loop :=
  match e with
  | KeyboardInterrupt =>
      let '(_, w') :=
        (logging INFO (u "Monitoring stopped by user");;
         logging INFO (u "Tracker shutdown complete")) w in
      Left (Ret tt) w'
  | Exc _ _ =>
      let '(_, w') :=
        logging ERROR (u "Unexpected error in daemon mode: " ++ exn_str e) w in
      Left (Raise e) w'
  end.

Definition daemon_step (s : Loop) : Loop :=
  match s with
  | AtCycle w =>
      match cycle w with
      | (Ret _, w') => AtSleep w'
      | (Raise e, w') => daemon_except e w'
      | (Unfinished, w') => Left Unfinished w'
      end
  | AtSleep w =>
      match time_sleep env interval w with
      | (Ret _, w') => AtCycle w'
      | (Raise e, w') => daemon_except e w'
      | (Unfinished, w') => Left Unfinished w'
      end
  | Left r w => Left r w
  end.

Fixpoint daemon_steps (n : nat) (s : Loop) : Loop :=
  match n with
  | O => s
  | S n' => daemon_steps n' (daemon_step s)
  end.
End Daemon.

(** [run_periodically(interval)] up to its first cycle, and after [n]
    further steps. *)
Definition daemon_start (config : Config) (interval : option Z) (w : World)
    : Z * Loop :=
  let interval := default (interval_seconds config) interval in
  let '(_, w') :=
    (logging INFO (u "Starting periodic monitoring (interval: "
                     ++ decimalZ interval ++ u " seconds)");;
     logging INFO (u "Press Ctrl+C to stop monitoring")) w in
  (interval, AtCycle w').

Definition run_periodically (config : Config) (env : Env) (interval : option Z)
    (n : nat) (w : World) : Loop :=
  let '(interval, s) := daemon_start config interval w in
  daemon_steps env (run_once config env) interval n s.

End Tracker.
Import Tracker.

(** ** Vocabulary for the properties of the matcher *)

Module DiffSpec.
Import Difflib.

Section Blocks.
Context {A : Type}.
Variables a b : list A.

(** [a[i:i+k] == b[j:j+k]], inside both sequences. *)
Definition valid_match (m : Match) : Prop :=
  let '(i, j, k) := m in
  take k (drop i a) = take k (drop j b)
  ∧ i + k ≤ length a ∧ j + k ≤ length b.

(** A block that lies in the window [a[alo:ahi]], [b[blo:bhi]]. *)
Definition in_region (r : nat * nat * nat * nat) (m : Match) : Prop :=
  let '(alo, ahi, blo, bhi) := r in
  let '(i, j, k) := m in
  alo ≤ i ∧ i + k ≤ ahi ∧ blo ≤ j ∧ j + k ≤ bhi.

Definition wf_region (r : nat * nat * nat * nat) : Prop :=
  let '(alo, ahi, blo, bhi) := r in
  alo ≤ ahi ∧ ahi ≤ length a ∧ blo ≤ bhi ∧ bhi ≤ length b.

(** Non-empty matching blocks that follow one another in both
    sequences, from [(alo, blo)] up to [(ahi, bhi)]. *)
Fixpoint chain (alo blo : nat) (l : list Match) (ahi bhi : nat) : Prop :=
  match l with
  | [] => alo ≤ ahi ∧ blo ≤ bhi
  | (i, j, k) :: rest =>
      alo ≤ i ∧ blo ≤ j ∧ 0 < k ∧ valid_match (i, j, k)
      ∧ chain (i + k) (j + k) rest ahi bhi
  end.

Definition chain_in (r : nat * nat * nat * nat) (l : list Match) : Prop :=
  let '(alo, ahi, blo, bhi) := r in chain alo blo l ahi bhi.

(** Work left in the list of windows. *)
Definition region_measure (q : list (nat * nat * nat * nat)) : nat :=
  sum_list (map (fun '(alo, ahi, _, _) => 2 * (ahi - alo) + 1) q).

(** The opcodes of a list of blocks read from [(i, j)], by recursion
    on the list. *)
Fixpoint ops (i j : nat) (blocks : list Match) : list opcode :=
  match blocks with
  | [] => []
  | (ai, bj, size) :: rest =>
      (if (i <? ai) && (j <? bj) then [(Replace, i, ai, j, bj)]
       else if i <? ai then [(Delete, i, ai, j, bj)]
       else if j <? bj then [(Insert, i, ai, j, bj)]
       else [])
      ++ (if size =? 0 then [] else [(Equal, ai, ai + size, bj, bj + size)])
      ++ ops (ai + size) (bj + size) rest
  end.
(** A valid match inside a window. *)
Definition fits (r : nat * nat * nat * nat) (m : Match) : Prop :=
  in_region r m ∧ valid_match m.

(** An entry [j ↦ k] of [j2len] while row [i] is scanned: a match of
    length [k] that ends at row [i - 1] and column [j]. *)
Definition ends_before (r : nat * nat * nat * nat) (i j k : nat) : Prop :=
  1 ≤ k ∧ k ≤ i ∧ k ≤ S j ∧ fits r (i - k, S j - k, k).
End Blocks.

Definition changed (c : opcode) : Prop := op_tag c ≠ Equal.

Definition all_equal (codes : list opcode) : Prop :=
  Forall (fun c => op_tag c = Equal) codes.

End DiffSpec.

(** ** Vocabulary for the properties of the tracker *)

Module TrackerSpec.

(** The state after some more log records. *)
Definition add_log (w : World) (recs : list LogRecord) : World :=
  mkWorld (fs w) (log w ++ recs) (tick w).

(** [m] returns [x]; all it does is append [recs] to the log. *)
Definition emits {A} (m : M A) (x : A) (recs : list LogRecord) : Prop :=
  ∀ w, m w = (Ret x, add_log w recs).

(** [m] returns: it neither raises nor runs out of fuel. *)
Definition returns {A} (m : M A) : Prop :=
  ∀ w, ∃ x, (m w).1 = Ret x.

(** [m] returns or raises an instance of [Exception]. *)
Definition exc_only {A} (m : M A) : Prop :=
  ∀ w, match (m w).1 with
       | Ret _ => True
       | Raise e => is_Exception e = true
       | Unfinished => False
       end.

(** [m] leaves the file system as it is. *)
Definition keeps_fs {A} (m : M A) : Prop :=
  ∀ w, fs (m w).2 = fs w.

(** [m] only adds to the log. *)
Definition extends_log {A} (m : M A) : Prop :=
  ∀ w, ∃ recs, log (m w).2 = log w ++ recs.

(** The number a string of decimal digits stands for. *)
Definition digits_value (s : str) : nat :=
  fold_left (fun acc c => 10 * acc + (N.to_nat c - 48)) s 0.

(** A blank or whitespace-only line. *)
Definition blank (s : str) : Prop := Forall (fun c => is_space c = true) s.

(** The state in which [run_once] calls [check_routes]. *)
Definition started (w : World) : World :=
  add_log w [(INFO, u "Starting single route check...")].

(** The records of the first-run branch. *)
Definition first_run_report (current_routes : str) : list LogRecord :=
  [(INFO, u "No previous snapshot found - this is the first run");
   (INFO, u "Current routing table has "
            ++ decimal (length (splitlines current_routes)) ++ u " entries")].

Definition completed : LogRecord := (INFO, u "Route check completed").

(** The content of the snapshot file. *)
Definition stored (config : Config) (w : World) : option str :=
  files (fs w) !! snapshot_file config.

(** What a cycle reports about the routes once it has the previous
    snapshot (or none). *)
Definition report_records (previous : option str) (current : str)
    : list LogRecord :=
  match previous with
  | None => first_run_report current
  | Some p => from_option render [] (compare p current)
  end.

Definition save_warning (message : str) : LogRecord :=
  (WARNING, u "Could not save snapshot: " ++ message).

Definition stats_error (e : exn) : LogRecord :=
  (ERROR, u "Error collecting network statistics: " ++ exn_str e).

Definition daemon_error (e : exn) : LogRecord :=
  (ERROR, u "Unexpected error in daemon mode: " ++ exn_str e).

(** The state after one more call to the outside. *)
Definition ticked (w : World) : World :=
  mkWorld (fs w) (log w) (S (tick w)).

(** What [run_periodically] logs before its loop. *)
Definition daemon_heading (interval : Z) : list LogRecord :=
  [(INFO, u "Starting periodic monitoring (interval: "
            ++ decimalZ interval ++ u " seconds)");
   (INFO, u "Press Ctrl+C to stop monitoring")].

(** A path and the heads [os.makedirs] goes up through. *)
Fixpoint ancestors (fuel : nat) (name : str) : list str :=
  match fuel with
  | O => []
  | S fuel' =>
      name :: (let '(head, tail) := makedirs_split name in
               if truthy head && truthy tail then ancestors fuel' head else [])
  end.

Definition path_ancestors (d : str) : list str := ancestors (S (length d)) d.

(** From [w] to [w'] nothing changed but the directories, which grew
    by members of [new] at most. *)
Definition grows (new : gset str) (w w' : World) : Prop :=
  files (fs w') = files (fs w) ∧ log w' = log w
  ∧ dirs (fs w) ⊆ dirs (fs w') ∧ dirs (fs w') ⊆ new ∪ dirs (fs w).

(** [r] is a return or an instance of [Exception]. *)
Definition ended (r : result unit) : Prop :=
  r = Ret tt ∨ ∃ cls message, r = Raise (Exc cls message).

(** An interval [time.sleep] accepts. *)
Definition usable_interval (interval : Z) : Prop :=
  (0 ≤ interval ≤ SLEEP_MAX)%Z.

(** What [time.sleep] raises for any other interval. *)
Definition sleep_error (interval : Z) : exn :=
  if (interval <? - SLEEP_MAX)%Z || (SLEEP_MAX <? interval)%Z
  then Exc "OverflowError" (u "timestamp too large to convert to C _PyTime_t")
  else Exc "ValueError" (u "sleep length must be non-negative").


End TrackerSpec.

(** ** Concrete configurations, environments and states *)

Module Scenario.

Definition no_ssh : SshConfig :=
  mkSshConfig None [] [] None [] None None None.

(** Local mode with [ip route]; statistics limited to the traffic
    counters. *)
Definition config_local (store : bool) (file : string) : Config :=
  mkConfig (u "local") no_ssh (u "ip route") 10 60 store (u file)
           true true false false 5.

Definition no_bytes : u64 := exist _ 0%N eq_refl.

Definition no_traffic : NetIO := mkNetIO no_bytes no_bytes 0 0 0 0 0 0.

(** An environment given by the answer of the subprocess, the answer of
    [psutil.net_io_counters] and the fate of a write; everything else
    succeeds. *)
Definition env_with (proc : ext (Z * str * str)) (traffic : ext NetIO)
    (failing_write : option (nat * (string * str))) : Env :=
  mkEnv false
        (fun _ _ => Ok tt) (fun _ _ => Ok []) (fun _ => Ok tt)
        (fun _ _ _ => proc)
        (fun _ => traffic) (fun _ => Ok []) (fun _ => Ok tt) (fun _ => Ok [])
        (fun _ _ => None) (fun _ _ => None) (fun _ _ => None)
        (fun _ _ _ => failing_write)
        (fun _ => false)
        (fun _ => true)
        (fun v => u "cannot access local variable '" ++ v ++ u "'").

Definition two_routes : str :=
  u "10.0.0.0/8 via eth0" ++ [LF] ++ u "192.168.1.0/24 via eth1" ++ [LF].

Definition two_routes_swapped : str :=
  u "192.168.1.0/24 via eth1" ++ [LF] ++ u "10.0.0.0/8 via eth0" ++ [LF].

Definition two_routes_changed : str :=
  u "10.0.0.0/8 via eth0" ++ [LF] ++ u "192.168.2.0/24 via eth1" ++ [LF].

Definition proc_ok : ext (Z * str * str) := Ok (0%Z, two_routes, []).
Definition proc_failed : ext (Z * str * str) :=
  Ok (2%Z, [], u "Cannot open netlink socket").

Definition env_ok : Env := env_with proc_ok (Ok no_traffic) None.
Definition env_no_routes : Env := env_with proc_failed (Ok no_traffic) None.
Definition env_stats_failing : Env :=
  env_with proc_ok (Fail "AccessDenied" (u "access denied")) None.

Definition empty_world : World := mkWorld (mkFS ∅ ∅) [] 0.

(** A file system that holds one file and the directories above it. *)
Definition dirs_above (file : string) : gset str :=
  list_to_set (filter (fun d => truthy d = true)
                 (TrackerSpec.path_ancestors (os_path_dirname (u file)))).

Definition world_with (file : string) (text : str) : World :=
  mkWorld (mkFS {[ u file := text ]} (dirs_above file)) [] 0.

Definition snapshot_path : string := "/var/lib/tracker/snapshot.txt".

(** The state of a cycle started in [w] once [ip route] has answered. *)
Definition acquired (w : World) : World :=
  mkWorld (fs w)
          (log w ++ [(INFO, u "Starting single route check...");
                     (INFO, u "Successfully retrieved local routing table")])
          (S (tick w)).

(** The same once [ip route] has failed. *)
Definition not_acquired (w : World) : World :=
  mkWorld (fs w)
          (log w ++ [(INFO, u "Starting single route check...");
                     (ERROR, u "Command failed with return code 2");
                     (ERROR, u "Error: Cannot open netlink socket")])
          (S (tick w)).

Definition access_denied : exn := Exc "AccessDenied" (u "access denied").


End Scenario.

(** ** The command line: [main] *)

Module Cli.

Inductive Mode := check | daemon.

(** The arguments as [parse_args] returns them; argparse has already
    refused any other mode and any interval that is not an integer. *)
Record Args := mkArgs {
  args_mode : Mode;
  args_config : str;
  args_interval : option Z
}.

(** The process: the state the tracker works on and what was printed. *)
Record Process := mkProcess {
  world : World;
  stdout : list str
}.

(** How [RouteTracker(config_file=...)] ends: with a tracker and its
    configuration, in [sys.exit] (from [load_config]), or in an
    exception. *)
Inductive Started :=
  | Tracker (config : Config)
  | Exits (status : Z)
  | Fails (e : exn).

(** How [main] ends.  [Pending] is a daemon loop that has not ended
    within the steps counted. *)
Inductive Ending :=
  | SystemExit (status : Z)
  | Returned
  | Uncaught (e : exn)
  | Pending
  | OutOfFuel.

Definition print (line : str) (p : Process) : Process :=
  mkProcess (world p) (stdout p ++ [line]).

(** Truth value of [args.interval]: given and not zero. *)
Definition interval_given (interval : option Z) : bool :=
  match interval with
  | Some z => negb (z =? 0)%Z
  | None => false
  end.

Section Main.
Variable env : Env.
(** The constructor, with the configuration file it reads, is taken as
    given. *)
Variable RouteTracker : str -> Process -> Started * Process.

Definition main (args : Args) (steps : nat) (p : Process) : Ending * Process :=
  match os_path_exists (args_config args) (world p) with
  | (Ret true, _) =>
      match RouteTracker (args_config args) p with
      | (Tracker config, p) =>
          match args_mode args with
          | check =>
              let p :=
                if interval_given (args_interval args)
                then print (u "Warning: --interval is ignored in 'check' mode") p
                else p in
              match run_once config env (world p) with
              | (Ret success, w) =>
                  (SystemExit (if success then 0 else 1), mkProcess w (stdout p))
              | (Raise e, w) => (Uncaught e, mkProcess w (stdout p))
              | (Unfinished, w) => (OutOfFuel, mkProcess w (stdout p))
              end
          | daemon =>
              match run_periodically config env (args_interval args) steps (world p) with
              | Left (Ret _) w => (Returned, mkProcess w (stdout p))
              | Left (Raise e) w => (Uncaught e, mkProcess w (stdout p))
              | Left Unfinished w => (OutOfFuel, mkProcess w (stdout p))
              | AtCycle w | AtSleep w => (Pending, mkProcess w (stdout p))
              end
          end
      | (Exits status, p) => (SystemExit status, p)
      | (Fails e, p) =>
          if is_Exception e
          then (SystemExit 1,
                print (u "Error initializing tracker: " ++ exn_str e) p)
          else (Uncaught e, p)
      end
  | (Ret false, _) =>
      (SystemExit 1,
       print (u "Error: Config file '" ++ args_config args ++ u "' not found") p)
  | (Raise e, _) => (Uncaught e, p)
  | (Unfinished, _) => (OutOfFuel, p)
  end.

End Main.

End Cli.

(** ** Vocabulary for the lines of the diff *)

Module DiffLines.
Import Difflib.

(** A line without its line boundary. *)
Fixpoint line_body (y : str) : str :=
  match y with
  | [] => []
  | c :: rest => if is_linebreak c then [] else c :: line_body rest
  end.

(** The opcode [c] puts element [j] of [b] among the inserted ones, or
    element [i] of [a] among the deleted ones. *)
Definition inserts (c : opcode) (j : nat) : Prop :=
  let '(t, _, _, j1, j2) := c in (t = Replace ∨ t = Insert) ∧ j1 ≤ j < j2.

Definition deletes (c : opcode) (i : nat) : Prop :=
  let '(t, i1, i2, _, _) := c in (t = Replace ∨ t = Delete) ∧ i1 ≤ i < i2.

(** The first line of a hunk. *)
Definition hunk_header (d : str) : Prop :=
  ∃ range1 range2, d = u "@@ -" ++ range1 ++ u " +" ++ range2 ++ u " @@".

(** A line of the body of the diff of [a] and [b]: a hunk header, a line
    of [a] as context or deleted, or a line of [b] inserted. *)
Definition diff_line (a b : list str) (d : str) : Prop :=
  hunk_header d
  ∨ (∃ y, y ∈ a ∧ (d = u " " ++ y ∨ d = u "-" ++ y))
  ∨ (∃ y, y ∈ b ∧ d = u "+" ++ y).

End DiffLines.

(** ** Vocabulary for acquisition, statistics and daemon mode *)

Module CycleSpec.

(** The device dictionary [get_routes_ssh] builds, and the command it
    sends. *)
Definition ssh_device (config : Config) : Device :=
  let ssh_config := ssh_config config in
  mkDevice (ssh_device_type ssh_config) (ssh_host ssh_config)
           (default 22%Z (ssh_port ssh_config))
           (ssh_username ssh_config) (check_timeout config)
           (ssh_password ssh_config) (ssh_key_file ssh_config).

Definition ssh_command (config : Config) : str :=
  default (u "show ip route") (ssh_commands_default (ssh_config config)).

(** The last record of the log has level [l]. *)
Definition ends_with_level (l : level) (w : World) : Prop :=
  ∃ message, last (log w) = Some (l, message).

Definition no_change : LogRecord := (INFO, u "No routing table changes detected").

(** A byte counter as [format_bytes] shows it. *)
Definition bytes_text (count : u64) : str :=
  match Format.format_bytes (proj1_sig count) with
  | Ok s => s
  | Fail _ m => m
  end.

(** The records of the traffic block of the statistics. *)
Definition traffic_records (env : Env) (net_io : NetIO) : list LogRecord :=
  [(INFO, u "Network Traffic:");
   (INFO, u "  Bytes sent: " ++ bytes_text (bytes_sent net_io));
   (INFO, u "  Bytes received: " ++ bytes_text (bytes_recv net_io));
   (INFO, u "  Packets sent: " ++ format_thousands (packets_sent net_io));
   (INFO, u "  Packets received: " ++ format_thousands (packets_recv net_io));
   (INFO, u "  Errors in: " ++ decimal (errin net_io)
            ++ u ", Errors out: " ++ decimal (errout net_io));
   (INFO, u "  Drops in: " ++ decimal (dropin net_io)
            ++ u ", Drops out: " ++ decimal (dropout net_io))].

Definition stats_heading : list LogRecord :=
  [(INFO, u "Network Statistics:"); (INFO, rule "-")].

Definition unbound_connections (env : Env) : exn :=
  Exc "UnboundLocalError" (unbound_local_message env (u "connections")).

(** [m] only adds records that satisfy [P] to the log. *)
Definition logs {A} (P : LogRecord -> Prop) (m : M A) : Prop :=
  ∀ w, ∃ recs, log (m w).2 = log w ++ recs ∧ Forall P recs.

Definition is_info (r : LogRecord) : Prop := r.1 = INFO.

(** How often [k] occurs in [l]. *)
Definition occurrences {K} `{EqDecision K} (k : K) (l : list K) : nat :=
  length (filter (fun x => x = k) l).

(** The count a counter holds for [k]. *)
Definition tally {K} `{EqDecision K} (c : list (K * nat)) (k : K) : nat :=
  sum_list (map snd (filter (fun x => x.1 = k) c)).

(** Decreasing counts. *)
Definition by_count {K} (x y : K * nat) : Prop := y.2 ≤ x.2.

(** The records under the heading of [log_ports]. *)
Definition port_records (shown : list (nat * nat)) : list LogRecord :=
  map (fun '(port, count) =>
         (INFO, u "  Port " ++ decimal port ++ u ": "
                  ++ decimal count ++ u " connections")) shown.

Definition shutdown_records : list LogRecord :=
  [(INFO, u "Monitoring stopped by user"); (INFO, u "Tracker shutdown complete")].

End CycleSpec.

(** ** Vocabulary for [format_bytes] *)

Module FormatSpec.
Local Open Scope N_scope.

(** The unit [format_bytes] chooses and its size in bytes. *)
Definition unit_name (k : nat) : string :=
  nth k ["B"; "KB"; "MB"; "GB"; "TB"]%string "PB"%string.

Definition unit_size (k : nat) : N := 1024 ^ N.of_nat k.

(** [h] hundredths of a unit of size [d] are nearest to [n] bytes: the
    two differ by at most half a hundredth of the unit. *)
Definition nearest_hundredths (n d h : N) : Prop :=
  2 * (h * d) ≤ 200 * n + d ∧ 200 * n ≤ 2 * (h * d) + d.

End FormatSpec.

(** ** Further configurations, environments and states *)

Module Routers.
Import Scenario.

Definition ssh_router : SshConfig :=
  mkSshConfig (Some true) (u "cisco_ios") (u "192.0.2.1") None (u "admin")
              (Some (u "secret")) None None.

Definition config_ssh : Config :=
  mkConfig (u "ssh") ssh_router (u "ip route") 10 60 true (u snapshot_path)
           false false false false 5.

(** Netmiko is installed; the session goes as given. *)
Definition env_ssh (connect : ext unit) (output : ext str) (bye : ext unit) : Env :=
  mkEnv true
        (fun _ _ => connect) (fun _ _ => output) (fun _ => bye)
        (fun _ _ _ => Ok (0%Z, [], []))
        (fun _ => Ok no_traffic) (fun _ => Ok []) (fun _ => Ok tt) (fun _ => Ok [])
        (fun _ _ => None) (fun _ _ => None) (fun _ _ => None)
        (fun _ _ _ => None)
        (fun _ => false)
        (fun _ => true)
        (fun v => u "cannot access local variable '" ++ v ++ u "'").

(** Port statistics without connection statistics. *)
Definition config_ports_only : Config :=
  mkConfig (u "local") no_ssh (u "ip route") 10 60 true (u snapshot_path)
           true true false true 5.

(** A route table as a router sends it, with ["\r\n"] line ends. *)
Definition routes_crlf : str :=
  u "10.0.0.0/8 via eth0" ++ [CR; LF] ++ u "192.168.1.0/24 via eth1" ++ [CR; LF].

(** The state after a first snapshot was saved. *)
Definition saved : World :=
  (save_snapshot (config_local true snapshot_path) env_ok two_routes empty_world).2.

(** A constructor that reads nothing and starts the tracker. *)
Definition tracker_of (config : Config) (config_file : str) (p : Cli.Process)
    : Cli.Started * Cli.Process :=
  (Cli.Tracker config, p).

End Routers.

(** * Properties *)

Import Difflib DiffSpec TrackerSpec Scenario.

(** ** Strings *)

Section StrFacts.

Lemma splitlines_from_concat_bounded (n : nat) (s cur : str) :
  length s ≤ n → concat (splitlines_from true cur s) = cur ++ s.
Proof.
  revert s cur. induction n as [|n IH]; intros s cur Hlen.
  - destruct s; [|simpl in Hlen; lia].
    destruct cur; simpl; [done|]. by rewrite !app_nil_r.
  - destruct s as [|c rest].
    { destruct cur; simpl; [done|]. by rewrite !app_nil_r. }
    simpl in Hlen. cbn [splitlines_from].
    destruct (is_linebreak c).
    + destruct rest as [|c' rest'].
      * simpl. by rewrite app_nil_r.
      * simpl in Hlen.
        destruct ((c =? CR)%N && (c' =? LF)%N); cbn [concat];
          rewrite IH by (simpl; lia); simpl; by rewrite <- app_assoc.
    + rewrite IH by lia. by rewrite <- app_assoc.
Qed.

(** Joining the lines with their endings gives the text back. *)
Lemma splitlines_keepends_concat (s : str) :
  concat (splitlines_keepends s) = s.
Proof. apply (splitlines_from_concat_bounded (length s)). lia. Qed.

Lemma splitlines_keepends_inj (s t : str) :
  splitlines_keepends s = splitlines_keepends t → s = t.
Proof.
  intros E. rewrite <- (splitlines_keepends_concat s), <- (splitlines_keepends_concat t).
  by rewrite E.
Qed.

(** The order on strings. *)
Lemma str_leb_refl (s : str) : str_leb s s = true.
Proof.
  induction s as [|c s IH]; [done|]. simpl.
  rewrite N.ltb_irrefl, N.eqb_refl. exact IH.
Qed.

Lemma str_leb_total (s t : str) : str_leb s t = true ∨ str_leb t s = true.
Proof.
  revert t. induction s as [|c s IH]; intros [|d t]; simpl; auto.
  destruct (N.ltb_spec c d), (N.ltb_spec d c); auto; try lia.
  assert (c = d) as -> by lia. rewrite N.eqb_refl. apply IH.
Qed.

Lemma str_leb_trans (s t r : str) :
  str_leb s t = true → str_leb t r = true → str_leb s r = true.
Proof.
  revert t r. induction s as [|c s IH]; intros [|d t] [|e r]; simpl; auto; try done.
  destruct (N.ltb_spec c d), (N.ltb_spec d e), (N.ltb_spec c e); auto; try lia;
    destruct (N.eqb_spec c d), (N.eqb_spec d e), (N.eqb_spec c e);
    auto; try lia; try done.
  apply IH.
Qed.

Lemma str_leb_antisym (s t : str) :
  str_leb s t = true → str_leb t s = true → s = t.
Proof.
  revert t. induction s as [|c s IH]; intros [|d t]; simpl; auto; try done.
  destruct (N.ltb_spec c d), (N.ltb_spec d c),
    (N.eqb_spec c d), (N.eqb_spec d c); try lia; try done.
  subst d. intros H1 H2. f_equal. by apply IH.
Qed.

Lemma digit_value (d : nat) : N.to_nat (digit d) - 48 = d.
Proof.
  unfold digit. rewrite N2Nat.inj_add, Nat2N.id.
  change (N.to_nat 48) with 48. lia.
Qed.

(** [decimal] has fuel for all the digits of its argument. *)
Lemma decimal_fuel_value (fuel n : nat) (acc : str) :
  n < fuel →
  ∃ ds, decimal_fuel fuel n acc = ds ++ acc ∧ digits_value ds = n.
Proof.
  revert n acc. induction fuel as [|fuel IH]; intros n acc Hn; [lia|].
  cbn [decimal_fuel]. pose proof (Nat.div_mod_eq n 10) as Hdm.
  destruct (Nat.eqb_spec (n / 10) 0) as [Hz|Hnz].
  - exists [digit (n mod 10)]. split; [done|].
    unfold digits_value. cbn [fold_left]. rewrite digit_value. lia.
  - assert (Hlt : n / 10 < fuel) by lia.
    destruct (IH (n / 10) (digit (n mod 10) :: acc) Hlt) as (ds & -> & Hds).
    exists (ds ++ [digit (n mod 10)]). split; [by rewrite <- app_assoc|].
    unfold digits_value in *. rewrite fold_left_app, Hds. cbn [fold_left].
    rewrite digit_value. lia.
Qed.

Lemma decimal_value (n : nat) : digits_value (decimal n) = n.
Proof.
  unfold decimal. destruct (decimal_fuel_value (S n) n []) as (ds & -> & Hds); [lia|].
  by rewrite app_nil_r.
Qed.

Global Instance str_le_total : Total str_le.
Proof. intros s t. apply str_leb_total. Qed.

Global Instance str_le_trans : Transitive str_le.
Proof. intros s t r. apply str_leb_trans. Qed.

Global Instance str_le_antisym : AntiSymm (=) str_le.
Proof. intros s t. apply str_leb_antisym. Qed.

Lemma sorted_StronglySorted (l : list str) : StronglySorted str_le (sorted l).
Proof. apply StronglySorted_merge_sort; apply _. Qed.

Lemma sorted_Permutation (l : list str) : sorted l ≡ₚ l.
Proof. apply merge_sort_Permutation. Qed.

End StrFacts.
(** ** The matcher *)

Section MatcherFacts.
Context {A : Type} `{Countable A}.
Variables a b : list A.

Lemma b2j_all_snoc (l : list A) (y : A) :
  b2j_all (l ++ [y])
  = <[y := default [] (b2j_all l !! y) ++ [length l]]> (b2j_all l).
Proof.
  unfold b2j_all. rewrite imap_app, fold_left_app. simpl.
  by rewrite Nat.add_0_r.
Qed.

(** The index lists of [b2j] point at occurrences of their key. *)
Lemma b2j_all_sound (l : list A) (x : A) (js : list nat) (j : nat) :
  b2j_all l !! x = Some js → j ∈ js → l !! j = Some x.
Proof.
  revert x js j. induction l as [|y l IH] using rev_ind; intros x js j Hx Hj.
  - unfold b2j_all in Hx. simpl in Hx. by rewrite lookup_empty in Hx.
  - rewrite b2j_all_snoc in Hx.
    destruct (decide (y = x)) as [->|Hne].
    + rewrite lookup_insert_eq in Hx. injection Hx as <-.
      apply elem_of_app in Hj as [Hj|Hj].
      * destruct (b2j_all l !! x) as [js0|] eqn:E; simpl in Hj.
        -- rewrite lookup_app_l; [by eapply IH|].
           eapply lookup_lt_Some, IH; eauto.
        -- by apply elem_of_nil in Hj.
      * apply list_elem_of_singleton in Hj as ->.
        by rewrite list_lookup_middle.
    + rewrite lookup_insert_ne in Hx by done.
      rewrite lookup_app_l; [by eapply IH|].
      eapply lookup_lt_Some, IH; eauto.
Qed.

Lemma b2j_sound (x : A) (js : list nat) (j : nat) :
  b2j b !! x = Some js → j ∈ js → b !! j = Some x.
Proof.
  unfold b2j. destruct (200 <=? length b).
  - intros Hx. apply map_lookup_filter_Some in Hx as [Hx _].
    by eapply b2j_all_sound.
  - by eapply b2j_all_sound.
Qed.

Lemma b2j_get_sound (i j : nat) :
  j ∈ b2j_get b (a !! i) → ∃ x, a !! i = Some x ∧ b !! j = Some x.
Proof.
  unfold b2j_get. destruct (a !! i) as [x|]; [|by intros ?%elem_of_nil].
  destruct (b2j b !! x) as [js|] eqn:E; simpl; [|by intros ?%elem_of_nil].
  intros Hj. exists x. split; [done|]. by eapply b2j_sound.
Qed.

(** Growing and joining valid matches. *)
Lemma valid_match_nil (i j : nat) :
  i ≤ length a → j ≤ length b → valid_match a b (i, j, 0).
Proof. intros. simpl. rewrite !take_0. repeat split; lia. Qed.

Lemma valid_match_snoc (i j k : nat) (x : A) :
  valid_match a b (i, j, k) →
  a !! (i + k) = Some x → b !! (j + k) = Some x →
  valid_match a b (i, j, S k).
Proof.
  intros (E & Ha & Hb) Hx Hy. simpl. split_and!.
  - rewrite (take_S_r _ _ x) by (by rewrite lookup_drop).
    rewrite (take_S_r (drop j b) _ x) by (by rewrite lookup_drop).
    by rewrite E.
  - apply lookup_lt_Some in Hx. lia.
  - apply lookup_lt_Some in Hy. lia.
Qed.

Lemma valid_match_cons (i j k : nat) (x : A) :
  valid_match a b (S i, S j, k) →
  a !! i = Some x → b !! j = Some x →
  valid_match a b (i, j, S k).
Proof.
  intros (E & Ha & Hb) Hx Hy. simpl. split_and!; [|lia..].
  rewrite (drop_S _ x) by done. rewrite (drop_S b x) by done.
  simpl. by rewrite E.
Qed.

Lemma valid_match_join (i j k1 k2 : nat) :
  valid_match a b (i, j, k1) → valid_match a b (i + k1, j + k1, k2) →
  valid_match a b (i, j, k1 + k2).
Proof.
  intros (E1 & Ha1 & Hb1) (E2 & Ha2 & Hb2). simpl. split_and!; [|lia..].
  rewrite <- !drop_drop in E2.
  rewrite <- (take_drop k1 (drop i a)) at 1.
  rewrite <- (take_drop k1 (drop j b)) at 1.
  rewrite !take_app_add'; [by rewrite E1, E2|..];
    rewrite length_take, length_drop; lia.
Qed.

(** *** [find_longest_match] returns a match inside its window *)

Section Window.
Variables alo ahi blo bhi : nat.
Hypothesis Hwf : wf_region a b (alo, ahi, blo, bhi).

Local Abbreviation fits := (DiffSpec.fits a b (alo, ahi, blo, bhi)) (only parsing).
Local Abbreviation ends_before := (DiffSpec.ends_before a b (alo, ahi, blo, bhi)) (only parsing).

Lemma fits_start : fits (alo, blo, 0).
Proof.
  destruct Hwf as (?&?&?&?). split; [simpl; lia|].
  apply valid_match_nil; lia.
Qed.

Lemma j2lenget_pred_fits (i j : nat) (j2len : gmap nat nat) :
  alo ≤ i → i ≤ ahi → blo ≤ j → j ≤ bhi →
  (∀ j' k', j2len !! j' = Some k' → ends_before i j' k') →
  let k0 := j2lenget_pred j2len j in
  k0 ≤ i ∧ k0 ≤ j ∧ fits (i - k0, j - k0, k0).
Proof.
  intros Hi1 Hi2 Hj1 Hj2 Hinv. destruct Hwf as (?&?&?&?).
  assert (Hnil : 0 ≤ i ∧ 0 ≤ j ∧ fits (i - 0, j - 0, 0)).
  { split_and!; [lia..|]. rewrite !Nat.sub_0_r. split; [simpl; lia|].
    apply valid_match_nil; lia. }
  destruct j as [|j']; simpl; [exact Hnil|].
  destruct (j2len !! j') as [k'|] eqn:E; simpl; [|exact Hnil].
  destruct (Hinv _ _ E) as (?&?&?&?).
  split_and!; [lia..|done].
Qed.

Lemma scan_row_fits (i : nat) (j2len : gmap nat nat) (js : list nat)
    (newj2len : gmap nat nat) (best : Match) :
  alo ≤ i → i < ahi →
  (∀ j, j ∈ js → ∃ x, a !! i = Some x ∧ b !! j = Some x) →
  (∀ j k, j2len !! j = Some k → ends_before i j k) →
  (∀ j k, newj2len !! j = Some k → ends_before (S i) j k) →
  fits best →
  (∀ j k, (scan_row i blo bhi j2len js newj2len best).1 !! j = Some k →
          ends_before (S i) j k)
  ∧ fits (scan_row i blo bhi j2len js newj2len best).2.
Proof.
  intros Hi1 Hi2. revert newj2len best.
  induction js as [|j js IH]; intros newj2len best Hjs Hold Hnew Hbest.
  { done. }
  cbn [scan_row].
  assert (Hjs' : ∀ j0, j0 ∈ js → ∃ x, a !! i = Some x ∧ b !! j0 = Some x).
  { intros j0 Hj0. apply Hjs. by right. }
  destruct (Nat.ltb_spec j blo) as [Hlo|Hlo]; [by apply IH|].
  destruct (Nat.leb_spec bhi j) as [Hhi|Hhi]; [done|].
  destruct (j2lenget_pred_fits i j j2len) as (Hk1 & Hk2 & [Hreg Hval]);
    [lia..|done|].
  set (k0 := j2lenget_pred j2len j) in *.
  destruct (Hjs j) as (x & Hax & Hbx); [by left|].
  assert (Hblock : fits (i + 1 - (k0 + 1), j + 1 - (k0 + 1), k0 + 1)).
  { replace (i + 1 - (k0 + 1)) with (i - k0) by lia.
    replace (j + 1 - (k0 + 1)) with (j - k0) by lia.
    replace (k0 + 1) with (S k0) by lia.
    split.
    - simpl in Hreg |- *. lia.
    - apply (valid_match_snoc _ _ _ x); [done|..].
      + by replace (i - k0 + k0) with i by lia.
      + by replace (j - k0 + k0) with j by lia. }
  apply IH; [done|done|..].
  - intros j0 k. destruct (decide (j = j0)) as [<-|Hne].
    + rewrite lookup_insert_eq. intros [= <-].
      split_and!; [lia..|].
      replace (S i - (k0 + 1)) with (i + 1 - (k0 + 1)) by lia.
      by replace (S j - (k0 + 1)) with (j + 1 - (k0 + 1)) by lia.
    + rewrite lookup_insert_ne by done. apply Hnew.
  - destruct best as [[bi bj] bsize].
    by destruct (bsize <? k0 + 1).
Qed.

Lemma scan_rows_from_fits (n i : nat) (j2len : gmap nat nat) (best : Match) :
  alo ≤ i → i + n ≤ ahi →
  (∀ j k, j2len !! j = Some k → ends_before i j k) →
  fits best →
  fits (fold_left
          (fun '(j2len, best) i =>
             scan_row i blo bhi j2len (b2j_get b (a !! i)) ∅ best)
          (seq i n) (j2len, best)).2.
Proof.
  revert i j2len best. induction n as [|n IH]; intros i j2len best Hi1 Hi2 Hold Hbest.
  { done. }
  cbn [seq fold_left].
  destruct (scan_row_fits i j2len (b2j_get b (a !! i)) ∅ best) as [Hnew Hbest'];
    [lia|lia|apply b2j_get_sound|done| |done|].
  { intros j k. by rewrite lookup_empty. }
  destruct (scan_row i blo bhi j2len (b2j_get b (a !! i)) ∅ best) as [new best'].
  apply IH; [lia|lia|done|done].
Qed.

Lemma scan_rows_fits : fits (scan_rows a b alo ahi blo bhi).
Proof.
  unfold scan_rows. destruct Hwf as (?&?&?&?).
  apply scan_rows_from_fits; [lia|lia| |apply fits_start].
  intros j k. by rewrite lookup_empty.
Qed.

Lemma junk_test_Some (junk : bool) (o : option A) :
  junk_test junk o = true → is_Some o.
Proof. destruct o; [eauto|done]. Qed.

Lemma extend_back_fits (junk : bool) (besti bestj bestsize : nat) :
  fits (besti, bestj, bestsize) →
  fits (extend_back a b junk alo blo besti bestj bestsize).
Proof.
  revert bestj bestsize. induction besti as [|i' IH]; intros bestj bestsize Hfit.
  { done. }
  destruct bestj as [|j']; [done|]. cbn [extend_back].
  destruct (_ && _) eqn:Hc; [|done].
  apply andb_prop in Hc as [Hc Heq]. apply andb_prop in Hc as [Hc Hjunk].
  apply andb_prop in Hc as [Hlo1 Hlo2].
  apply Nat.ltb_lt in Hlo1, Hlo2. apply bool_decide_eq_true in Heq.
  apply junk_test_Some in Hjunk as [x Hx].
  apply IH. destruct Hfit as [Hreg Hval]. split.
  - simpl in Hreg |- *. lia.
  - apply (valid_match_cons _ _ _ x); [done| |done]. by rewrite Heq.
Qed.

Lemma extend_fwd_fits (fuel : nat) (junk : bool) (besti bestj bestsize : nat) :
  fits (besti, bestj, bestsize) →
  fits (besti, bestj, extend_fwd a b fuel junk ahi bhi besti bestj bestsize).
Proof.
  revert bestsize. induction fuel as [|fuel IH]; intros bestsize Hfit.
  { done. }
  cbn [extend_fwd]. destruct (_ && _) eqn:Hc; [|done].
  apply andb_prop in Hc as [Hc Heq]. apply andb_prop in Hc as [Hc Hjunk].
  apply andb_prop in Hc as [Hhi1 Hhi2].
  apply Nat.ltb_lt in Hhi1, Hhi2. apply bool_decide_eq_true in Heq.
  apply junk_test_Some in Hjunk as [x Hx].
  apply IH. destruct Hfit as [Hreg Hval]. split.
  - simpl in Hreg |- *. lia.
  - apply (valid_match_snoc _ _ _ x); [done| |done]. by rewrite Heq.
Qed.

(** The forward loop runs until its condition fails: the fuel
    [ahi - (besti + bestsize)] is never what stops it. *)
Lemma extend_fwd_stops (fuel : nat) (junk : bool) (besti bestj bestsize : nat) :
  ahi - (besti + bestsize) ≤ fuel →
  let k := extend_fwd a b fuel junk ahi bhi besti bestj bestsize in
  (besti + k <? ahi) && (bestj + k <? bhi)
  && junk_test junk (b !! (bestj + k))
  && bool_decide (a !! (besti + k) = b !! (bestj + k)) = false.
Proof.
  revert bestsize. induction fuel as [|fuel IH]; intros bestsize Hfuel.
  - cbn [extend_fwd]. destruct (Nat.ltb_spec (besti + bestsize) ahi); [lia|done].
  - cbn [extend_fwd].
    destruct ((besti + bestsize <? ahi) && (bestj + bestsize <? bhi)
              && junk_test junk (b !! (bestj + bestsize))
              && bool_decide (a !! (besti + bestsize) = b !! (bestj + bestsize)))
      eqn:Hc; [|exact Hc].
    apply IH.
    do 3 apply andb_prop in Hc as [Hc _]. apply Nat.ltb_lt in Hc. lia.
Qed.

Lemma extend_fits (junk : bool) (m : Match) :
  fits m → fits (extend a b junk alo ahi blo bhi m).
Proof.
  intros Hfit. destruct m as [[besti bestj] bestsize]. unfold extend.
  pose proof (extend_back_fits junk besti bestj bestsize Hfit) as Hback.
  destruct (extend_back a b junk alo blo besti bestj bestsize) as [[i j] k].
  by apply extend_fwd_fits.
Qed.

Lemma find_longest_match_fits : fits (find_longest_match a b alo ahi blo bhi).
Proof. unfold find_longest_match. do 2 apply extend_fits. apply scan_rows_fits. Qed.
End Window.

(** *** Chains of blocks *)

Lemma chain_bounds (alo blo : nat) (l : list Match) (ahi bhi : nat) :
  chain a b alo blo l ahi bhi → alo ≤ ahi ∧ blo ≤ bhi.
Proof.
  revert alo blo. induction l as [|[[i j] k] l IH]; intros alo blo; simpl; [done|].
  intros (?&?&?&?&Hl). apply IH in Hl. lia.
Qed.

Lemma chain_app_cons (alo blo : nat) (l : list Match) (i j k : nat)
    (r : list Match) (ahi bhi : nat) :
  chain a b alo blo l i j → 0 < k → valid_match a b (i, j, k) →
  chain a b (i + k) (j + k) r ahi bhi →
  chain a b alo blo (l ++ (i, j, k) :: r) ahi bhi.
Proof.
  revert alo blo. induction l as [|[[i1 j1] k1] l IH]; intros alo blo Hl Hk Hv Hr.
  - cbn [chain app] in Hl |- *.
    refine (conj _ (conj _ (conj _ (conj _ _)))); [lia|lia|done..].
  - cbn [chain app] in Hl |- *. destruct Hl as (?&?&?&?&Hl).
    refine (conj _ (conj _ (conj _ (conj _ _)))); [done..|].
    by apply IH.
Qed.

Lemma chain_sorted (alo blo : nat) (l : list Match) (ahi bhi : nat) :
  chain a b alo blo l ahi bhi → Sorted match_le l.
Proof.
  revert alo blo. induction l as [|[[i j] k] l IH]; intros alo blo; [constructor|].
  simpl. intros (_&_&Hk&_&Hl). constructor; [by eapply IH|].
  destruct l as [|[[i2 j2] k2] l]; constructor.
  simpl in Hl. destruct Hl as (Hi&_). unfold match_le, match_leb.
  apply orb_true_intro. left. apply Nat.ltb_lt. lia.
Qed.

(** *** The work list of [get_matching_blocks] *)

Lemma matching_loop_chain (fuel : nat) (queue : list region) (blocks : list Match) :
  region_measure queue < fuel →
  Forall (wf_region a b) queue →
  ∃ chains res,
    matching_loop a b fuel queue blocks = Some res
    ∧ res ≡ₚ blocks ++ concat chains
    ∧ Forall2 (chain_in a b) queue chains.
Proof.
  revert queue blocks. induction fuel as [|fuel IH]; intros queue blocks Hm Hwf.
  { lia. }
  destruct queue as [|[[[alo ahi] blo] bhi] rest].
  { exists [], blocks. simpl. rewrite app_nil_r. by split_and!. }
  apply Forall_cons in Hwf as [Hr Hrest].
  cbn [matching_loop].
  pose proof (find_longest_match_fits alo ahi blo bhi Hr) as [Hreg Hval].
  destruct (find_longest_match a b alo ahi blo bhi) as [[i j] k].
  change (2 * (ahi - alo) + 1 + region_measure rest < S fuel) in Hm.
  cbn [in_region] in Hreg. destruct Hr as (Hr1 & Hr2 & Hr3 & Hr4).
  destruct Hreg as (Hg1 & Hg2 & Hg3 & Hg4).
  pose proof Hval as (_ & Hv1 & Hv2).
  destruct (Nat.eqb_spec k 0) as [->|Hk].
  - destruct (IH rest blocks) as (chains & res & E & Hp & Hc); [lia|done|].
    exists ([] :: chains), res. split_and!; [done|done|].
    constructor; [simpl; lia|done].
  - set (q1 := if (alo <? i) && (blo <? j) then (alo, i, blo, j) :: rest else rest).
    set (q2 := if (i + k <? ahi) && (j + k <? bhi)
               then (i + k, ahi, j + k, bhi) :: q1 else q1).
    assert (HwfL : wf_region a b (alo, i, blo, j)) by (simpl; lia).
    assert (HwfR : wf_region a b (i + k, ahi, j + k, bhi)) by (simpl; lia).
    assert (Hwf2 : Forall (wf_region a b) q2).
    { unfold q2, q1. repeat case_match; repeat apply Forall_cons_2; done. }
    assert (Hm2 : region_measure q2 < fuel).
    { unfold q2, q1, region_measure in *. repeat case_match; simpl in *; lia. }
    destruct (IH q2 (blocks ++ [(i, j, k)]) Hm2 Hwf2) as (chains & res & E & Hp & Hc).
    assert (HcL0 : chain a b alo blo [] i j) by (simpl; lia).
    assert (HcR0 : chain a b (i + k) (j + k) [] ahi bhi) by (simpl; lia).
    unfold q2, q1 in Hc.
    destruct ((i + k <? ahi) && (j + k <? bhi)), ((alo <? i) && (blo <? j)).
    + apply Forall2_cons_inv_l in Hc as (cR & chains1 & HcR & Hc & ->).
      apply Forall2_cons_inv_l in Hc as (cL & chains2 & HcL & Hc & ->).
      exists ((cL ++ (i, j, k) :: cR) :: chains2), res. split_and!; [done| |].
      * rewrite Hp. cbn [concat]. solve_Permutation.
      * constructor; [|done]. apply chain_app_cons; [done|lia|done|done].
    + apply Forall2_cons_inv_l in Hc as (cR & chains1 & HcR & Hc & ->).
      exists (([] ++ (i, j, k) :: cR) :: chains1), res. split_and!; [done| |].
      * rewrite Hp. cbn [concat]. solve_Permutation.
      * constructor; [|done]. apply chain_app_cons; [done|lia|done|done].
    + apply Forall2_cons_inv_l in Hc as (cL & chains2 & HcL & Hc & ->).
      exists ((cL ++ (i, j, k) :: []) :: chains2), res. split_and!; [done| |].
      * rewrite Hp. cbn [concat]. solve_Permutation.
      * constructor; [|done]. apply chain_app_cons; [done|lia|done|done].
    + exists (([] ++ (i, j, k) :: []) :: chains), res. split_and!; [done| |].
      * rewrite Hp. cbn [concat]. solve_Permutation.
      * constructor; [|done]. apply chain_app_cons; [done|lia|done|done].
Qed.

(** *** Sorting and collapsing the blocks *)

Lemma match_le_spec (x y : Match) :
  match_le x y ↔
  x.1.1 < y.1.1 ∨ (x.1.1 = y.1.1 ∧ (x.1.2 < y.1.2 ∨ (x.1.2 = y.1.2 ∧ x.2 ≤ y.2))).
Proof.
  destruct x as [[i1 j1] k1], y as [[i2 j2] k2]. unfold match_le, match_leb. simpl.
  rewrite !orb_true_iff, !andb_true_iff, !orb_true_iff, !andb_true_iff,
    !Nat.ltb_lt, !Nat.eqb_eq, Nat.leb_le. done.
Qed.

Global Instance match_le_total : Total match_le.
Proof. intros x y. rewrite !match_le_spec. lia. Qed.

Global Instance match_le_trans : Transitive match_le.
Proof. intros x y z. rewrite !match_le_spec. lia. Qed.

Global Instance match_le_antisym : AntiSymm (=) match_le.
Proof.
  intros [[i1 j1] k1] [[i2 j2] k2]. rewrite !match_le_spec. simpl.
  intros ? ?. repeat f_equal; lia.
Qed.

Lemma sort_chain (res l : list Match) (ahi bhi : nat) :
  res ≡ₚ l → chain a b 0 0 l ahi bhi → merge_sort match_le res = l.
Proof.
  intros Hp Hl. apply (Sorted_unique match_le).
  - apply Sorted_merge_sort, _.
  - by eapply chain_sorted.
  - by rewrite merge_sort_Permutation.
Qed.

(** The state of the collapsing loop: the block [(i1, j1, k1)] being
    extended and the blocks put aside; [k1 = 0] only for the dummy the
    loop starts with. *)
Lemma collapse_loop_chain (rest : list Match) (i1 j1 k1 : nat) (acc : list Match)
    (ahi bhi : nat) :
  (k1 = 0 ∧ acc = [] ∧ i1 = 0 ∧ j1 = 0)
  ∨ (0 < k1 ∧ chain a b 0 0 acc i1 j1 ∧ valid_match a b (i1, j1, k1)) →
  chain a b (i1 + k1) (j1 + k1) rest ahi bhi →
  let '((i, j, k), acc') := fold_left collapse_step rest ((i1, j1, k1), acc) in
  chain a b 0 0 (if k =? 0 then acc' else acc' ++ [(i, j, k)]) ahi bhi.
Proof.
  revert i1 j1 k1 acc. induction rest as [|[[i2 j2] k2] rest IH];
    intros i1 j1 k1 acc Hst Hrest.
  - cbn [fold_left]. cbn [chain] in Hrest.
    destruct Hst as [(-> & -> & -> & ->)|(Hk & Hacc & Hv)].
    + simpl. lia.
    + destruct (Nat.eqb_spec k1 0); [lia|].
      apply chain_app_cons; [done..|]. simpl. lia.
  - cbn [fold_left collapse_step].
    cbn [chain] in Hrest. destruct Hrest as (Hi & Hj & Hk2 & Hv2 & Hrest).
    destruct ((i1 + k1 =? i2) && (j1 + k1 =? j2)) eqn:Hadj.
    + apply andb_prop in Hadj as [E1%Nat.eqb_eq E2%Nat.eqb_eq]. subst i2 j2.
      apply IH.
      * right. destruct Hst as [(-> & -> & -> & ->)|(Hk & Hacc & Hv)].
        -- split_and!; [lia|simpl; lia|done].
        -- split_and!; [lia|done|]. by apply valid_match_join.
      * by rewrite !Nat.add_assoc.
    + apply IH; [|done]. right.
      destruct Hst as [(-> & -> & -> & ->)|(Hk & Hacc & Hv)].
      * split_and!; [done|simpl; lia|done].
      * destruct (Nat.eqb_spec k1 0); [lia|].
        split_and!; [done| |done].
        apply chain_app_cons; [done..|]. simpl. lia.
Qed.

Lemma collapse_chain (l : list Match) :
  chain a b 0 0 l (length a) (length b) →
  ∃ l', collapse a b l = l' ++ [(length a, length b, 0)]
        ∧ chain a b 0 0 l' (length a) (length b).
Proof.
  intros Hl. unfold collapse.
  pose proof (collapse_loop_chain l 0 0 0 [] (length a) (length b)) as Hc.
  destruct (fold_left collapse_step l (0, 0, 0, [])) as [[[i j] k] acc].
  eexists. split; [done|]. apply Hc; [left; done|done].
Qed.

(** [get_matching_blocks] finishes within its fuel, with a chain that
    spans both sequences followed by the sentinel. *)
Lemma get_matching_blocks_chain :
  ∃ l, get_matching_blocks a b = Some (l ++ [(length a, length b, 0)])
       ∧ chain a b 0 0 l (length a) (length b).
Proof.
  unfold get_matching_blocks.
  destruct (matching_loop_chain (2 * length a + 2) [(0, length a, 0, length b)] [])
    as (chains & res & -> & Hp & Hc).
  { unfold region_measure. cbn [map sum_list sum_list_with id]. lia. }
  { apply Forall_singleton. simpl. lia. }
  apply Forall2_cons_inv_l in Hc as (c & chains' & Hc & Hnil & ->).
  apply Forall2_nil_inv_l in Hnil as ->.
  simpl in Hp. rewrite app_nil_r in Hp. cbn [chain_in] in Hc.
  simpl. rewrite (sort_chain res c _ _ Hp Hc).
  destruct (collapse_chain c Hc) as (l' & -> & Hl'). by exists l'.
Qed.

(** *** Opcodes *)

Lemma opcodes_fold (blocks : list Match) (i j : nat) (answer : list opcode) :
  snd (fold_left opcode_step blocks (i, j, answer)) = answer ++ ops i j blocks.
Proof.
  revert i j answer. induction blocks as [|[[ai bj] size] blocks IH];
    intros i j answer.
  { simpl. by rewrite app_nil_r. }
  cbn [fold_left opcode_step ops].
  destruct ((i <? ai) && (j <? bj)), (i <? ai), (j <? bj), (size =? 0);
    rewrite IH; by rewrite <- ?app_assoc.
Qed.

Lemma opcodes_of_ops (blocks : list Match) : opcodes_of blocks = ops 0 0 blocks.
Proof. unfold opcodes_of. by rewrite opcodes_fold. Qed.

(** When a chain with its sentinel yields only [equal] opcodes, the
    blocks tile both sequences. *)
Lemma ops_all_equal (l : list Match) (i j : nat) :
  chain a b i j l (length a) (length b) →
  all_equal (ops i j (l ++ [(length a, length b, 0)])) →
  drop i a = drop j b.
Proof.
  revert i j. induction l as [|[[ai bj] size] l IH]; intros i j Hl Heq.
  - simpl in Hl. cbn [app ops] in Heq.
    destruct (Nat.ltb_spec i (length a)), (Nat.ltb_spec j (length b));
      simpl in Heq;
      try (apply Forall_cons in Heq as [Habs _]; done).
    by rewrite !drop_ge by lia.
  - cbn [chain] in Hl. destruct Hl as (Hi & Hj & Hk & Hv & Hl).
    cbn [app ops] in Heq.
    destruct (Nat.ltb_spec i ai), (Nat.ltb_spec j bj);
      simpl in Heq;
      try (apply Forall_cons in Heq as [Habs _]; done).
    assert (i = ai) as -> by lia. assert (j = bj) as -> by lia.
    destruct (Nat.eqb_spec size 0); [lia|].
    simpl in Heq. apply Forall_cons in Heq as [_ Heq].
    apply IH in Heq; [|done].
    destruct Hv as (Hv & _ & _).
    rewrite <- (take_drop size (drop ai a)), <- (take_drop size (drop bj b)).
    rewrite !drop_drop. by rewrite Hv, Heq.
Qed.

Lemma get_opcodes_not_all_equal :
  a ≠ b →
  ∃ codes, get_opcodes a b = Some codes ∧ ¬ all_equal codes.
Proof.
  intros Hne. unfold get_opcodes.
  destruct get_matching_blocks_chain as (l & -> & Hl).
  eexists. split; [done|]. rewrite opcodes_of_ops. intros Heq.
  apply ops_all_equal in Heq; [|done]. by rewrite !drop_0 in Heq.
Qed.
End MatcherFacts.

(** ** Grouping and the unified diff *)

Section GroupFacts.
Context {A : Type} `{Countable A}.


Lemma not_all_equal_Exists (codes : list opcode) :
  ¬ all_equal codes → Exists changed codes.
Proof.
  intros Hn. apply not_Forall_Exists in Hn; [|apply _].
  eapply Exists_impl; [exact Hn|]. by intros c Hc.
Qed.

Lemma fix_first_changed (n : nat) (codes : list opcode) :
  Exists changed codes → Exists changed (fix_first n codes).
Proof.
  destruct codes as [|[[[[t i1] i2] j1] j2] rest]; [done|].
  destruct t; simpl; try done.
  intros [Hc|Hc]%Exists_cons; [done|]. by right.
Qed.

Lemma fix_last_changed (n : nat) (codes : list opcode) :
  Exists changed codes → Exists changed (fix_last n codes).
Proof.
  induction codes as [|[[[[t i1] i2] j1] j2] rest IH]; [done|].
  intros [Hc|Hc]%Exists_cons.
  - destruct t; try done; destruct rest; by left.
  - specialize (IH Hc).
    destruct t; destruct rest as [|c rest]; try (by apply Exists_nil in Hc);
      cbn [fix_last]; by right.
Qed.

Lemma group_fold_changed (n : nat) (codes : list opcode)
    (groups : list (list opcode)) (group : list opcode) :
  Exists changed codes ∨ groups ≠ [] ∨ Exists changed group →
  let '(groups', group') := fold_left (group_step n) codes (groups, group) in
  groups' ≠ [] ∨ Exists changed group'.
Proof.
  revert groups group. induction codes as [|c codes IH]; intros groups group Hpre.
  { simpl. destruct Hpre as [Hc|Hpre]; [by apply Exists_nil in Hc|done]. }
  cbn [fold_left]. destruct c as [[[[t i1] i2] j1] j2]. cbn [group_step].
  destruct (is_equal t && (n + n <? i2 - i1)) eqn:Hcut.
  - apply IH. right. left. by destruct groups.
  - apply IH. destruct Hpre as [[Hc|Hc]%Exists_cons|[Hg|Hg]].
    + right. right. apply Exists_app. right. by left.
    + by left.
    + right. by left.
    + right. right. apply Exists_app. by left.
Qed.

Lemma group_codes_nonempty (n : nat) (codes : list opcode) :
  Exists changed codes → group_codes n codes ≠ [].
Proof.
  intros Hc. unfold group_codes.
  assert (Hfix : Exists changed
            (fix_last n (fix_first n
               match codes with [] => [(Equal, 0, 1, 0, 1)] | _ => codes end))).
  { apply fix_last_changed, fix_first_changed.
    destruct codes; [by apply Exists_nil in Hc|done]. }
  pose proof (group_fold_changed n _ [] [] (or_introl Hfix)) as Hfold.
  destruct (fold_left (group_step n) _ ([], [])) as [groups group].
  destruct Hfold as [Hg|Hg].
  - destruct group as [|[[[[[] ?] ?] ?] ?] [|? ?]]; try done; by destruct groups.
  - destruct group as [|[[[[t ?] ?] ?] ?] [|? ?]].
    + by apply Exists_nil in Hg.
    + apply Exists_cons in Hg as [Hg|Hg]; [|by apply Exists_nil in Hg].
      destruct t; try done; by destruct groups.
    + destruct t; by destruct groups.
Qed.

Lemma get_grouped_opcodes_total (a b : list A) (n : nat) :
  is_Some (get_grouped_opcodes a b n).
Proof.
  unfold get_grouped_opcodes, get_opcodes.
  destruct (get_matching_blocks_chain a b) as (l & -> & _). by eexists.
Qed.

Lemma get_grouped_opcodes_nonempty (a b : list A) (n : nat) :
  a ≠ b →
  ∃ groups, get_grouped_opcodes a b n = Some groups ∧ groups ≠ [].
Proof.
  intros Hne. unfold get_grouped_opcodes.
  destruct (get_opcodes_not_all_equal a b Hne) as (codes & -> & Hcodes).
  eexists. split; [done|].
  by apply group_codes_nonempty, not_all_equal_Exists.
Qed.
End GroupFacts.

Section UnifiedDiffFacts.
Variables a b : list str.
Variables fromfile tofile fromfiledate tofiledate : str.
Variable n : nat.
Variable lineterm : str.

(** The diff is always produced. *)
Lemma unified_diff_total :
  is_Some (unified_diff a b fromfile tofile fromfiledate tofiledate n lineterm).
Proof.
  unfold unified_diff.
  destruct (get_grouped_opcodes_total a b n) as [groups ->]. by eexists.
Qed.

(** Two different sequences of lines have a non-empty diff. *)
Lemma unified_diff_nonempty :
  a ≠ b →
  ∃ d, unified_diff a b fromfile tofile fromfiledate tofiledate n lineterm = Some d
       ∧ d ≠ [].
Proof.
  intros Hne. unfold unified_diff.
  destruct (get_grouped_opcodes_nonempty a b n Hne) as (groups & -> & Hg).
  eexists. split; [done|]. by destruct groups.
Qed.
End UnifiedDiffFacts.

(** ** Computations that only log *)

Section Emits.

Lemma add_log_nil (w : World) : add_log w [] = w.
Proof. destruct w. unfold add_log. simpl. by rewrite app_nil_r. Qed.

Lemma add_log_app (w : World) (r1 r2 : list LogRecord) :
  add_log (add_log w r1) r2 = add_log w (r1 ++ r2).
Proof. unfold add_log. simpl. by rewrite app_assoc. Qed.

Lemma emits_ret {A} (x : A) : emits (mret x) x [].
Proof. intros w. by rewrite add_log_nil. Qed.

Lemma emits_logging (l : level) (m : str) : emits (logging l m) tt [(l, m)].
Proof. by intros w. Qed.

Lemma emits_bind {A B} (m : M A) (f : A → M B) (x : A) (y : B)
    (r1 r2 : list LogRecord) :
  emits m x r1 → emits (f x) y r2 → emits (m ≫= f) y (r1 ++ r2).
Proof.
  intros Hm Hf w. unfold mbind, M_bind, bind. rewrite Hm, Hf.
  by rewrite add_log_app.
Qed.

Lemma emits_eq {A} (m : M A) (x : A) (r r' : list LogRecord) :
  emits m x r → r = r' → emits m x r'.
Proof. by intros Hm <-. Qed.

Lemma emits_when (c : bool) (body : M unit) (r : list LogRecord) :
  emits body tt r → emits (when c body) tt (if c then r else []).
Proof. destruct c; [done|]. intros _. apply emits_ret. Qed.

Lemma emits_for_each {A} (l : list A) (body : A → M unit)
    (f : A → list LogRecord) :
  (∀ x, emits (body x) tt (f x)) →
  emits (for_each l body) tt (concat (map f l)).
Proof.
  intros Hbody. induction l as [|x l IH]; [apply emits_ret|].
  cbn [for_each map concat]. by eapply emits_bind.
Qed.

Lemma emits_of_option {A} (x : A) : emits (of_option (Some x)) x [].
Proof. intros w. by rewrite add_log_nil. Qed.

Lemma concat_map_if {A B} (p : A → bool) (f : A → B) (l : list A) :
  concat (map (fun x => if p x then [f x] else []) l)
  = map f (filter (fun x => p x = true) l).
Proof.
  induction l as [|x l IH]; [done|]. cbn [map concat].
  rewrite filter_cons. destruct (p x) eqn:E.
  - rewrite decide_True by done. simpl. by rewrite IH.
  - rewrite decide_False by done. simpl. exact IH.
Qed.

Lemma concat_map_singleton {A B} (f : A → B) (l : list A) :
  concat (map (fun x => [f x]) l) = map f l.
Proof. induction l as [|x l IH]; [done|]. simpl. by rewrite IH. Qed.

End Emits.

(** ** The change report *)

Section Report.

Lemma diff_of_total (previous current : str) : is_Some (diff_of previous current).
Proof. apply unified_diff_total. Qed.

Lemma diff_of_nonempty (previous current : str) :
  previous ≠ current →
  ∃ d, diff_of previous current = Some d ∧ d ≠ [].
Proof.
  intros Hne. apply unified_diff_nonempty.
  intros E. by apply Hne, splitlines_keepends_inj.
Qed.

Lemma compare_total (previous current : str) : is_Some (compare previous current).
Proof.
  unfold compare. case_bool_decide; [by eexists|].
  destruct (diff_of_total previous current) as [d ->]. by eexists.
Qed.

Lemma emits_listing (heading sign : string) (s : gset str) :
  emits
    (when (bool_decide (s ≠ ∅))
       (logging INFO (u heading);;
        for_each (sorted (elements s))
          (fun route => when (truthy (strip route))
                          (logging INFO (u sign ++ route)))))
    tt (listing heading sign s).
Proof.
  eapply emits_eq.
  - apply emits_when. eapply emits_bind; [apply emits_logging|].
    apply emits_for_each with
      (f := fun route => if truthy (strip route)
                         then [(INFO, u sign ++ route)] else []).
    intros route. eapply emits_eq; [apply emits_when, emits_logging|done].
  - unfold listing. case_bool_decide; [|done].
    cbn [app]. f_equal.
    apply (concat_map_if (fun route => truthy (strip route))
             (fun route => (INFO, u sign ++ route))).
Qed.

(** What [compare_and_log_changes] writes is the rendering of the report. *)
Lemma compare_and_log_changes_emits (previous current : str) (r : ChangeReport) :
  compare previous current = Some r →
  emits (compare_and_log_changes previous current) tt (render r).
Proof.
  unfold compare, compare_and_log_changes. case_bool_decide as Heq.
  { intros [= <-]. apply emits_logging. }
  destruct (diff_of previous current) as [d|] eqn:Hd; [|done].
  simpl. intros [= <-].
  eapply emits_eq.
  - eapply emits_bind; [apply emits_logging|].
    eapply emits_bind; [apply emits_logging|].
    eapply emits_bind; [apply emits_of_option|].
    eapply emits_bind.
    { apply emits_when. eapply emits_bind; [apply emits_logging|].
      apply emits_for_each with (f := fun line => [(INFO, rstrip line)]).
      intros line. apply emits_logging. }
    eapply emits_bind; [apply emits_logging|].
    eapply emits_bind; [apply (emits_listing "Added routes:" "  + ")|].
    eapply emits_bind; [apply (emits_listing "Removed routes:" "  - ")|].
    apply emits_logging.
  - unfold render. cbn [unchanged diffLines added removed app].
    do 2 f_equal. rewrite concat_map_singleton.
    case_bool_decide; by rewrite <- ?app_assoc.
Qed.

End Report.

(** ** Blank lines and the listed routes *)

Section Listed.

Lemma lstrip_nil (s : str) : lstrip s = [] ↔ blank s.
Proof.
  unfold blank. induction s as [|c s IH]; simpl.
  - split; [constructor|done].
  - destruct (is_space c) eqn:E.
    + rewrite IH. split; [by constructor|by intros [_ ?]%Forall_cons].
    + split; [done|]. intros [? _]%Forall_cons. congruence.
Qed.

Lemma blank_lstrip (s : str) : blank (lstrip s) ↔ blank s.
Proof.
  unfold blank. induction s as [|c s IH]; simpl; [done|].
  destruct (is_space c) eqn:E; [|done].
  rewrite IH. split; [by constructor|by intros [_ ?]%Forall_cons].
Qed.

Lemma blank_reverse (s : str) : blank (reverse s) ↔ blank s.
Proof. unfold blank. by rewrite Forall_reverse. Qed.

(** [s.strip()] is empty exactly for blank and whitespace-only [s]. *)
Lemma strip_nil (s : str) : strip s = [] ↔ blank s.
Proof.
  unfold strip, rstrip.
  rewrite <- (blank_lstrip s), <- (blank_reverse (lstrip s)), <- lstrip_nil.
  split; [|by intros ->].
  intros E. apply (f_equal reverse) in E. by rewrite reverse_involutive in E.
Qed.

Lemma truthy_strip (s : str) : truthy (strip s) = true ↔ ¬ blank s.
Proof.
  rewrite <- strip_nil. by destruct (strip s).
Qed.

Lemma elem_of_listed (s : gset str) (route : str) :
  route ∈ listed s ↔ route ∈ s ∧ ¬ blank route.
Proof.
  unfold listed. rewrite list_elem_of_filter, truthy_strip.
  rewrite (sorted_Permutation (elements s)), elem_of_elements. tauto.
Qed.

Lemma StronglySorted_filter {A} (R : relation A) (P : A → Prop)
    `{∀ x, Decision (P x)} (l : list A) :
  StronglySorted R l → StronglySorted R (filter P l).
Proof.
  induction 1 as [|x l Hl IH Hx]; [constructor|].
  rewrite filter_cons. case_decide; [|done].
  constructor; [done|]. apply Forall_forall. intros y Hy.
  apply list_elem_of_filter in Hy as [_ Hy].
  by eapply Forall_forall in Hx.
Qed.

Lemma listed_empty : listed ∅ = [].
Proof. unfold listed. by rewrite elements_empty. Qed.

Lemma listed_sorted (s : gset str) : Sorted str_le (listed s).
Proof.
  apply StronglySorted_Sorted, StronglySorted_filter, sorted_StronglySorted.
Qed.

Lemma listed_nonblank (s : gset str) : Forall (fun route => ¬ blank route) (listed s).
Proof. apply Forall_forall. intros route Hr. by apply elem_of_listed in Hr as [_ ?]. Qed.

End Listed.

(** ** Claims about the change report *)

Section ReportClaims.

(** C1.  For every pair of snapshot texts the comparison yields a report;
    the report is "unchanged" exactly when the added set, the removed set
    and the diff lines are all empty (also when the two sets are read as
    the blank-free listings that are logged), and exactly when the two
    texts are identical; comparing a text with itself gives the
    unchanged report with no diff lines, nothing added and nothing
    removed.  The records [compare_and_log_changes] logs are the
    rendering of this report. *)
Theorem report_unchanged_iff_identical (previous current : str) :
  ∃ r, compare previous current = Some r
       ∧ emits (compare_and_log_changes previous current) tt (render r)
       ∧ (unchanged r = true
          ↔ added r = ∅ ∧ removed r = ∅ ∧ diffLines r = [])
       ∧ (unchanged r = true
          ↔ listed (added r) = [] ∧ listed (removed r) = [] ∧ diffLines r = [])
       ∧ (unchanged r = true ↔ previous = current)
       ∧ compare previous previous = Some (mkChangeReport true [] ∅ ∅)
       ∧ emits (compare_and_log_changes previous previous) tt
           [(INFO, u "No routing table changes detected")].
Proof.
  assert (Hsame : compare previous previous = Some (mkChangeReport true [] ∅ ∅)).
  { unfold compare. by rewrite bool_decide_eq_true_2. }
  destruct (decide (previous = current)) as [<-|Hne].
  - exists (mkChangeReport true [] ∅ ∅).
    cbn [unchanged added removed diffLines]. rewrite listed_empty.
    split; [exact Hsame|]. split_and!; try done.
    + by apply compare_and_log_changes_emits.
    + by apply (compare_and_log_changes_emits previous previous _ Hsame).
  - destruct (diff_of_nonempty previous current Hne) as (d & Hd & Hnonempty).
    assert (Hr : compare previous current
                 = Some (mkChangeReport false d
                           (line_set current ∖ line_set previous)
                           (line_set previous ∖ line_set current))).
    { unfold compare. rewrite bool_decide_eq_false_2 by done. by rewrite Hd. }
    eexists. split; [exact Hr|]. split_and!; try done.
    + by apply compare_and_log_changes_emits.
    + simpl. split; [done|]. by intros (_ & _ & ?).
    + simpl. split; [done|]. by intros (_ & _ & ?).
    + by apply (compare_and_log_changes_emits previous previous _ Hsame).
Qed.

(** C3.  For two distinct snapshot texts whose lines are the same
    multiset (a reordering), the report is not "unchanged", its diff is
    non-empty, and its added and removed sets are both empty. *)
Theorem report_of_reordering (A B : str) :
  A ≠ B →
  splitlines A ≡ₚ splitlines B →
  ∃ r, compare A B = Some r
       ∧ unchanged r = false
       ∧ diffLines r ≠ []
       ∧ added r = ∅
       ∧ removed r = ∅.
Proof.
  intros Hne Hperm.
  destruct (diff_of_nonempty A B Hne) as (d & Hd & Hnonempty).
  assert (Hset : line_set A = line_set B).
  { unfold line_set. apply set_eq. intros x.
    by rewrite !elem_of_list_to_set, Hperm. }
  eexists. split.
  { unfold compare. rewrite bool_decide_eq_false_2 by done. by rewrite Hd. }
  simpl. rewrite Hset. split_and!; [done|done|apply difference_diag_L..].
Qed.

(** C4.  The added and the removed set of a comparison are disjoint, and
    exchanging the two texts exchanges the two sets. *)
Theorem added_removed_disjoint_swap (A B : str) :
  ∃ r r', compare A B = Some r
          ∧ compare B A = Some r'
          ∧ added r ## removed r
          ∧ added r = removed r'
          ∧ removed r = added r'
          ∧ listed (added r) = listed (removed r')
          ∧ listed (removed r) = listed (added r').
Proof.
  unfold compare. destruct (decide (A = B)) as [<-|Hne].
  - rewrite bool_decide_eq_true_2 by done.
    eexists _, _. split_and!; try done.
  - rewrite !bool_decide_eq_false_2 by done.
    destruct (diff_of_total A B) as [d ->].
    destruct (diff_of_total B A) as [d' ->].
    eexists _, _. simpl. split_and!; try done.
    cbn [added removed]. apply elem_of_disjoint. intros x.
    rewrite !elem_of_difference. tauto.
Qed.

(** C5.  In the added and removed parts of the logged report no blank or
    whitespace-only line appears: the lines listed are exactly the
    non-blank members of the set, also when a blank line is in the set,
    and both listings are in sorted (code-point lexicographic) order. *)
Theorem listed_routes_nonblank_sorted (previous current : str) :
  ∃ r, compare previous current = Some r
       ∧ emits (compare_and_log_changes previous current) tt (render r)
       ∧ (∀ route, route ∈ listed (added r) ↔ route ∈ added r ∧ ¬ blank route)
       ∧ (∀ route, route ∈ listed (removed r) ↔ route ∈ removed r ∧ ¬ blank route)
       ∧ Sorted str_le (listed (added r))
       ∧ Sorted str_le (listed (removed r))
       ∧ (∀ heading sign s rec,
            rec ∈ listing heading sign s →
            rec = (INFO, u heading)
            ∨ ∃ route, rec = (INFO, u sign ++ route) ∧ route ∈ s ∧ ¬ blank route).
Proof.
  destruct (compare_total previous current) as [r Hr].
  exists r. split_and!; [done|..].
  - by apply compare_and_log_changes_emits.
  - intros route. apply elem_of_listed.
  - intros route. apply elem_of_listed.
  - apply listed_sorted.
  - apply listed_sorted.
  - intros heading sign s rec. unfold listing. case_bool_decide; [|by intros ?%elem_of_nil].
    intros [->|Hin]%elem_of_cons; [by left|]. right.
    apply list_elem_of_fmap in Hin as (route & -> & Hroute).
    exists route. split; [done|]. by apply elem_of_listed.
Qed.

End ReportClaims.

(** ** How the methods end and what they touch *)

Section Effects.

Lemma bind_eq {A B} (m : M A) (f : A → M B) (w : World) :
  (m ≫= f) w = match m w with
               | (Ret x, w') => f x w'
               | (Raise e, w') => (Raise e, w')
               | (Unfinished, w') => (Unfinished, w')
               end.
Proof. done. Qed.

Lemma logging_eq (l : level) (m : str) (w : World) :
  logging l m w = (Ret tt, add_log w [(l, m)]).
Proof. done. Qed.

Lemma bind_logging {B} (l : level) (m : str) (k : unit → M B) (w : World) :
  (logging l m ≫= k) w = k tt (add_log w [(l, m)]).
Proof. done. Qed.

(** *** [returns] *)

Lemma returns_ret {A} (x : A) : returns (mret x).
Proof. intros w. by exists x. Qed.

Lemma returns_logging (l : level) (m : str) : returns (logging l m).
Proof. intros w. by exists tt. Qed.

Lemma returns_bind {A B} (m : M A) (f : A → M B) :
  returns m → (∀ x, returns (f x)) → returns (m ≫= f).
Proof.
  intros Hm Hf w. rewrite bind_eq. destruct (Hm w) as [x Hx].
  destruct (m w) as [r w']. simpl in Hx. subst r. apply Hf.
Qed.

Lemma returns_emits {A} (m : M A) (x : A) (recs : list LogRecord) :
  emits m x recs → returns m.
Proof. intros Hm w. exists x. by rewrite Hm. Qed.

Lemma returns_when (c : bool) (body : M unit) : returns body → returns (when c body).
Proof. destruct c; [done|]. intros _. apply returns_ret. Qed.

Lemma returns_for_each {A} (l : list A) (body : A → M unit) :
  (∀ x, returns (body x)) → returns (for_each l body).
Proof.
  intros Hbody. induction l as [|x l IH]; [apply returns_ret|].
  by apply returns_bind.
Qed.

Lemma returns_get_fs : returns get_fs.
Proof. intros w. by eexists. Qed.

Lemma returns_get_tick : returns get_tick.
Proof. intros w. by eexists. Qed.

Lemma returns_set_fs (f : FS) : returns (set_fs f).
Proof. intros w. by exists tt. Qed.

(** A handler for [Exception] turns a body that can only raise such
    exceptions into one that returns. *)
Lemma returns_try_except {A} (body : M A) (handler : exn → M A) :
  exc_only body → (∀ e, returns (handler e)) →
  returns (try_except body is_Exception handler).
Proof.
  intros Hbody Hh w. unfold try_except. specialize (Hbody w).
  destruct (body w) as [[x|e|] w']; simpl in Hbody.
  - by exists x.
  - rewrite Hbody. apply Hh.
  - done.
Qed.

(** *** [exc_only] *)

Lemma exc_only_returns {A} (m : M A) : returns m → exc_only m.
Proof. intros Hm w. destruct (Hm w) as [x ->]. done. Qed.

Lemma exc_only_bind {A B} (m : M A) (f : A → M B) :
  exc_only m → (∀ x, exc_only (f x)) → exc_only (m ≫= f).
Proof.
  intros Hm Hf w. rewrite bind_eq. specialize (Hm w).
  destruct (m w) as [[x|e|] w']; simpl in Hm |- *; [apply Hf|done..].
Qed.

Lemma exc_only_call {A} (f : nat → ext A) : exc_only (call f).
Proof. intros w. unfold call. by destruct (f (tick w)). Qed.

Lemma exc_only_raise {A} (cls : string) (m : str) : exc_only (raise (A:=A) (Exc cls m)).
Proof. by intros w. Qed.

Lemma exc_only_when (c : bool) (body : M unit) : exc_only body → exc_only (when c body).
Proof. destruct c; [done|]. intros _. apply exc_only_returns, returns_ret. Qed.

Lemma exc_only_ret {A} (x : A) : exc_only (mret x).
Proof. apply exc_only_returns, returns_ret. Qed.

Lemma exc_only_logging (l : level) (m : str) : exc_only (logging l m).
Proof. apply exc_only_returns, returns_logging. Qed.

Lemma exc_only_get_fs : exc_only get_fs.
Proof. apply exc_only_returns, returns_get_fs. Qed.

Lemma exc_only_get_tick : exc_only get_tick.
Proof. apply exc_only_returns, returns_get_tick. Qed.

Lemma exc_only_set_fs (f : FS) : exc_only (set_fs f).
Proof. by intros w. Qed.

Lemma exc_only_for_each {A} (l : list A) (body : A → M unit) :
  (∀ x, exc_only (body x)) → exc_only (for_each l body).
Proof.
  intros Hbody. induction l as [|x l IH]; [apply exc_only_returns, returns_ret|].
  by apply exc_only_bind.
Qed.

(** *** [keeps_fs] *)

Lemma keeps_fs_ret {A} (x : A) : keeps_fs (mret x).
Proof. by intros w. Qed.

Lemma keeps_fs_logging (l : level) (m : str) : keeps_fs (logging l m).
Proof. by intros w. Qed.

Lemma keeps_fs_call {A} (f : nat → ext A) : keeps_fs (call f).
Proof. intros w. unfold call. by destruct (f (tick w)). Qed.

Lemma keeps_fs_raise {A} (e : exn) : keeps_fs (raise (A:=A) e).
Proof. by intros w. Qed.

Lemma keeps_fs_get_fs : keeps_fs get_fs.
Proof. by intros w. Qed.

Lemma keeps_fs_get_tick : keeps_fs get_tick.
Proof. by intros w. Qed.

Lemma keeps_fs_of_option {A} (o : option A) : keeps_fs (of_option o).
Proof. intros w. by destruct o. Qed.

Lemma keeps_fs_bind {A B} (m : M A) (f : A → M B) :
  keeps_fs m → (∀ x, keeps_fs (f x)) → keeps_fs (m ≫= f).
Proof.
  intros Hm Hf w. rewrite bind_eq. specialize (Hm w).
  destruct (m w) as [[x|e|] w']; simpl in Hm |- *; [|done..].
  by rewrite Hf.
Qed.

Lemma keeps_fs_try_except {A} (body : M A) (handles : exn → bool) (handler : exn → M A) :
  keeps_fs body → (∀ e, keeps_fs (handler e)) →
  keeps_fs (try_except body handles handler).
Proof.
  intros Hbody Hh w. unfold try_except. specialize (Hbody w).
  destruct (body w) as [[x|e|] w']; simpl in Hbody |- *; [done| |done].
  destruct (handles e); [|done]. by rewrite Hh.
Qed.

Lemma keeps_fs_when (c : bool) (body : M unit) : keeps_fs body → keeps_fs (when c body).
Proof. destruct c; [done|]. intros _. apply keeps_fs_ret. Qed.

Lemma keeps_fs_for_each {A} (l : list A) (body : A → M unit) :
  (∀ x, keeps_fs (body x)) → keeps_fs (for_each l body).
Proof.
  intros Hbody. induction l as [|x l IH]; [apply keeps_fs_ret|].
  by apply keeps_fs_bind.
Qed.

Lemma keeps_fs_emits {A} (m : M A) (x : A) (recs : list LogRecord) :
  emits m x recs → keeps_fs m.
Proof. intros Hm w. by rewrite Hm. Qed.

(** *** [extends_log] *)

Lemma extends_log_ret {A} (x : A) : extends_log (mret x).
Proof. intros w. exists []. simpl. by rewrite app_nil_r. Qed.

Lemma extends_log_logging (l : level) (m : str) : extends_log (logging l m).
Proof. intros w. by eexists. Qed.

Lemma extends_log_call {A} (f : nat → ext A) : extends_log (call f).
Proof.
  intros w. exists []. unfold call.
  destruct (f (tick w)); simpl; by rewrite app_nil_r.
Qed.

Lemma extends_log_raise {A} (e : exn) : extends_log (raise (A:=A) e).
Proof. intros w. exists []. simpl. by rewrite app_nil_r. Qed.

Lemma extends_log_get_fs : extends_log get_fs.
Proof. intros w. exists []. simpl. by rewrite app_nil_r. Qed.

Lemma extends_log_get_tick : extends_log get_tick.
Proof. intros w. exists []. simpl. by rewrite app_nil_r. Qed.

Lemma extends_log_set_fs (f : FS) : extends_log (set_fs f).
Proof. intros w. exists []. simpl. by rewrite app_nil_r. Qed.

Lemma extends_log_of_option {A} (o : option A) : extends_log (of_option o).
Proof. intros w. exists []. destruct o; simpl; by rewrite app_nil_r. Qed.

Lemma extends_log_bind {A B} (m : M A) (f : A → M B) :
  extends_log m → (∀ x, extends_log (f x)) → extends_log (m ≫= f).
Proof.
  intros Hm Hf w. rewrite bind_eq. destruct (Hm w) as [r1 H1].
  destruct (m w) as [[x|e|] w']; simpl in H1 |- *; [|by exists r1..].
  destruct (Hf x w') as [r2 H2]. exists (r1 ++ r2).
  by rewrite H2, H1, app_assoc.
Qed.

Lemma extends_log_try_except {A} (body : M A) (handles : exn → bool)
    (handler : exn → M A) :
  extends_log body → (∀ e, extends_log (handler e)) →
  extends_log (try_except body handles handler).
Proof.
  intros Hbody Hh w. unfold try_except. destruct (Hbody w) as [r1 H1].
  destruct (body w) as [[x|e|] w']; simpl in H1 |- *; [by exists r1| |by exists r1].
  destruct (handles e); [|by exists r1].
  destruct (Hh e w') as [r2 H2]. exists (r1 ++ r2).
  by rewrite H2, H1, app_assoc.
Qed.

Lemma extends_log_when (c : bool) (body : M unit) :
  extends_log body → extends_log (when c body).
Proof. destruct c; [done|]. intros _. apply extends_log_ret. Qed.

Lemma extends_log_for_each {A} (l : list A) (body : A → M unit) :
  (∀ x, extends_log (body x)) → extends_log (for_each l body).
Proof.
  intros Hbody. induction l as [|x l IH]; [apply extends_log_ret|].
  by apply extends_log_bind.
Qed.

End Effects.

(** Goals of the three kinds, over code built from the constructs
    above; case distinctions of the code are followed. *)
Ltac effects_step :=
  first
    [ apply returns_ret | apply returns_logging | apply returns_get_fs
    | apply returns_get_tick
    | apply returns_when | apply returns_for_each
    | apply returns_bind
    | apply returns_set_fs
    | apply exc_only_ret | apply exc_only_logging | apply exc_only_get_fs
    | apply exc_only_get_tick | apply exc_only_set_fs
    | apply exc_only_call | apply exc_only_raise | apply exc_only_when
    | apply exc_only_for_each
    | apply exc_only_bind
    | apply keeps_fs_ret | apply keeps_fs_logging | apply keeps_fs_call
    | apply keeps_fs_raise | apply keeps_fs_get_fs | apply keeps_fs_get_tick
    | apply keeps_fs_of_option
    | apply keeps_fs_when | apply keeps_fs_for_each
    | apply keeps_fs_try_except | apply keeps_fs_bind
    | apply extends_log_ret | apply extends_log_logging | apply extends_log_call
    | apply extends_log_raise | apply extends_log_get_fs
    | apply extends_log_get_tick | apply extends_log_set_fs
    | apply extends_log_of_option
    | apply extends_log_when | apply extends_log_for_each
    | apply extends_log_try_except | apply extends_log_bind
    | match goal with
      | |- context [match ?x with _ => _ end] => destruct x
      end
    | progress intros ].

Ltac effects := repeat effects_step.

(** ** Creating the directories *)

Section Makedirs.
Variable env : Env.

Lemma length_drop_while (f : N → bool) (s : str) :
  length (drop_while f s) ≤ length s.
Proof. induction s as [|c s IH]; simpl; [done|]. destruct (f c); simpl; lia. Qed.

Lemma os_path_dirname_length (p : str) :
  length (os_path_dirname p)
  ≤ length (reverse (drop_while (fun c => negb (c =? SEP)%N) (reverse p))).
Proof.
  unfold os_path_dirname. cbv zeta.
  destruct (truthy _ && negb _); [|done].
  rewrite length_reverse. etrans; [apply length_drop_while|].
  by rewrite length_reverse.
Qed.

Lemma os_path_split_length (p : str) :
  length (os_path_split p).1 + length (os_path_split p).2 ≤ length p.
Proof.
  unfold os_path_split. cbv zeta. cbn [fst snd].
  pose proof (os_path_dirname_length p) as Hhead.
  assert (Hraw : length (reverse (drop_while (fun c => negb (c =? SEP)%N) (reverse p)))
                 ≤ length p).
  { rewrite length_reverse. etrans; [apply length_drop_while|].
    by rewrite length_reverse. }
  rewrite length_drop. lia.
Qed.

(** The head [os.makedirs] recurses on is shorter than the path. *)
Lemma makedirs_split_shorter (name head tail : str) :
  makedirs_split name = (head, tail) → truthy tail = true →
  length head < length name.
Proof.
  unfold makedirs_split. pose proof (os_path_split_length name) as Hname.
  destruct (os_path_split name) as [h1 t1]. cbn [fst snd] in Hname.
  destruct (truthy t1) eqn:Ht1.
  - intros [= <- <-] _. destruct t1; [done|]. simpl in Hname. lia.
  - intros Hsplit Htail. pose proof (os_path_split_length h1) as Hh1.
    rewrite Hsplit in Hh1. cbn [fst snd] in Hh1.
    destruct tail; [done|]. simpl in Hh1. lia.
Qed.

Lemma grows_refl (new : gset str) (w : World) : grows new w w.
Proof. split_and!; [done..|]. apply union_subseteq_r. Qed.

Lemma grows_trans (new1 new2 : gset str) (w w1 w2 : World) :
  grows new1 w w1 → grows new2 w1 w2 → grows (new1 ∪ new2) w w2.
Proof.
  intros (Hf1 & Hl1 & Hlo1 & Hhi1) (Hf2 & Hl2 & Hlo2 & Hhi2).
  split_and!; [congruence|congruence|by etrans|].
  intros d Hd. apply Hhi2 in Hd. apply elem_of_union in Hd as [Hd|Hd].
  - apply elem_of_union. left. apply elem_of_union. by right.
  - apply Hhi1 in Hd. apply elem_of_union in Hd as [Hd|Hd].
    + apply elem_of_union. left. apply elem_of_union. by left.
    + apply elem_of_union. by right.
Qed.

Lemma grows_mono (new1 new2 : gset str) (w w' : World) :
  new1 ⊆ new2 → grows new1 w w' → grows new2 w w'.
Proof.
  intros Hsub (Hf & Hl & Hlo & Hhi). split_and!; [done..|].
  intros d Hd. apply Hhi in Hd. apply elem_of_union in Hd as [Hd|Hd].
  - apply elem_of_union. left. by apply Hsub.
  - apply elem_of_union. by right.
Qed.

(** [os.mkdir] creates the one directory or raises and changes
    nothing. *)
Lemma os_mkdir_run (name : str) (w : World) :
  ∃ r w', os_mkdir env name w = (r, w')
    ∧ files (fs w') = files (fs w) ∧ log w' = log w
    ∧ ((r = Ret tt ∧ dirs (fs w') = {[ name ]} ∪ dirs (fs w))
       ∨ ((∃ cls message, r = Raise (Exc cls message)) ∧ fs w' = fs w)).
Proof.
  unfold os_mkdir, ENOENT, EEXIST, ENOTDIR.
  unfold mbind, M_bind, bind, mret, M_ret, ret, get_fs, get_tick, set_fs, raise.
  cbn beta iota. cbn [fs log tick].
  destruct (truthy name); cbn [negb];
    [|eexists _, _; split; [reflexivity|]; split_and!; [done..|]; right;
      split; [by eexists _, _|done]].
  destruct (bool_decide (is_Some (files (fs w) !! name)) || bool_decide (name ∈ dirs (fs w)));
    [eexists _, _; split; [reflexivity|]; split_and!; [done..|]; right;
      split; [by eexists _, _|done]|].
  destruct (bool_decide (is_Some (files (fs w) !! (makedirs_split name).1)));
    [eexists _, _; split; [reflexivity|]; split_and!; [done..|]; right;
      split; [by eexists _, _|done]|].
  destruct (makedirs_fault env (tick w) name) as [[cls m]|].
  - eexists _, _. split; [reflexivity|]. split_and!; [done..|]. right.
    split; [by eexists _, _|done].
  - eexists _, _. split; [reflexivity|]. split_and!; [done..|]. by left.
Qed.

(** The last step of [os.makedirs]: [os.mkdir], whose [OSError] is let
    go when the directory is there. *)
Lemma mkdir_exist_ok_run (name : str) (w : World) :
  ∃ r w',
    try_except (os_mkdir env name) is_OSError
      (fun e => isdir ← os_path_isdir name;
                if isdir : bool then mret tt else raise e) w = (r, w')
    ∧ ended r ∧ grows {[ name ]} w w'
    ∧ (r = Ret tt → name ∈ dirs (fs w')).
Proof.
  destruct (os_mkdir_run name w) as (r & w1 & Hrun & Hfiles & Hlog & Hcases).
  unfold try_except. rewrite Hrun.
  destruct Hcases as [[-> Hdirs]|[(cls & message & ->) Hfs]].
  - eexists _, _. split; [reflexivity|]. split; [by left|].
    split; [|intros _; rewrite Hdirs; apply elem_of_union; left;
             by apply elem_of_singleton].
    split_and!; [done..|rewrite Hdirs; apply union_subseteq_r|by rewrite Hdirs].
  - assert (Hgrows : grows {[ name ]} w w1).
    { split_and!; [done|done|by rewrite Hfs|rewrite Hfs; apply union_subseteq_r]. }
    destruct (is_OSError (Exc cls message)).
    + unfold os_path_isdir, mbind, M_bind, bind, mret, M_ret, ret, get_fs, raise.
      cbn beta iota.
      destruct (truthy name && bool_decide (name ∈ dirs (fs w1))) eqn:Hisdir.
      * eexists _, _. split; [reflexivity|]. split; [by left|]. split; [done|].
        intros _. apply andb_prop in Hisdir as [_ Hin].
        by apply bool_decide_eq_true in Hin.
      * eexists _, _. split; [reflexivity|]. split; [right; by eexists _, _|].
        by split.
    + eexists _, _. split; [reflexivity|]. split; [right; by eexists _, _|].
      by split.
Qed.

(** [os.makedirs] ends within its fuel; it leaves the files and the
    log alone and adds directories among the path and its heads.  When
    it returns the path is a directory, unless the path ends in the
    component ["."], which is not created itself. *)
Lemma makedirs_run (fuel : nat) (name : str) (w : World) :
  length name < fuel →
  ∃ r w', makedirs fuel env name w = (r, w')
    ∧ ended r ∧ grows (list_to_set (ancestors fuel name)) w w'
    ∧ (r = Ret tt → (makedirs_split name).2 ≠ u "." → name ∈ dirs (fs w')).
Proof.
  revert name w. induction fuel as [|fuel IH]; intros name w Hlen; [lia|].
  cbn [makedirs ancestors].
  destruct (makedirs_split name) as [head tail] eqn:Hsplit.
  rewrite list_to_set_cons. cbn [snd].
  set (above := list_to_set
                  (if truthy head && truthy tail then ancestors fuel head else [])
                : gset str).
  assert (Hlast : ∀ w1, grows above w w1 →
            ∃ r w', try_except (os_mkdir env name) is_OSError
                      (fun e => isdir ← os_path_isdir name;
                                if isdir : bool then mret tt else raise e) w1 = (r, w')
                    ∧ ended r ∧ grows ({[ name ]} ∪ above) w w'
                    ∧ (r = Ret tt → tail ≠ u "." → name ∈ dirs (fs w'))).
  { intros w1 Hw1.
    destruct (mkdir_exist_ok_run name w1) as (r & w' & Hrun & Hend & Hg & Hin).
    exists r, w'. split; [done|]. split; [done|]. split; [|by intros ? _; apply Hin].
    eapply grows_mono; [|by eapply grows_trans]. apply union_subseteq.
    split; [apply union_subseteq_r|apply union_subseteq_l]. }
  rewrite bind_eq.
  destruct (truthy head && truthy tail) eqn:Hboth; last first.
  { cbn beta iota. apply Hlast, grows_refl. }
  apply andb_prop in Hboth as [Hhead Htail].
  rewrite bind_eq. unfold os_path_exists at 1.
  unfold mbind at 1, M_bind at 1, bind at 1, get_fs at 1, mret at 1, M_ret at 1, ret at 1.
  cbn beta iota.
  destruct (bool_decide (is_Some (files (fs w) !! head)) || bool_decide (head ∈ dirs (fs w))).
  { cbn beta iota. apply Hlast, grows_refl. }
  pose proof (makedirs_split_shorter name head tail Hsplit Htail) as Hshort.
  destruct (IH head w ltac:(lia)) as (r1 & w1 & Hrec & Hend1 & Hg1 & _).
  rewrite bind_eq. unfold try_except at 1. rewrite Hrec.
  assert (Hg1' : grows ({[ name ]} ∪ above) w w1).
  { eapply grows_mono; [|exact Hg1]. apply union_subseteq_r. }
  destruct Hend1 as [->|(cls & message & ->)].
  - cbn beta iota. destruct (bool_decide_reflect (tail = u ".")) as [Hdot|Hdot].
    + eexists _, _. split; [reflexivity|]. split; [by left|]. split; [done|].
      by intros _ [].
    + apply Hlast. exact Hg1.
  - destruct (is_FileExistsError (Exc cls message)).
    + cbn beta iota. destruct (bool_decide_reflect (tail = u ".")) as [Hdot|Hdot].
      * eexists _, _. split; [reflexivity|]. split; [by left|]. split; [done|].
        by intros _ [].
      * apply Hlast. exact Hg1.
    + eexists _, _. split; [reflexivity|]. split; [right; by eexists _, _|].
      by split.
Qed.

Lemma os_makedirs_run (d : str) (w : World) :
  ∃ r w', os_makedirs env d w = (r, w')
    ∧ ended r ∧ grows (list_to_set (path_ancestors d)) w w'
    ∧ (r = Ret tt → (makedirs_split d).2 ≠ u "." → d ∈ dirs (fs w')).
Proof. apply makedirs_run. lia. Qed.

(** [open(p, 'w')] and the write touch the one file. *)
Lemma write_text_run (p text : str) (w : World) :
  ∃ r w', write_text env p text w = (r, w')
    ∧ ended r ∧ log w' = log w ∧ dirs (fs w') = dirs (fs w)
    ∧ ∀ q, q ≠ p → files (fs w') !! q = files (fs w) !! q.
Proof.
  unfold write_text, ENOENT, EISDIR, ENOTDIR.
  unfold mbind, M_bind, bind, mret, M_ret, ret, get_fs, get_tick, set_fs, raise.
  cbn beta iota. cbn [fs log tick files dirs].
  destruct (truthy p); cbn [negb];
    [|eexists _, _; split; [reflexivity|]; split; [right; by eexists _, _|done]].
  destruct (bool_decide (p ∈ dirs (fs w)));
    [eexists _, _; split; [reflexivity|]; split; [right; by eexists _, _|done]|].
  destruct (bool_decide (is_Some (files (fs w) !! (makedirs_split p).1)));
    [eexists _, _; split; [reflexivity|]; split; [right; by eexists _, _|done]|].
  destruct (truthy (os_path_split p).2); cbn [negb];
    [|eexists _, _; split; [reflexivity|]; split; [right; by eexists _, _|done]].
  destruct (open_write_fault env (tick w) p) as [[cls m]|]; cbn beta iota;
    [eexists _, _; split; [reflexivity|]; split; [right; by eexists _, _|done]|].
  cbn [fs log tick files dirs].
  destruct (write_fault env _ p text) as [[written [cls m]]|]; cbn beta iota.
  - eexists _, _. split; [reflexivity|]. split; [right; by eexists _, _|].
    split_and!; [done..|]. intros q Hq. cbn [fs files]. by rewrite lookup_insert_ne.
  - eexists _, _. split; [reflexivity|]. split; [by left|].
    split_and!; [done..|]. intros q Hq. cbn [fs files]. by rewrite lookup_insert_ne.
Qed.

(** The empty path: [os.mkdir('')] fails and nothing is created. *)
Lemma os_makedirs_empty (w : World) :
  os_makedirs env [] w
  = (Raise (Exc "FileNotFoundError" (u "[Errno 2] No such file or directory: ''")),
     mkWorld (fs w) (log w) (S (tick w))).
Proof. reflexivity. Qed.

Lemma exc_only_os_makedirs (d : str) : exc_only (os_makedirs env d).
Proof.
  intros w. destruct (os_makedirs_run d w) as (r & w' & -> & Hend & _ & _).
  by destruct Hend as [->|(cls & message & ->)].
Qed.

End Makedirs.

Section MethodEffects.
Variable config : Config.
Variable env : Env.

Lemma check_routes_returns : returns (check_routes config env).
Proof.
  unfold check_routes, get_routes_ssh, get_routes_local.
  repeat case_bool_decide; repeat case_match;
    try apply returns_try_except; effects.
Qed.

Lemma check_routes_keeps_fs : keeps_fs (check_routes config env).
Proof.
  unfold check_routes, get_routes_ssh, get_routes_local.
  repeat case_bool_decide; repeat case_match; effects.
Qed.

Lemma load_previous_snapshot_returns : returns (load_previous_snapshot config env).
Proof.
  unfold load_previous_snapshot, os_path_exists, read_text.
  destruct (store_previous config); simpl; [|effects].
  apply returns_bind; [effects|]. intros [|]; [|effects].
  apply returns_try_except; effects.
Qed.

Lemma load_previous_snapshot_keeps_fs : keeps_fs (load_previous_snapshot config env).
Proof.
  unfold load_previous_snapshot, os_path_exists, read_text.
  destruct (store_previous config); simpl; effects.
Qed.

Lemma stats_body_exc_only : exc_only (stats_body config env).
Proof. unfold stats_body, log_ports, of_ext. effects. Qed.

Lemma stats_body_keeps_fs : keeps_fs (stats_body config env).
Proof. unfold stats_body, log_ports, of_ext. effects. Qed.

Lemma collect_network_stats_returns : returns (collect_network_stats config env).
Proof.
  unfold collect_network_stats. destruct (stats_enabled config); simpl; [|effects].
  do 2 (apply returns_bind; [effects|intros _]).
  apply returns_bind; [|effects].
  apply returns_try_except; [apply stats_body_exc_only|effects].
Qed.

Lemma collect_network_stats_keeps_fs : keeps_fs (collect_network_stats config env).
Proof.
  unfold collect_network_stats. destruct (stats_enabled config); simpl; [|effects].
  do 2 (apply keeps_fs_bind; [effects|intros _]).
  apply keeps_fs_bind; [|effects].
  apply keeps_fs_try_except; [apply stats_body_keeps_fs|effects].
Qed.

Lemma save_snapshot_returns (routes : str) : returns (save_snapshot config env routes).
Proof.
  unfold save_snapshot.
  destruct (store_previous config); simpl; [|effects].
  apply returns_try_except; [|effects].
  apply exc_only_bind; [apply exc_only_os_makedirs|intros _].
  unfold write_text, ENOENT, EISDIR, ENOTDIR. effects.
Qed.

Lemma compare_and_log_changes_returns (previous current : str) :
  returns (compare_and_log_changes previous current).
Proof.
  destruct (compare_total previous current) as [r Hr].
  eapply returns_emits. by apply compare_and_log_changes_emits.
Qed.

(** [run_once] returns: nothing that goes wrong in a cycle is raised. *)
Lemma run_once_returns : returns (run_once config env).
Proof.
  unfold run_once.
  apply returns_bind; [effects|intros _].
  apply returns_bind; [apply check_routes_returns|intros [current_routes|]]; [|effects].
  apply returns_bind; [apply load_previous_snapshot_returns|intros previous_routes].
  apply returns_bind.
  { destruct previous_routes; [apply compare_and_log_changes_returns|effects]. }
  intros _. apply returns_bind; [apply collect_network_stats_returns|intros _].
  apply returns_bind; [apply save_snapshot_returns|intros _]. effects.
Qed.

Lemma collect_network_stats_extends_log : extends_log (collect_network_stats config env).
Proof. unfold collect_network_stats, stats_body, log_ports, of_ext. effects. Qed.

Lemma check_routes_extends_log : extends_log (check_routes config env).
Proof.
  unfold check_routes, get_routes_ssh, get_routes_local.
  repeat case_bool_decide; repeat case_match; effects.
Qed.

Lemma load_previous_snapshot_extends_log : extends_log (load_previous_snapshot config env).
Proof.
  unfold load_previous_snapshot, os_path_exists, read_text.
  destruct (store_previous config); simpl; effects.
Qed.

End MethodEffects.

(** ** One cycle *)

Section Cycle.
Variable config : Config.
Variable env : Env.

Lemma returns_run {A} (m : M A) (w : World) :
  returns m → ∃ x w', m w = (Ret x, w').
Proof.
  intros Hm. destruct (Hm w) as [x Hx]. destruct (m w) as [r w'].
  simpl in Hx. subst r. by exists x, w'.
Qed.

Lemma report_step (previous : option str) (current : str) (w : World) :
  match previous with
  | None =>
      logging INFO (u "No previous snapshot found - this is the first run");;
      logging INFO (u "Current routing table has "
                      ++ decimal (length (splitlines current)) ++ u " entries")
  | Some p => compare_and_log_changes p current
  end w = (Ret tt, add_log w (report_records previous current)).
Proof.
  destruct previous as [p|].
  - destruct (compare_total p current) as [r Hr].
    rewrite (compare_and_log_changes_emits p current r Hr).
    unfold report_records. by rewrite Hr.
  - rewrite bind_eq. unfold logging, add_log. simpl. by rewrite <- app_assoc.
Qed.

(** The cycle after a successful acquisition: load, report, statistics,
    save, and [True]. *)
Lemma run_once_after_acquisition (w w1 : World) (current : str) :
  check_routes config env (started w) = (Ret (Some current), w1) →
  ∃ previous w2 w4 w5,
    load_previous_snapshot config env w1 = (Ret previous, w2)
    ∧ collect_network_stats config env (add_log w2 (report_records previous current))
      = (Ret tt, w4)
    ∧ save_snapshot config env current w4 = (Ret tt, w5)
    ∧ run_once config env w = (Ret true, add_log w5 [completed]).
Proof.
  intros Hcheck.
  destruct (returns_run _ w1 (load_previous_snapshot_returns config env))
    as (previous & w2 & Hload).
  destruct (returns_run _ (add_log w2 (report_records previous current))
              (collect_network_stats_returns config env)) as ([] & w4 & Hstats).
  destruct (returns_run _ w4 (save_snapshot_returns config env current))
    as ([] & w5 & Hsave).
  exists previous, w2, w4, w5. split_and!; [done..|].
  unfold run_once. rewrite bind_eq. unfold logging at 1. cbv beta iota.
  unfold started, add_log in Hcheck. rewrite bind_eq, Hcheck. cbv beta iota.
  rewrite bind_eq, Hload. cbv beta iota.
  rewrite bind_eq, report_step. cbv beta iota.
  rewrite bind_eq, Hstats. cbv beta iota.
  rewrite bind_eq, Hsave. done.
Qed.

(** The cycle after a failed acquisition: one error record, and [False]. *)
Lemma run_once_without_routes (w w1 : World) :
  check_routes config env (started w) = (Ret None, w1) →
  run_once config env w
  = (Ret false, add_log w1 [(ERROR, u "Failed to retrieve routing table")]).
Proof.
  intros Hcheck. unfold started in Hcheck.
  unfold run_once. rewrite bind_logging. by rewrite bind_eq, Hcheck.
Qed.

(** C2.  When the snapshot source fails ([check_routes] returns [None]),
    [run_once] returns [False]; all it adds to the state the acquisition
    left is one error record, so no load, comparison, statistics or save
    takes place, and the file system, the snapshot file with it, is
    what it was before the call. *)
Theorem run_once_acquisition_failure (w w1 : World) :
  check_routes config env (started w) = (Ret None, w1) →
  run_once config env w
  = (Ret false, add_log w1 [(ERROR, u "Failed to retrieve routing table")])
  ∧ fs (run_once config env w).2 = fs w
  ∧ stored config (run_once config env w).2 = stored config w.
Proof.
  intros Hcheck.
  assert (Hfs : fs w1 = fs w).
  { pose proof (check_routes_keeps_fs config env (started w)) as Hk.
    by rewrite Hcheck in Hk. }
  rewrite (run_once_without_routes w w1 Hcheck).
  unfold stored. simpl. by rewrite Hfs.
Qed.

End Cycle.


(** ** Saving the snapshot *)

Section Save.
Variable config : Config.
Variable env : Env.



(** The ways [save_snapshot] can go. *)
Lemma save_snapshot_cases (routes : str) (w : World) :
  ∃ w', save_snapshot config env routes w = (Ret tt, w')
    ∧ ((store_previous config = false ∧ w' = w)
       ∨ (store_previous config = true
          ∧ stored config w' = Some routes ∧ log w' = log w)
       ∨ (store_previous config = true
          ∧ ∃ message,
              log w' = log w ++ [save_warning message]
              ∧ (files (fs w') = files (fs w)
                 ∨ ∃ written, stored config w' = Some (take written routes))))
    ∧ (os_path_dirname (snapshot_file config) = [] →
       fs w' = fs w
       ∧ (store_previous config = true →
          log w' = log w
                   ++ [save_warning (u "[Errno 2] No such file or directory: ''")])).
Proof.
  unfold save_snapshot. destruct (store_previous config) eqn:Hstore; cbn [negb]; last first.
  { exists w. split; [reflexivity|]. split; [by left|]. by intros _. }
  cbv zeta. unfold try_except. rewrite bind_eq.
  destruct (os_path_dirname (snapshot_file config)) as [|c d] eqn:Hdir.
  { (* os.makedirs('') *)
    rewrite os_makedirs_empty. cbn [is_Exception exn_str]. rewrite logging_eq.
    eexists. split; [reflexivity|]. split.
    - right. right. split; [done|]. eexists. split; [reflexivity|]. by left.
    - by intros _. }
  destruct (os_makedirs_run env (c :: d) w)
    as (r & w1 & Hrun & Hend & (Hfiles & Hlog & _) & _).
  rewrite Hrun. destruct Hend as [->|(cls & message & ->)]; last first.
  { cbn [is_Exception exn_str]. rewrite logging_eq.
    eexists. split; [reflexivity|]. split; [|done].
    right. right. split; [done|]. eexists. split; [by rewrite <- Hlog|]. by left. }
  destruct w1 as [[fls drs] lg tk]. cbn [fs log files] in Hfiles, Hlog. subst fls lg.
  unfold write_text, ENOENT, EISDIR, ENOTDIR.
  unfold mbind, M_bind, bind, mret, M_ret, ret, get_fs, get_tick, set_fs, raise, logging.
  cbn beta iota. cbn [fs log tick files dirs].
  destruct (truthy (snapshot_file config)); cbn [negb is_Exception];
    [|eexists; split; [reflexivity|]; split; [|done];
      right; right; split; [done|]; eexists; split; [reflexivity|]; by left].
  destruct (bool_decide (snapshot_file config ∈ drs)); cbn [is_Exception];
    [eexists; split; [reflexivity|]; split; [|done];
      right; right; split; [done|]; eexists; split; [reflexivity|]; by left|].
  destruct (bool_decide (is_Some (files (fs w) !! (makedirs_split (snapshot_file config)).1)));
    cbn [is_Exception];
    [eexists; split; [reflexivity|]; split; [|done];
      right; right; split; [done|]; eexists; split; [reflexivity|]; by left|].
  destruct (truthy (os_path_split (snapshot_file config)).2); cbn [negb is_Exception];
    [|eexists; split; [reflexivity|]; split; [|done];
      right; right; split; [done|]; eexists; split; [reflexivity|]; by left].
  destruct (open_write_fault env tk (snapshot_file config)) as [[cls m]|];
    cbn beta iota; cbn [is_Exception].
  { eexists. split; [reflexivity|]. split; [|done].
    right. right. split; [done|]. eexists. split; [reflexivity|]. by left. }
  cbn [fs log tick files dirs].
  destruct (write_fault env _ (snapshot_file config) routes)
    as [[written [cls m]]|]; cbn beta iota; cbn [is_Exception].
  - eexists. split; [reflexivity|]. split; [|done].
    right. right. split; [done|]. eexists. split; [reflexivity|]. right.
    exists written. unfold stored. cbn [fs files]. by rewrite lookup_insert_eq.
  - eexists. split; [reflexivity|]. split; [|done].
    right. left. split; [done|]. unfold stored. cbn [fs files log].
    by rewrite lookup_insert_eq.
Qed.


End Save.

(** ** Claims about the cycle *)

Section CycleClaims.
Variable config : Config.
Variable env : Env.

Lemma stats_run (w : World) :
  ∃ w' records,
    collect_network_stats config env w = (Ret tt, w')
    ∧ fs w' = fs w ∧ log w' = log w ++ records.
Proof.
  destruct (returns_run _ w (collect_network_stats_returns config env)) as ([] & w' & Hrun).
  pose proof (collect_network_stats_keeps_fs config env w) as Hfs.
  destruct (collect_network_stats_extends_log config env w) as [records Hlog].
  rewrite Hrun in Hfs, Hlog. by exists w', records.
Qed.

Lemma load_run (w previous_w : World) (previous : option str) :
  load_previous_snapshot config env w = (Ret previous, previous_w) →
  fs previous_w = fs w.
Proof.
  intros Hload. pose proof (load_previous_snapshot_keeps_fs config env w) as Hfs.
  by rewrite Hload in Hfs.
Qed.

Lemma check_run (w w1 : World) (r : result (option str)) :
  check_routes config env w = (r, w1) → fs w1 = fs w.
Proof.
  intros Hcheck. pose proof (check_routes_keeps_fs config env w) as Hfs.
  by rewrite Hcheck in Hfs.
Qed.

(** What the save step leaves, in the terms the claims use. *)
Lemma save_run (routes : str) (w : World) :
  ∃ w', save_snapshot config env routes w = (Ret tt, w')
        ∧ (store_previous config = false → w' = w)
        ∧ (store_previous config = true → log w' = log w →
           stored config w' = Some routes).
Proof.
  destruct (save_snapshot_cases config env routes w) as (w' & Hsave & Hcases & _).
  exists w'. split; [done|].
  destruct Hcases as [[Hoff ->]|[(Hon & Hstored & Hlog)|(Hon & message & Hlog & _)]].
  - split; [done|]. congruence.
  - split; [congruence|done].
  - split; [congruence|]. intros _ Hsame. rewrite Hsame in Hlog.
    apply (f_equal length) in Hlog. rewrite length_app in Hlog. simpl in Hlog. lia.
Qed.

(** C6, as amended.  When the acquisition succeeds and no previous
    snapshot is available, the cycle is a first run: the first-run
    report with the line count of the current snapshot is logged, no
    comparison is made, the statistics and then the save step run on
    the current snapshot, and the result is [True].  The save step
    writes nothing when persistence is off; with persistence on the
    snapshot file holds the current snapshot whenever the save step
    logs no failure. *)
Theorem run_once_first_run (w w1 w2 : World) (current : str) :
  check_routes config env (started w) = (Ret (Some current), w1) →
  load_previous_snapshot config env w1 = (Ret None, w2) →
  ∃ w4 w5 stats_records,
    collect_network_stats config env (add_log w2 (first_run_report current))
    = (Ret tt, w4)
    ∧ log w4 = log w2 ++ first_run_report current ++ stats_records
    ∧ fs w4 = fs w
    ∧ save_snapshot config env current w4 = (Ret tt, w5)
    ∧ run_once config env w = (Ret true, add_log w5 [completed])
    ∧ (store_previous config = false → w5 = w4)
    ∧ (store_previous config = true → log w5 = log w4 →
       stored config w5 = Some current).
Proof.
  intros Hcheck Hload.
  destruct (run_once_after_acquisition config env w w1 current Hcheck)
    as (previous & w2' & w4 & w5 & Hload' & Hstats & Hsave & Hrun).
  rewrite Hload in Hload'. injection Hload' as <- <-.
  destruct (stats_run (add_log w2 (first_run_report current)))
    as (w4' & stats_records & Hstats' & Hfs & Hlog).
  cbn [report_records] in Hstats. rewrite Hstats in Hstats'. injection Hstats' as <-.
  destruct (save_run current w4) as (w5' & Hsave' & Hoff & Hon).
  rewrite Hsave in Hsave'. injection Hsave' as <-.
  exists w4, w5, stats_records. split_and!; try done.
  - rewrite Hlog. simpl. by rewrite <- app_assoc.
  - rewrite Hfs. simpl. rewrite (load_run _ _ _ Hload).
    by rewrite (check_run _ _ _ Hcheck).
Qed.

(** C8, as amended.  [collect_network_stats] always returns and leaves
    the file system alone; an exception raised inside its [try] block is
    logged as an error and goes no further.  Whatever the statistics
    step met, a cycle whose acquisition succeeded goes on to the save
    step on the current snapshot and returns [True]; the save step
    writes nothing when persistence is off, and with persistence on the
    snapshot file holds the current snapshot whenever the save step logs
    no failure. *)
Theorem stats_failure_contained :
  (∀ w, ∃ w', collect_network_stats config env w = (Ret tt, w') ∧ fs w' = fs w)
  ∧ (∀ w e w',
       stats_enabled config = true →
       stats_body config env
         (add_log w [(INFO, u "Network Statistics:"); (INFO, rule "-")])
       = (Raise e, w') →
       collect_network_stats config env w
       = (Ret tt, add_log w' [stats_error e; (INFO, rule "=")]))
  ∧ (∀ w w1 current,
       check_routes config env (started w) = (Ret (Some current), w1) →
       ∃ previous w2 w4 w5,
         load_previous_snapshot config env w1 = (Ret previous, w2)
         ∧ collect_network_stats config env
             (add_log w2 (report_records previous current)) = (Ret tt, w4)
         ∧ save_snapshot config env current w4 = (Ret tt, w5)
         ∧ run_once config env w = (Ret true, add_log w5 [completed])
         ∧ (store_previous config = false → w5 = w4)
         ∧ (store_previous config = true → log w5 = log w4 →
            stored config w5 = Some current)).
Proof.
  split_and!.
  - intros w. destruct (stats_run w) as (w' & records & Hrun & Hfs & _). by exists w'.
  - intros w e w' Hon Hbody.
    pose proof (stats_body_exc_only config env
                  (add_log w [(INFO, u "Network Statistics:"); (INFO, rule "-")])) as Hexc.
    rewrite Hbody in Hexc. simpl in Hexc.
    unfold collect_network_stats. rewrite Hon. cbn [negb].
    rewrite !bind_logging, add_log_app. cbn [app].
    rewrite bind_eq. unfold try_except. rewrite Hbody, Hexc.
    rewrite !logging_eq. by rewrite add_log_app.
  - intros w w1 current Hcheck.
    destruct (run_once_after_acquisition config env w w1 current Hcheck)
      as (previous & w2 & w4 & w5 & Hload & Hstats & Hsave & Hrun).
    destruct (save_run current w4) as (w5' & Hsave' & Hoff & Hon).
    rewrite Hsave in Hsave'. injection Hsave' as <-.
    by exists previous, w2, w4, w5.
Qed.

(** C10, as amended.  With [store_previous] off,
    [load_previous_snapshot] returns [None] and [save_snapshot] returns
    without doing anything at all, no invocation of [run_once] changes
    the file system, and every invocation in which the acquisition
    succeeds takes the first-run path, without a comparison, and
    returns [True]; an invocation in which the acquisition fails
    returns [False] before that path. *)
Theorem store_previous_off :
  store_previous config = false →
  (∀ w, load_previous_snapshot config env w = (Ret None, w))
  ∧ (∀ routes w, save_snapshot config env routes w = (Ret tt, w))
  ∧ (∀ w, fs (run_once config env w).2 = fs w)
  ∧ (∀ w w1 current,
       check_routes config env (started w) = (Ret (Some current), w1) →
       ∃ w4, collect_network_stats config env (add_log w1 (first_run_report current))
             = (Ret tt, w4)
             ∧ run_once config env w = (Ret true, add_log w4 [completed]))
  ∧ (∀ w w1,
       check_routes config env (started w) = (Ret None, w1) →
       run_once config env w
       = (Ret false, add_log w1 [(ERROR, u "Failed to retrieve routing table")])).
Proof.
  intros Hoff.
  assert (Hload : ∀ w, load_previous_snapshot config env w = (Ret None, w)).
  { intros w. unfold load_previous_snapshot. by rewrite Hoff. }
  assert (Hsave : ∀ routes w, save_snapshot config env routes w = (Ret tt, w)).
  { intros routes w. unfold save_snapshot. by rewrite Hoff. }
  assert (Hfirst : ∀ w w1 current,
            check_routes config env (started w) = (Ret (Some current), w1) →
            ∃ w4, collect_network_stats config env (add_log w1 (first_run_report current))
                  = (Ret tt, w4)
                  ∧ run_once config env w = (Ret true, add_log w4 [completed])).
  { intros w w1 current Hcheck.
    destruct (run_once_after_acquisition config env w w1 current Hcheck)
      as (previous & w2 & w4 & w5 & Hload' & Hstats & Hsave' & Hrun).
    rewrite Hload in Hload'. injection Hload' as <- <-.
    rewrite Hsave in Hsave'. injection Hsave' as <-.
    by exists w4. }
  split_and!; [done|done| |done|apply run_once_without_routes].
  intros w. destruct (check_routes config env (started w)) as [r w1] eqn:Hcheck.
  destruct (check_routes_returns config env (started w)) as [current Hret].
  rewrite Hcheck in Hret. simpl in Hret. subst r.
  destruct current as [current|].
  - destruct (Hfirst w w1 current Hcheck) as (w4 & Hstats & ->). simpl.
    pose proof (collect_network_stats_keeps_fs config env
                  (add_log w1 (first_run_report current))) as Hfs.
    rewrite Hstats in Hfs. simpl in Hfs. rewrite Hfs.
    by rewrite (check_run _ _ _ Hcheck).
  - rewrite (run_once_without_routes config env w w1 Hcheck). simpl.
    by rewrite (check_run _ _ _ Hcheck).
Qed.

End CycleClaims.

(** ** Daemon mode *)

Section DaemonClaims.
Variable env : Env.

Lemma daemon_steps_left (cycle : M bool) (interval : Z) (n : nat)
    (r : result unit) (w : World) :
  daemon_steps env cycle interval n (Left r w) = Left r w.
Proof. induction n as [|n IH]; [done|]. exact IH. Qed.


Lemma time_sleep_usable (interval : Z) (w : World) :
  usable_interval interval →
  time_sleep env interval w
  = (if sleep_interrupted env (tick w) then Raise KeyboardInterrupt else Ret tt,
     ticked w).
Proof.
  intros [Hlo Hhi]. unfold time_sleep. rewrite bind_eq. unfold get_tick.
  cbn beta iota.
  assert (Hmax : (0 < SLEEP_MAX)%Z) by done.
  destruct (Z.ltb_spec interval (- SLEEP_MAX)); [lia|].
  destruct (Z.ltb_spec SLEEP_MAX interval); [lia|].
  destruct (Z.ltb_spec interval 0); [lia|]. cbn [orb].
  by destruct (sleep_interrupted env (tick w)).
Qed.

Lemma time_sleep_unusable (interval : Z) (w : World) :
  ¬ usable_interval interval →
  time_sleep env interval w = (Raise (sleep_error interval), ticked w).
Proof.
  intros Hbad. unfold time_sleep, sleep_error. rewrite bind_eq. unfold get_tick.
  cbn beta iota.
  destruct ((interval <? - SLEEP_MAX)%Z || (SLEEP_MAX <? interval)%Z) eqn:Hrange;
    [done|].
  apply orb_false_iff in Hrange as [Hlo Hhi].
  apply Z.ltb_ge in Hlo, Hhi.
  destruct (Z.ltb_spec interval 0); [done|].
  destruct Hbad. by split.
Qed.





End DaemonClaims.

(** ** The claims at concrete inputs *)

Section Instances.

Lemma run_once_acquisition_failure_witness :
  check_routes (config_local true snapshot_path) env_no_routes
    (started (world_with snapshot_path two_routes))
  = (Ret None, not_acquired (world_with snapshot_path two_routes))
  ∧ run_once (config_local true snapshot_path) env_no_routes
      (world_with snapshot_path two_routes)
    = (Ret false,
       add_log (not_acquired (world_with snapshot_path two_routes))
         [(ERROR, u "Failed to retrieve routing table")])
  ∧ fs (run_once (config_local true snapshot_path) env_no_routes
          (world_with snapshot_path two_routes)).2
    = fs (world_with snapshot_path two_routes)
  ∧ stored (config_local true snapshot_path)
      (run_once (config_local true snapshot_path) env_no_routes
         (world_with snapshot_path two_routes)).2
    = stored (config_local true snapshot_path) (world_with snapshot_path two_routes).
Proof.
  split; [vm_compute; reflexivity|].
  apply (run_once_acquisition_failure (config_local true snapshot_path) env_no_routes).
  vm_compute. reflexivity.
Defined.

Lemma report_of_reordering_witness :
  two_routes ≠ two_routes_swapped
  ∧ splitlines two_routes ≡ₚ splitlines two_routes_swapped
  ∧ ∃ r, compare two_routes two_routes_swapped = Some r
         ∧ unchanged r = false
         ∧ diffLines r ≠ []
         ∧ added r = ∅
         ∧ removed r = ∅.
Proof.
  assert (Hne : two_routes ≠ two_routes_swapped).
  { intros E. vm_compute in E. discriminate E. }
  assert (Hperm : splitlines two_routes ≡ₚ splitlines two_routes_swapped).
  { vm_compute. apply perm_swap. }
  split; [exact Hne|]. split; [exact Hperm|].
  exact (report_of_reordering two_routes two_routes_swapped Hne Hperm).
Defined.

Lemma run_once_first_run_witness :
  check_routes (config_local true snapshot_path) env_ok (started empty_world)
  = (Ret (Some two_routes), acquired empty_world)
  ∧ load_previous_snapshot (config_local true snapshot_path) env_ok
      (acquired empty_world)
    = (Ret None, acquired empty_world)
  ∧ ∃ w4 w5 stats_records,
      collect_network_stats (config_local true snapshot_path) env_ok
        (add_log (acquired empty_world) (first_run_report two_routes))
      = (Ret tt, w4)
      ∧ log w4 = log (acquired empty_world) ++ first_run_report two_routes
                 ++ stats_records
      ∧ fs w4 = fs empty_world
      ∧ save_snapshot (config_local true snapshot_path) env_ok two_routes w4
        = (Ret tt, w5)
      ∧ run_once (config_local true snapshot_path) env_ok empty_world
        = (Ret true, add_log w5 [completed])
      ∧ (store_previous (config_local true snapshot_path) = false → w5 = w4)
      ∧ (store_previous (config_local true snapshot_path) = true →
         log w5 = log w4 →
         stored (config_local true snapshot_path) w5 = Some two_routes).
Proof.
  assert (Hcheck :
    check_routes (config_local true snapshot_path) env_ok (started empty_world)
    = (Ret (Some two_routes), acquired empty_world)) by (vm_compute; reflexivity).
  assert (Hload :
    load_previous_snapshot (config_local true snapshot_path) env_ok
      (acquired empty_world)
    = (Ret None, acquired empty_world)) by (vm_compute; reflexivity).
  split; [exact Hcheck|]. split; [exact Hload|].
  exact (run_once_first_run (config_local true snapshot_path) env_ok
           empty_world (acquired empty_world) (acquired empty_world) two_routes
           Hcheck Hload).
Defined.

(** C6 as stated fails with persistence off: the acquisition succeeds,
    there is no previous snapshot, the cycle returns [True], and the
    snapshot file does not hold the current snapshot afterwards. *)
Lemma first_run_without_store_not_persisted :
  check_routes (config_local false snapshot_path) env_ok (started empty_world)
  = (Ret (Some two_routes), acquired empty_world)
  ∧ load_previous_snapshot (config_local false snapshot_path) env_ok
      (acquired empty_world)
    = (Ret None, acquired empty_world)
  ∧ (run_once (config_local false snapshot_path) env_ok empty_world).1 = Ret true
  ∧ stored (config_local false snapshot_path)
      (run_once (config_local false snapshot_path) env_ok empty_world).2
    ≠ Some two_routes.
Proof.
  split_and!; [vm_compute; reflexivity..|].
  intros E. vm_compute in E. discriminate E.
Qed.

Lemma stats_failure_contained_witness :
  check_routes (config_local true snapshot_path) env_stats_failing (started empty_world)
  = (Ret (Some two_routes), acquired empty_world)
  ∧ (∃ w', collect_network_stats (config_local true snapshot_path) env_stats_failing
             empty_world = (Ret tt, w')
           ∧ fs w' = fs empty_world)
  ∧ stats_body (config_local true snapshot_path) env_stats_failing
      (add_log empty_world [(INFO, u "Network Statistics:"); (INFO, rule "-")])
    = (Raise access_denied,
       mkWorld (mkFS ∅ ∅) [(INFO, u "Network Statistics:"); (INFO, rule "-")] 1)
  ∧ collect_network_stats (config_local true snapshot_path) env_stats_failing
      empty_world
    = (Ret tt,
       add_log
         (mkWorld (mkFS ∅ ∅) [(INFO, u "Network Statistics:"); (INFO, rule "-")] 1)
         [stats_error access_denied; (INFO, rule "=")])
  ∧ ∃ previous w2 w4 w5,
      load_previous_snapshot (config_local true snapshot_path) env_stats_failing
        (acquired empty_world) = (Ret previous, w2)
      ∧ collect_network_stats (config_local true snapshot_path) env_stats_failing
          (add_log w2 (report_records previous two_routes)) = (Ret tt, w4)
      ∧ save_snapshot (config_local true snapshot_path) env_stats_failing
          two_routes w4 = (Ret tt, w5)
      ∧ run_once (config_local true snapshot_path) env_stats_failing empty_world
        = (Ret true, add_log w5 [completed])
      ∧ (store_previous (config_local true snapshot_path) = false → w5 = w4)
      ∧ (store_previous (config_local true snapshot_path) = true →
         log w5 = log w4 →
         stored (config_local true snapshot_path) w5 = Some two_routes).
Proof.
  assert (Hcheck :
    check_routes (config_local true snapshot_path) env_stats_failing
      (started empty_world)
    = (Ret (Some two_routes), acquired empty_world)) by (vm_compute; reflexivity).
  assert (Hbody :
    stats_body (config_local true snapshot_path) env_stats_failing
      (add_log empty_world [(INFO, u "Network Statistics:"); (INFO, rule "-")])
    = (Raise access_denied,
       mkWorld (mkFS ∅ ∅) [(INFO, u "Network Statistics:"); (INFO, rule "-")] 1))
    by (vm_compute; reflexivity).
  destruct (stats_failure_contained (config_local true snapshot_path) env_stats_failing)
    as (Hstats & Hcaught & Hcycle).
  split; [exact Hcheck|]. split; [exact (Hstats empty_world)|].
  split; [exact Hbody|]. split; [exact (Hcaught _ _ _ eq_refl Hbody)|].
  exact (Hcycle empty_world (acquired empty_world) two_routes Hcheck).
Defined.

(** C8 as stated fails with persistence off: the statistics step fails,
    the failure is logged, the cycle returns [True], and the snapshot
    file does not hold the current snapshot afterwards. *)
Lemma stats_failure_without_store_not_persisted :
  run_once (config_local false snapshot_path) env_stats_failing empty_world
  = (Ret true,
     mkWorld (mkFS ∅ ∅)
       ([(INFO, u "Starting single route check...");
         (INFO, u "Successfully retrieved local routing table")]
        ++ first_run_report two_routes
        ++ [(INFO, u "Network Statistics:"); (INFO, rule "-");
            stats_error access_denied; (INFO, rule "=");
            completed])
       2)
  ∧ stored (config_local false snapshot_path)
      (run_once (config_local false snapshot_path) env_stats_failing empty_world).2
    ≠ Some two_routes.
Proof.
  split; [vm_compute; reflexivity|].
  intros E. vm_compute in E. discriminate E.
Qed.



Lemma store_previous_off_witness :
  store_previous (config_local false snapshot_path) = false
  ∧ (∀ w, load_previous_snapshot (config_local false snapshot_path) env_ok w
          = (Ret None, w))
  ∧ (∀ routes w, save_snapshot (config_local false snapshot_path) env_ok routes w
                 = (Ret tt, w))
  ∧ (∀ w, fs (run_once (config_local false snapshot_path) env_ok w).2 = fs w)
  ∧ (∀ w w1 current,
       check_routes (config_local false snapshot_path) env_ok (started w)
       = (Ret (Some current), w1) →
       ∃ w4, collect_network_stats (config_local false snapshot_path) env_ok
               (add_log w1 (first_run_report current)) = (Ret tt, w4)
             ∧ run_once (config_local false snapshot_path) env_ok w
               = (Ret true, add_log w4 [completed]))
  ∧ (∀ w w1,
       check_routes (config_local false snapshot_path) env_ok (started w)
       = (Ret None, w1) →
       run_once (config_local false snapshot_path) env_ok w
       = (Ret false, add_log w1 [(ERROR, u "Failed to retrieve routing table")])).
Proof.
  split; [reflexivity|].
  apply (store_previous_off (config_local false snapshot_path) env_ok).
  reflexivity.
Defined.

(** C10 as stated fails when the acquisition fails: with persistence off
    the cycle then returns [False] and no first-run report is logged. *)
Lemma store_off_acquisition_failure_not_success :
  store_previous (config_local false snapshot_path) = false
  ∧ run_once (config_local false snapshot_path) env_no_routes empty_world
    = (Ret false,
       mkWorld (mkFS ∅ ∅)
         [(INFO, u "Starting single route check...");
          (ERROR, u "Command failed with return code 2");
          (ERROR, u "Error: Cannot open netlink socket");
          (ERROR, u "Failed to retrieve routing table")]
         1).
Proof. split; [reflexivity|]. vm_compute. reflexivity. Qed.



End Instances.

(** ** The scenario of the specification *)

Section Examples.

Example changed_route_report :
  compare two_routes two_routes_changed
  = Some (mkChangeReport false
            [u "--- Previous Routes"; u "+++ Current Routes"; u "@@ -1,2 +1,2 @@";
             u " 10.0.0.0/8 via eth0" ++ [LF];
             u "-192.168.1.0/24 via eth1" ++ [LF];
             u "+192.168.2.0/24 via eth1" ++ [LF]]
            {[ u "192.168.2.0/24 via eth1" ]}
            {[ u "192.168.1.0/24 via eth1" ]}).
Proof. vm_compute. reflexivity. Qed.

Example changed_route_log :
  (compare_and_log_changes two_routes two_routes_changed empty_world).2
  = mkWorld (mkFS ∅ ∅)
      [(INFO, u "Route change detected!");
       (INFO, rule "-");
       (INFO, u "Routing table diff:");
       (INFO, u "--- Previous Routes");
       (INFO, u "+++ Current Routes");
       (INFO, u "@@ -1,2 +1,2 @@");
       (INFO, u " 10.0.0.0/8 via eth0");
       (INFO, u "-192.168.1.0/24 via eth1");
       (INFO, u "+192.168.2.0/24 via eth1");
       (INFO, rule "-");
       (INFO, u "Added routes:");
       (INFO, u "  + 192.168.2.0/24 via eth1");
       (INFO, u "Removed routes:");
       (INFO, u "  - 192.168.1.0/24 via eth1");
       (INFO, rule "=")]
      0.
Proof. vm_compute. reflexivity. Qed.

Example reordered_routes_log :
  (compare_and_log_changes two_routes two_routes_swapped empty_world).2
  = mkWorld (mkFS ∅ ∅)
      [(INFO, u "Route change detected!");
       (INFO, rule "-");
       (INFO, u "Routing table diff:");
       (INFO, u "--- Previous Routes");
       (INFO, u "+++ Current Routes");
       (INFO, u "@@ -1,2 +1,2 @@");
       (INFO, u "+192.168.1.0/24 via eth1");
       (INFO, u " 10.0.0.0/8 via eth0");
       (INFO, u "-192.168.1.0/24 via eth1");
       (INFO, rule "-");
       (INFO, rule "=")]
      0.
Proof. vm_compute. reflexivity. Qed.

Example splitlines_boundaries :
  splitlines (u "a" ++ [CR; LF] ++ u "b" ++ [LF; LF] ++ u "c")
  = [u "a"; u "b"; []; u "c"]
  ∧ splitlines_keepends (u "a" ++ [CR; LF] ++ u "b" ++ [LF; LF] ++ u "c")
    = [u "a" ++ [CR; LF]; u "b" ++ [LF]; [LF]; u "c"].
Proof. split; reflexivity. Qed.

Example dirname_samples :
  os_path_dirname (u "/var/lib/tracker/snapshot.txt") = u "/var/lib/tracker"
  ∧ os_path_dirname (u "snapshot.txt") = []
  ∧ os_path_dirname (u "/snapshot.txt") = u "/".
Proof. repeat split; reflexivity. Qed.

End Examples.

(** * Further properties of the tracker *)

Import DiffLines CycleSpec FormatSpec Routers.

(** Running code of the monad on a state. *)
Ltac run :=
  unfold mbind, M_bind, bind, mret, M_ret, ret, call, logging, raise,
    try_except, get_fs, get_tick, set_fs, of_option;
  simpl.

(** ** Formatting byte counts *)

Section FormatFacts.
Local Open Scope N_scope.

Lemma format_decimal_fuel_value (fuel : nat) (n : N) (acc : str) :
  n < 2 ^ N.of_nat fuel →
  ∃ ds, Format.decimalN_fuel fuel n acc = ds ++ acc
        ∧ digits_value ds = N.to_nat n.
Proof.
  revert n acc. induction fuel as [|fuel IH]; intros n acc Hn.
  { exists []. split; [done|]. simpl in Hn. unfold digits_value. simpl. lia. }
  cbn [Format.decimalN_fuel].
  assert (Hdm : n = 10 * (n / 10) + n mod 10) by (apply N.div_mod; lia).
  assert (Hmod : n mod 10 < 10) by (apply N.mod_lt; lia).
  assert (Hdigit : (N.to_nat (48 + n mod 10) - 48 = N.to_nat (n mod 10))%nat).
  { rewrite N2Nat.inj_add. change (N.to_nat 48) with 48%nat.
    generalize (N.to_nat (n mod 10)). intros d. lia. }
  destruct (N.eqb_spec (n / 10) 0) as [Hz|Hnz].
  - exists [48 + n mod 10]. split; [done|].
    unfold digits_value. cbn [fold_left]. rewrite Hdigit. lia.
  - assert (Hlt : n / 10 < 2 ^ N.of_nat fuel).
    { rewrite Nat2N.inj_succ, N.pow_succ_r' in Hn. lia. }
    destruct (IH (n / 10) ((48 + n mod 10) :: acc) Hlt) as (ds & -> & Hds).
    exists (ds ++ [48 + n mod 10]). split; [by rewrite <- app_assoc|].
    unfold digits_value in *. rewrite fold_left_app, Hds. cbn [fold_left].
    rewrite Hdigit. lia.
Qed.

(** [Format.decimalN] has fuel for all the digits of its argument. *)
Lemma format_decimal_value (n : N) : digits_value (Format.decimalN n) = N.to_nat n.
Proof.
  unfold Format.decimalN.
  destruct (format_decimal_fuel_value (S (N.to_nat (N.size n))) n [])
    as (ds & -> & Hds); [|by rewrite app_nil_r].
  rewrite Nat2N.inj_succ, N2Nat.id, N.pow_succ_r'.
  pose proof (N.size_gt n). lia.
Qed.

Lemma round_half_even_nearest (x d : N) :
  0 < d →
  2 * (Format.round_half_even x d * d) ≤ 2 * x + d
  ∧ 2 * x ≤ 2 * (Format.round_half_even x d * d) + d.
Proof.
  intros Hd. unfold Format.round_half_even.
  assert (Hdm : x = d * (x / d) + x mod d) by (apply N.div_mod; lia).
  assert (Hmod : x mod d < d) by (apply N.mod_lt; lia).
  set (q := x / d) in *. set (r := x mod d) in *. clearbody q r.
  destruct (N.ltb_spec (2 * r) d).
  - subst x. lia.
  - destruct (N.eqb_spec (2 * r) d); destruct (N.even q); cbn [andb]; subst x; lia.
Qed.

Lemma size_small (n : N) (k : N) : n < 2 ^ k → N.size n ≤ k.
Proof.
  intros Hn. destruct (N.le_gt_cases (N.size n) k) as [|Hgt]; [done|].
  exfalso. pose proof (N.size_le n) as Hle.
  assert (2 ^ N.succ k ≤ 2 ^ N.size n) by (apply N.pow_le_mono_r; lia).
  rewrite N.pow_succ_r' in *. lia.
Qed.

Lemma to_float_exact (n : N) : n < 2 ^ 53 → Format.to_float n = Some n.
Proof.
  intros Hn. unfold Format.to_float.
  apply size_small in Hn. by apply N.leb_le in Hn as ->.
Qed.

Lemma hundredths_whole (n : N) :
  Format.hundredths (100 * n) = Format.decimalN n ++ u ".00".
Proof.
  unfold Format.hundredths.
  rewrite N.mul_comm, N.div_mul by lia.
  rewrite N.Div0.mod_mul.
  replace (n * 100) with (n * 10 * 10) by lia. rewrite N.Div0.mod_mul.
  done.
Qed.

Lemma format_loop_float (units : list string) (m e : N) :
  ∃ s, Format.format_loop units (Format.Float m e) = Ok s.
Proof.
  revert e. induction units as [|unit units IH]; intros e;
    cbn [Format.format_loop Format.format_2f Format.below_1024 Format.div_1024];
    [by eexists|].
  destruct (m <? N.shiftl 1024 e); [by eexists|apply IH].
Qed.

Lemma format_loop_step (unit : string) (rest : list string) (m e : N) :
  Format.format_loop (unit :: rest) (Format.Float m e)
  = if m <? N.shiftl 1024 e
    then Ok (Format.hundredths (Format.round_half_even (100 * m) (N.shiftl 1 e))
               ++ u " " ++ u unit)
    else Format.format_loop rest (Format.Float m (e + 10)).
Proof. reflexivity. Qed.

Lemma shiftl_unit_size (k : nat) :
  N.shiftl 1024 (10 * N.of_nat k) = unit_size (S k)
  ∧ N.shiftl 1 (10 * N.of_nat k) = unit_size k.
Proof.
  unfold unit_size. rewrite !N.shiftl_mul_pow2, N.pow_mul_r, Nat2N.inj_succ,
    N.pow_succ_r', N.mul_1_l.
  by change (2 ^ 10) with 1024.
Qed.

Lemma unit_size_mono (j k : nat) : (j ≤ k)%nat → unit_size j ≤ unit_size k.
Proof. intros Hjk. unfold unit_size. apply N.pow_le_mono_r; lia. Qed.

(** The loop from the unit of index [j] on, for a float [m / 1024^j]:
    the first unit under which the value is below 1024 is chosen. *)
Lemma format_loop_from (j k : nat) (m : N) :
  (1 ≤ j ≤ k)%nat → (k ≤ 5)%nat →
  unit_size k ≤ m →
  ((k < 5)%nat → m < unit_size (S k)) →
  Format.format_loop (drop j Format.units) (Format.Float m (10 * N.of_nat j))
  = Ok (Format.hundredths (Format.round_half_even (100 * m) (unit_size k))
          ++ u " " ++ u (unit_name k)).
Proof.
  intros Hjk Hk Hlo Hhi.
  remember (k - j)%nat as gap eqn:Hgap. revert j Hjk Hgap.
  induction gap as [|gap IH]; intros j Hjk Hgap.
  - assert (j = k) as -> by lia.
    destruct (decide (k = 5%nat)) as [->|Hk5].
    + cbn [Format.units drop Format.format_loop Format.format_2f].
      by rewrite (proj2 (shiftl_unit_size 5)).
    + assert (Hunits : ∃ rest, drop k Format.units = unit_name k :: rest).
      { assert (k = 1%nat ∨ k = 2%nat ∨ k = 3%nat ∨ k = 4%nat) as [->|[->|[->| ->]]] by lia;
          by eexists. }
      destruct Hunits as [rest ->]. rewrite format_loop_step.
      rewrite (proj1 (shiftl_unit_size k)), (proj2 (shiftl_unit_size k)).
      by rewrite (proj2 (N.ltb_lt _ _)) by (apply Hhi; lia).
  - assert (Hunits : ∃ rest, drop j Format.units = unit_name j :: rest
                             ∧ drop (S j) Format.units = rest).
    { assert (j = 1%nat ∨ j = 2%nat ∨ j = 3%nat ∨ j = 4%nat) as [->|[->|[->| ->]]] by lia;
        by eexists. }
    destruct Hunits as (rest & -> & <-). rewrite format_loop_step.
    rewrite (proj1 (shiftl_unit_size j)).
    rewrite (proj2 (N.ltb_ge _ _)).
    2:{ etrans; [|exact Hlo]. apply unit_size_mono. lia. }
    replace (10 * N.of_nat j + 10) with (10 * N.of_nat (S j)) by lia.
    apply IH; lia.
Qed.

Lemma format_bytes_below_1024 (n : N) :
  n < 1024 → Format.format_bytes n = Ok (Format.decimalN n ++ u ".00 B").
Proof.
  intros Hn. unfold Format.format_bytes.
  cbn [Format.units Format.format_loop Format.below_1024 Format.format_2f].
  rewrite (proj2 (N.ltb_lt _ _)) by done.
  rewrite to_float_exact by (change (2 ^ 53) with 9007199254740992; lia).
  rewrite hundredths_whole. by rewrite <- app_assoc.
Qed.

Lemma format_bytes_from_1024 (n : N) :
  1024 ≤ n →
  Format.format_bytes n
  = match Format.to_float n with
    | Some f => Format.format_loop (drop 1 Format.units) (Format.Float f (10 * N.of_nat 1))
    | None => Fail Format.overflow.1 Format.overflow.2
    end.
Proof.
  intros Hn. unfold Format.format_bytes.
  cbn [Format.units Format.format_loop Format.below_1024 Format.div_1024].
  rewrite (proj2 (N.ltb_ge _ _)) by done.
  by destruct (Format.to_float n).
Qed.

(** The conversion to [float] succeeds below [2^1023] and fails from
    [2^1024] on. *)
Lemma to_float_range (n : N) :
  (N.size n ≤ 1023 → is_Some (Format.to_float n))
  ∧ (2 ^ 1024 ≤ n → Format.to_float n = None).
Proof.
  unfold Format.to_float.
  pose proof (N.size_gt n) as Hgt. pose proof (N.size_le n) as Hle.
  set (bits := N.size n) in *. clearbody bits.
  destruct (N.leb_spec bits 53) as [Hsmall|Hbig].
  { split; [by eexists|]. intros Hn.
    assert (2 ^ bits ≤ 2 ^ 53) by (apply N.pow_le_mono_r; lia).
    assert (2 ^ 53 < 2 ^ 1024) by (apply N.pow_lt_mono_r; lia). lia. }
  set (shift := bits - 53).
  assert (Hbits : bits = 53 + shift) by lia.
  assert (Hpow : 2 ^ bits = 2 ^ 53 * 2 ^ shift) by (by rewrite Hbits, N.pow_add_r).
  assert (Hpos : 0 < 2 ^ shift) by (apply N.neq_0_lt_0, N.pow_nonzero; lia).
  rewrite N.shiftr_div_pow2, N.shiftl_1_l.
  set (q := n / 2 ^ shift).
  assert (Hq_hi : q < 2 ^ 53).
  { apply N.Div0.div_lt_upper_bound. lia. }
  assert (Hq_lo : 2 ^ 52 ≤ q).
  { apply N.div_le_lower_bound; [lia|].
    assert (2 ^ 53 = 2 * 2 ^ 52) by (by rewrite <- N.pow_succ_r').
    unfold N.succ_double in Hle. destruct n as [|p]; [lia|]. nia. }
  match goal with |- context [if ?c then q + 1 else q] => set (up := c) end.
  assert (Hq' : q ≤ (if up then q + 1 else q) ∧ (if up then q + 1 else q) ≤ 2 ^ 53).
  { destruct up; lia. }
  set (q' := if up then q + 1 else q) in *. clearbody q'.
  rewrite N.shiftl_mul_pow2.
  split.
  - intros Hn. rewrite (proj2 (N.leb_gt _ _)); [by eexists|].
    assert (2 ^ bits ≤ 2 ^ 1023) by (apply N.pow_le_mono_r; lia).
    assert (2 ^ 1023 < 2 ^ 1024) by (apply N.pow_lt_mono_r; lia).
    nia.
  - intros Hn. rewrite (proj2 (N.leb_le _ _)); [done|].
    assert (2 ^ 53 = 2 * 2 ^ 52) by (by rewrite <- N.pow_succ_r').
    assert (2 ^ 52 * 2 ^ shift ≤ q' * 2 ^ shift) by (apply N.mul_le_mono_r; lia).
    destruct (N.le_gt_cases bits 1024) as [Hb|Hb].
    + assert (2 ^ bits ≤ 2 ^ 1024) by (apply N.pow_le_mono_r; lia). lia.
    + assert (2 ^ 1025 ≤ 2 ^ bits) by (apply N.pow_le_mono_r; lia).
      assert (2 ^ 1025 = 2 * 2 ^ 1024) by (by rewrite <- N.pow_succ_r').
      lia.
Qed.

(** [format_bytes] returns for every count of at most 1023 bits. *)
Lemma format_bytes_returns (n : N) :
  N.size n ≤ 1023 → ∃ s, Format.format_bytes n = Ok s.
Proof.
  intros Hsize. destruct (N.lt_ge_cases n 1024) as [Hsmall|Hbig].
  - rewrite format_bytes_below_1024 by done. by eexists.
  - rewrite format_bytes_from_1024 by done.
    destruct (proj1 (to_float_range n) Hsize) as [f ->]. apply format_loop_float.
Qed.

(** The counters of [psutil] are 64-bit: their text is always there. *)
Lemma format_bytes_u64 (count : u64) :
  Format.format_bytes (proj1_sig count) = Ok (bytes_text count).
Proof.
  unfold bytes_text. destruct count as [n Hn]. cbn [proj1_sig].
  apply N.ltb_lt in Hn. apply size_small in Hn.
  destruct (format_bytes_returns n) as [s ->]; [lia|done].
Qed.

End FormatFacts.

(** ** Acquisition *)

Section Acquisition.
Variable config : Config.
Variable env : Env.

(** X1.  [get_routes_ssh] returns the output of the command exactly
    when Netmiko is installed, SSH is enabled in the configuration, and
    connecting, sending the command and disconnecting all succeed; the
    command is ['show ip route'] and the port 22 unless configured.
    Without Netmiko or with SSH disabled it returns [None] after one
    error record and tries no connection.  An output already received
    is dropped when the disconnect fails. *)
Theorem get_routes_ssh_output (w : World) (output : str) :
  ((get_routes_ssh config env w).1 = Ret (Some output)
   ↔ NETMIKO_AVAILABLE env = true
     ∧ default false (ssh_enabled (ssh_config config)) = true
     ∧ ConnectHandler env (tick w) (ssh_device config) = Ok tt
     ∧ send_command env (S (tick w)) (ssh_command config) = Ok output
     ∧ disconnect env (S (S (tick w))) = Ok tt)
  ∧ (NETMIKO_AVAILABLE env = false
     ∨ default false (ssh_enabled (ssh_config config)) = false →
     ∃ message,
       get_routes_ssh config env w = (Ret None, add_log w [(ERROR, message)]))
  ∧ (∀ cls message,
       NETMIKO_AVAILABLE env = true →
       default false (ssh_enabled (ssh_config config)) = true →
       ConnectHandler env (tick w) (ssh_device config) = Ok tt →
       send_command env (S (tick w)) (ssh_command config) = Ok output →
       disconnect env (S (S (tick w))) = Fail cls message →
       (get_routes_ssh config env w).1 = Ret None
       ∧ last (log (get_routes_ssh config env w).2)
         = Some (ERROR, u "SSH connection failed: " ++ message)).
Proof.
  unfold get_routes_ssh.
  destruct (NETMIKO_AVAILABLE env); cbn [negb]; last first.
  { split_and!.
    - split; [done|]. by intros (? & _).
    - intros _. by eexists.
    - by intros. }
  destruct (default false (ssh_enabled (ssh_config config))); cbn [negb]; last first.
  { split_and!.
    - split; [done|]. by intros (_ & ? & _).
    - intros _. by eexists.
    - by intros. }
  fold (ssh_device config). fold (ssh_command config). run.
  destruct (ConnectHandler env (tick w) (ssh_device config)) as [[]|c1 m1]; simpl.
  2:{ split_and!; [|by intros [|]|by intros].
      split; [done|]. by intros (_ & _ & ? & _). }
  destruct (send_command env (S (tick w)) (ssh_command config)) as [out|c2 m2]; simpl.
  2:{ split_and!; [|by intros [|]|by intros].
      split; [done|]. by intros (_ & _ & _ & ? & _). }
  destruct (disconnect env (S (S (tick w)))) as [[]|c3 m3]; simpl.
  - split_and!; [|by intros [|]|by intros].
    split; [by intros [= ->]|]. by intros (_ & _ & _ & [= ->] & _).
  - split_and!; [|by intros [|]|].
    + split; [done|]. by intros (_ & _ & _ & _ & ?).
    + intros cls message _ _ _ _ [= -> ->]. split; [done|]. by rewrite last_snoc.
Qed.

(** X2.  [get_routes_local] returns the standard output of the command
    exactly when the subprocess ends with return code 0; a non-zero
    code, a timeout and any other exception all give [None], each with
    its own error records. *)
Theorem get_routes_local_output (w : World) :
  (∀ stdout,
     (get_routes_local config env w).1 = Ret (Some stdout)
     ↔ ∃ stderr,
         subprocess_run env (tick w) (split (local_command config))
           (check_timeout config) = Ok (0%Z, stdout, stderr))
  ∧ (∀ returncode stdout stderr,
       subprocess_run env (tick w) (split (local_command config))
         (check_timeout config) = Ok (returncode, stdout, stderr) →
       returncode ≠ 0%Z →
       get_routes_local config env w
       = (Ret None,
          add_log (ticked w)
            [(ERROR, u "Command failed with return code " ++ decimalZ returncode);
             (ERROR, u "Error: " ++ stderr)]))
  ∧ (∀ message,
       subprocess_run env (tick w) (split (local_command config))
         (check_timeout config) = Fail "TimeoutExpired" message →
       get_routes_local config env w
       = (Ret None,
          add_log (ticked w)
            [(ERROR, u "Command timed out after "
                       ++ decimalZ (check_timeout config) ++ u " seconds")]))
  ∧ (∀ cls message,
       subprocess_run env (tick w) (split (local_command config))
         (check_timeout config) = Fail cls message →
       cls ≠ "TimeoutExpired"%string →
       get_routes_local config env w
       = (Ret None,
          add_log (ticked w)
            [(ERROR, u "Error executing local command: " ++ message)])).
Proof.
  unfold get_routes_local, add_log, ticked. run.
  destruct (subprocess_run env (tick w) (split (local_command config))
              (check_timeout config)) as [[[rc out] err]|cls m] eqn:Hrun; simpl.
  - destruct (Z.eqb_spec rc 0) as [->|Hrc]; simpl.
    + split_and!.
      * intros stdout. split; [intros [= ->]; by exists err|]. by intros (? & [= -> _]).
      * by intros ? ? ? [= <- _ _] ?.
      * done.
      * done.
    + split_and!.
      * intros stdout. split; [done|]. intros (? & [= ? _ _]). done.
      * intros ? ? ? [= <- <- <-] _. by rewrite <- app_assoc.
      * done.
      * done.
  - split_and!.
    + intros stdout. split; [|by intros (? & ?)].
      by destruct (bool_decide (cls = "TimeoutExpired"%string)).
    + done.
    + intros message [= -> ->]. by rewrite bool_decide_eq_true_2.
    + intros ? ? [= <- <-] Hcls. by rewrite bool_decide_eq_false_2.
Qed.

(** X3.  [check_routes] always returns, never touches the file system,
    and reports how it went: its last record is an INFO record when it
    returns the routes and an ERROR record when it returns [None].  A
    mode other than ['ssh'] and ['local'] gives [None] after one error
    record that names the mode, without any call to the outside. *)
Theorem check_routes_reports (w : World) :
  ∃ r w',
    check_routes config env w = (Ret r, w')
    ∧ fs w' = fs w
    ∧ match r with
      | Some _ => ends_with_level INFO w'
      | None => ends_with_level ERROR w'
      end
    ∧ (mode config ≠ u "ssh" → mode config ≠ u "local" →
       r = None
       ∧ w' = add_log w [(ERROR, u "Invalid mode: " ++ mode config
                                   ++ u ". Must be 'ssh' or 'local'")]).
Proof.
  unfold check_routes, get_routes_ssh, get_routes_local, ends_with_level. run.
  repeat case_bool_decide; repeat case_match; simplify_eq; simpl;
    eexists _, _; (split; [reflexivity|]); (split; [done|]);
    (split; [simpl; rewrite ?last_snoc; by eexists|]);
    intros; done.
Qed.

End Acquisition.

(** ** The snapshot file *)

Section Newlines.

Lemma splitlines_from_break (keepends : bool) (cur rest : str) (c : N) :
  is_linebreak c = true → c ≠ CR →
  splitlines_from keepends cur (c :: rest)
  = (cur ++ if keepends then [c] else []) :: splitlines_from keepends [] rest.
Proof.
  intros Hc Hcr. cbn [splitlines_from]. rewrite Hc.
  apply N.eqb_neq in Hcr. rewrite Hcr. by destruct rest.
Qed.

Lemma splitlines_from_universal (n : nat) (s cur : str) :
  length s ≤ n →
  splitlines_from false cur (universal_newlines s) = splitlines_from false cur s.
Proof.
  revert s cur. induction n as [|n IH]; intros s cur Hn.
  { destruct s; [done|simpl in Hn; lia]. }
  destruct s as [|c rest]; [done|]. simpl in Hn.
  cbn [universal_newlines].
  destruct (N.eqb_spec c CR) as [->|Hc].
  - rewrite splitlines_from_break by done.
    destruct rest as [|c' rest']; [done|].
    cbn [splitlines_from]. cbn [is_linebreak CR N.leb N.compare Pos.compare Pos.compare_cont
                               andb orb N.eqb Pos.eqb app].
    change (is_linebreak CR) with true. cbv iota.
    change (CR =? CR)%N with true. cbn [andb].
    simpl in Hn.
    destruct (c' =? LF)%N.
    + f_equal. apply IH. lia.
    + f_equal. apply IH. simpl. lia.
  - destruct (is_linebreak c) eqn:Hbr.
    + rewrite !splitlines_from_break by done. f_equal. apply IH. lia.
    + cbn [splitlines_from]. rewrite Hbr. apply IH. lia.
Qed.

(** Reading in text mode does not change the lines of a text. *)
Lemma splitlines_universal (s : str) :
  splitlines (universal_newlines s) = splitlines s.
Proof. by apply (splitlines_from_universal (length s)). Qed.

Lemma universal_newlines_no_CR (s : str) : CR ∉ universal_newlines s.
Proof.
  assert (H : ∀ n s, length s ≤ n → CR ∉ universal_newlines s).
  { clear s. induction n as [|n IH]; intros s Hn.
    { destruct s; [apply not_elem_of_nil|simpl in Hn; lia]. }
    destruct s as [|c rest]; [apply not_elem_of_nil|]. simpl in Hn.
    cbn [universal_newlines].
    destruct (N.eqb_spec c CR) as [->|Hc].
    - apply not_elem_of_cons. split; [done|].
      destruct rest as [|c' rest']; [apply not_elem_of_nil|]. simpl in Hn.
      destruct (c' =? LF)%N; apply IH; simpl; lia.
    - apply not_elem_of_cons. split; [done|]. apply IH. lia. }
  by apply (H (length s)).
Qed.

Lemma universal_newlines_id (s : str) : CR ∉ s → universal_newlines s = s.
Proof.
  induction s as [|c rest IH]; [done|].
  intros [Hc Hrest]%not_elem_of_cons. cbn [universal_newlines].
  apply not_eq_sym, N.eqb_neq in Hc. rewrite Hc. by rewrite IH.
Qed.

Lemma universal_newlines_fixed (s : str) : universal_newlines s = s ↔ CR ∉ s.
Proof.
  split; [|apply universal_newlines_id].
  intros <-. apply universal_newlines_no_CR.
Qed.

End Newlines.

Section Store.
Variable config : Config.
Variable env : Env.

(** The load step, case by case. *)
Lemma load_previous_snapshot_cases (w : World) :
  store_previous config = true →
  match stored config w with
  | Some on_disk =>
      match read_fault env (tick w) (snapshot_file config) with
      | None =>
          load_previous_snapshot config env w
          = (Ret (Some (universal_newlines on_disk)), ticked w)
      | Some (cls, message) =>
          load_previous_snapshot config env w
          = (Ret None,
             add_log (ticked w)
               [(WARNING, u "Could not load previous snapshot: " ++ message)])
      end
  | None =>
      if bool_decide (snapshot_file config ∈ dirs (fs w))
      then load_previous_snapshot config env w
           = (Ret None,
              add_log (ticked w)
                [(WARNING, u "Could not load previous snapshot: "
                             ++ exn_str (EISDIR env (snapshot_file config)))])
      else load_previous_snapshot config env w = (Ret None, w)
  end.
Proof.
  intros Hon. unfold load_previous_snapshot, stored, os_path_exists, read_text, EISDIR.
  generalize (OSError_str env "21" "Is a directory" (snapshot_file config)).
  intros is_a_directory.
  rewrite Hon. cbn [negb]. run.
  destruct (files (fs w) !! snapshot_file config) as [on_disk|] eqn:Hfile.
  - rewrite bool_decide_eq_true_2 by done. simpl. rewrite Hfile.
    by destruct (read_fault env (tick w) (snapshot_file config)) as [[cls m]|].
  - rewrite (bool_decide_eq_false_2 (is_Some None)) by (by intros [? ?]).
    simpl. case_bool_decide; simpl; [|by destruct w].
    by rewrite Hfile, bool_decide_eq_true_2.
Qed.

(** X4.  With persistence on, [load_previous_snapshot] returns a text
    exactly when the snapshot file exists and is read without a fault;
    the text is the content of the file with ["\r\n"] and ["\r"] read
    as ["\n"].  A missing file gives [None] silently and leaves the
    state as it is; a fault while reading gives [None] and one
    warning. *)
Theorem load_previous_snapshot_result (w : World) :
  store_previous config = true →
  (∀ text,
     (load_previous_snapshot config env w).1 = Ret (Some text)
     ↔ ∃ on_disk,
         stored config w = Some on_disk
         ∧ read_fault env (tick w) (snapshot_file config) = None
         ∧ text = universal_newlines on_disk)
  ∧ (stored config w = None → snapshot_file config ∉ dirs (fs w) →
     load_previous_snapshot config env w = (Ret None, w))
  ∧ (∀ on_disk cls message,
       stored config w = Some on_disk →
       read_fault env (tick w) (snapshot_file config) = Some (cls, message) →
       load_previous_snapshot config env w
       = (Ret None,
          add_log (ticked w)
            [(WARNING, u "Could not load previous snapshot: " ++ message)])).
Proof.
  intros Hon. pose proof (load_previous_snapshot_cases w Hon) as Hcases.
  split_and!.
  - intros text. destruct (stored config w) as [on_disk|].
    + destruct (read_fault env (tick w) (snapshot_file config)) as [[cls m]|].
      * rewrite Hcases. simpl. split; [done|]. by intros (? & _ & ? & _).
      * rewrite Hcases. simpl. split.
        -- intros [= <-]. by exists on_disk.
        -- by intros (? & [= <-] & _ & ->).
    + split; [|by intros (? & ? & _)].
      case_bool_decide; by rewrite Hcases.
  - intros Hnone Hdir. rewrite Hnone in Hcases.
    by rewrite bool_decide_eq_false_2 in Hcases.
  - intros on_disk cls message Hsome Hfault. by rewrite Hsome, Hfault in Hcases.
Qed.

(** X5.  [save_snapshot] touches nothing but the snapshot file and the
    directories above it: every other file keeps its content, no
    directory is removed, and the directories it may create are the
    directory of the snapshot file and the heads [os.makedirs] goes up
    through.  After a save that logged nothing the directory of the
    snapshot file is there; this is shown for every directory whose last
    component is not ["."] (the model keeps no second spelling of a
    place). *)
Theorem save_snapshot_frame (routes : str) (w : World) :
  (∀ p, p ≠ snapshot_file config →
        files (fs (save_snapshot config env routes w).2) !! p = files (fs w) !! p)
  ∧ dirs (fs w) ⊆ dirs (fs (save_snapshot config env routes w).2)
  ∧ dirs (fs (save_snapshot config env routes w).2)
    ⊆ list_to_set (path_ancestors (os_path_dirname (snapshot_file config)))
      ∪ dirs (fs w)
  ∧ (store_previous config = true →
     log (save_snapshot config env routes w).2 = log w →
     (makedirs_split (os_path_dirname (snapshot_file config))).2 ≠ u "." →
     os_path_dirname (snapshot_file config)
     ∈ dirs (fs (save_snapshot config env routes w).2)).
Proof.
  assert (Hmore : ∀ (l : list LogRecord) x, l ++ [x] ≠ l).
  { intros l x E. apply (f_equal length) in E. rewrite length_app in E.
    simpl in E. lia. }
  unfold save_snapshot. destruct (store_previous config); cbn [negb]; last first.
  { cbn [snd mret M_ret ret]. split_and!; [done|done|apply union_subseteq_r|done]. }
  cbv zeta. unfold try_except. rewrite bind_eq.
  destruct (os_makedirs_run env (os_path_dirname (snapshot_file config)) w)
    as (r & w1 & -> & Hend & (Hfiles & Hlog & Hlo & Hhi) & Hdir).
  destruct Hend as [->|(cls & message & ->)]; last first.
  { cbn [is_Exception]. rewrite logging_eq. cbn [snd add_log fs log].
    split_and!; [by rewrite Hfiles|done|done|].
    intros _ E. rewrite Hlog in E. by apply Hmore in E. }
  destruct (write_text_run env (snapshot_file config) routes w1)
    as (r & w2 & -> & Hend & Hlog2 & Hdirs & Hother).
  destruct Hend as [->|(cls & message & ->)].
  - cbn [snd]. rewrite Hdirs. split_and!; [|done|done|by intros; apply Hdir].
    intros p Hp. by rewrite Hother, Hfiles.
  - cbn [is_Exception]. rewrite logging_eq. cbn [snd add_log fs log].
    rewrite Hdirs. split_and!; [|done|done|].
    + intros p Hp. by rewrite Hother, Hfiles.
    + intros _ E. rewrite Hlog2, Hlog in E. by apply Hmore in E.
Qed.

End Store.

(** ** From one cycle to the next *)


Section RoundTrip.
Variable config : Config.
Variable env : Env.

(** X6.  What a clean save wrote is what the next load reads, up to the
    newline translation of text mode: after a [save_snapshot] that
    logged no warning, [load_previous_snapshot] returns the routes with
    ["\r\n"] and ["\r"] replaced by ["\n"]; this is the text saved
    exactly when it contains no carriage return. *)
Theorem snapshot_round_trip (routes : str) (w w' : World) :
  store_previous config = true →
  save_snapshot config env routes w = (Ret tt, w') →
  log w' = log w →
  read_fault env (tick w') (snapshot_file config) = None →
  load_previous_snapshot config env w'
  = (Ret (Some (universal_newlines routes)), ticked w')
  ∧ (universal_newlines routes = routes ↔ CR ∉ routes).
Proof.
  intros Hon Hsave Hlog Hread.
  destruct (save_run config env routes w) as (w2 & Hsave2 & _ & Hstored).
  rewrite Hsave in Hsave2. injection Hsave2 as <-.
  pose proof (load_previous_snapshot_cases config env w' Hon) as Hload.
  rewrite (Hstored Hon Hlog), Hread in Hload.
  split; [done|apply universal_newlines_fixed].
Qed.

(** A text compared with what text mode reads back of it. *)
Lemma compare_read_back (routes : str) :
  CR ∈ routes →
  ∃ r, compare (universal_newlines routes) routes = Some r
       ∧ unchanged r = false ∧ diffLines r ≠ []
       ∧ added r = ∅ ∧ removed r = ∅.
Proof.
  intros Hcr.
  assert (Hne : universal_newlines routes ≠ routes).
  { intros Heq. by apply universal_newlines_fixed in Heq. }
  unfold compare. rewrite bool_decide_eq_false_2 by done.
  destruct (diff_of_nonempty _ _ Hne) as (d & Hd & Hnil).
  rewrite Hd. eexists. split; [reflexivity|]. cbn [unchanged diffLines added removed].
  split; [done|]. split; [done|].
  unfold line_set. rewrite splitlines_universal.
  split; apply difference_diag_L.
Qed.

(** X7.  A snapshot with a carriage return never compares equal to
    what is read back of it: the comparison of the stored text with the
    same routes reports a change with a non-empty diff although no
    route was added or removed. *)
Theorem carriage_return_reported_as_change (routes : str) :
  CR ∈ routes →
  ∃ r, compare (universal_newlines routes) routes = Some r
       ∧ unchanged r = false ∧ diffLines r ≠ []
       ∧ added r = ∅ ∧ removed r = ∅
       ∧ head (render r) = Some (INFO, u "Route change detected!")
       ∧ listing "Added routes:" "  + " (added r) = []
       ∧ listing "Removed routes:" "  - " (removed r) = [].
Proof.
  intros Hcr. destruct (compare_read_back routes Hcr) as (r & Hr & Hu & Hd & Ha & Hrm).
  exists r. split_and!; try done.
  - unfold render. by rewrite Hu.
  - by rewrite Ha.
  - by rewrite Hrm.
Qed.

(** X8.  The cycle that follows a cycle with the same routes.  With the
    routes on file and acquired again, the cycle reads them back,
    reports, runs the statistics and the save step and returns [True].
    The report is the single record of no change when the routes hold no
    carriage return, and a change with no route added or removed when
    they hold one. *)
Theorem run_once_same_routes (w w1 : World) (routes : str) :
  store_previous config = true →
  stored config w = Some routes →
  check_routes config env (started w) = (Ret (Some routes), w1) →
  read_fault env (tick w1) (snapshot_file config) = None →
  ∃ w4 w5,
    load_previous_snapshot config env w1
    = (Ret (Some (universal_newlines routes)), ticked w1)
    ∧ collect_network_stats config env
        (add_log (ticked w1) (report_records (Some (universal_newlines routes)) routes))
      = (Ret tt, w4)
    ∧ save_snapshot config env routes w4 = (Ret tt, w5)
    ∧ run_once config env w = (Ret true, add_log w5 [completed])
    ∧ (CR ∉ routes →
       report_records (Some (universal_newlines routes)) routes = [no_change])
    ∧ (CR ∈ routes →
       ∃ r, report_records (Some (universal_newlines routes)) routes = render r
            ∧ unchanged r = false ∧ added r = ∅ ∧ removed r = ∅).
Proof.
  intros Hon Hstored Hcheck Hread.
  destruct (run_once_after_acquisition config env w w1 routes Hcheck)
    as (previous & w2 & w4 & w5 & Hload & Hstats & Hsave & Hrun).
  pose proof (load_previous_snapshot_cases config env w1 Hon) as Hcases.
  assert (Hfs : stored config w1 = Some routes).
  { unfold stored. rewrite (check_run config env _ _ _ Hcheck). exact Hstored. }
  rewrite Hfs, Hread, Hload in Hcases. injection Hcases as -> ->.
  exists w4, w5. split_and!; try done.
  - intros Hcr. apply universal_newlines_id in Hcr. rewrite Hcr.
    unfold report_records, compare. by rewrite bool_decide_eq_true_2.
  - intros Hcr. destruct (compare_read_back routes Hcr) as (r & Hr & Hu & _ & Ha & Hrm).
    exists r. unfold report_records. by rewrite Hr.
Qed.

(** X9.  [run_once] returns [True] exactly when the acquisition gave
    the routes, and [False] exactly when it gave [None]: what happens
    while loading, comparing, collecting statistics or saving never
    changes the result.  The last record of the cycle tells which: the
    completion record after the routes, the failure record without. *)
Theorem run_once_result (w : World) :
  ((run_once config env w).1 = Ret true
   ↔ ∃ routes, (check_routes config env (started w)).1 = Ret (Some routes))
  ∧ ((run_once config env w).1 = Ret false
     ↔ (check_routes config env (started w)).1 = Ret None)
  ∧ ((run_once config env w).1 = Ret true →
     last (log (run_once config env w).2) = Some completed)
  ∧ ((run_once config env w).1 = Ret false →
     last (log (run_once config env w).2)
     = Some (ERROR, u "Failed to retrieve routing table")).
Proof.
  destruct (check_routes config env (started w)) as [r w1] eqn:Hcheck.
  destruct (check_routes_returns config env (started w)) as [current Hret].
  rewrite Hcheck in Hret. simpl in Hret. subst r. destruct current as [current|].
  - destruct (run_once_after_acquisition config env w w1 current Hcheck)
      as (previous & w2 & w4 & w5 & _ & _ & _ & ->). simpl.
    split_and!; try done.
    + split; [|done]. intros _. by exists current.
    + intros _. by rewrite last_snoc.
  - rewrite (run_once_without_routes config env w w1 Hcheck). simpl.
    split_and!; try done.
    + split; [done|]. by intros (? & ?).
    + intros _. by rewrite last_snoc.
Qed.

End RoundTrip.

Section Statistics.
Variable config : Config.
Variable env : Env.

Local Arguments rule : simpl never.
Local Arguments Format.format_bytes : simpl never.

(** X10.  Port statistics without connection statistics always fail:
    with [collect_ports] on and [collect_connections] off the variable
    [connections] is not bound when the ports are read.  When the
    traffic counters are off, or are read without a failure, the error
    logged is the [UnboundLocalError], and the interfaces are never
    listed.  The step still returns. *)
Theorem port_statistics_need_connections (w : World) :
  stats_enabled config = true →
  collect_ports config = true →
  collect_connections config = false →
  (collect_traffic config = false →
   collect_network_stats config env w
   = (Ret tt,
      add_log w (stats_heading
                 ++ [stats_error (unbound_connections env); (INFO, rule "=")])))
  ∧ (∀ net_io,
       collect_traffic config = true →
       net_io_counters env (tick w) = Ok net_io →
       collect_network_stats config env w
       = (Ret tt,
          add_log (ticked w)
            (stats_heading ++ traffic_records env net_io
             ++ [stats_error (unbound_connections env); (INFO, rule "=")])))
  ∧ (∀ cls message,
       collect_traffic config = true →
       net_io_counters env (tick w) = Fail cls message →
       collect_network_stats config env w
       = (Ret tt,
          add_log (ticked w)
            (stats_heading ++ [stats_error (Exc cls message); (INFO, rule "=")]))).
Proof.
  intros Hon Hports Hconn.
  unfold collect_network_stats, stats_body. rewrite Hon, Hports, Hconn. cbn [negb].
  unfold when, add_log, ticked, stats_heading, traffic_records, stats_error,
    unbound_connections.
  split_and!.
  - intros ->. run. by rewrite <- !app_assoc.
  - intros net_io -> Hio. unfold of_ext. run. rewrite Hio. simpl.
    rewrite !format_bytes_u64. simpl. by rewrite <- !app_assoc.
  - intros cls message -> Hio. run. rewrite Hio. simpl. by rewrite <- !app_assoc.
Qed.

End Statistics.



(** ** What the statistics log *)

Section Logs.
Context (P : LogRecord → Prop).

Lemma logs_ret {A} (x : A) : logs P (mret x).
Proof. intros w. exists []. simpl. by rewrite app_nil_r. Qed.

Lemma logs_logging (l : level) (m : str) : P (l, m) → logs P (logging l m).
Proof. intros Hp w. exists [(l, m)]. split; [done|by constructor]. Qed.

Lemma logs_call {A} (f : nat → ext A) : logs P (call f).
Proof.
  intros w. exists []. unfold call.
  destruct (f (tick w)); simpl; by rewrite app_nil_r.
Qed.

Lemma logs_raise {A} (e : exn) : logs P (raise (A:=A) e).
Proof. intros w. exists []. simpl. by rewrite app_nil_r. Qed.

Lemma logs_bind {A B} (m : M A) (f : A → M B) :
  logs P m → (∀ x, logs P (f x)) → logs P (m ≫= f).
Proof.
  intros Hm Hf w. rewrite bind_eq. destruct (Hm w) as (r1 & H1 & Hp1).
  destruct (m w) as [[x|e|] w']; simpl in H1 |- *; [|by exists r1..].
  destruct (Hf x w') as (r2 & H2 & Hp2). exists (r1 ++ r2).
  split; [by rewrite H2, H1, app_assoc|by apply Forall_app].
Qed.

Lemma logs_when (c : bool) (body : M unit) : logs P body → logs P (when c body).
Proof. destruct c; [done|]. intros _. apply logs_ret. Qed.

Lemma logs_for_each {A} (l : list A) (body : A → M unit) :
  (∀ x, logs P (body x)) → logs P (for_each l body).
Proof.
  intros Hbody. induction l as [|x l IH]; [apply logs_ret|].
  by apply logs_bind.
Qed.

End Logs.

Ltac logs_step :=
  first
    [ apply logs_ret | apply logs_logging; reflexivity | apply logs_call
    | apply logs_raise | apply logs_when | apply logs_for_each
    | apply logs_bind
    | match goal with
      | |- context [match ?x with _ => _ end] => destruct x
      end
    | progress intros ].

Section StatsLog.
Variable config : Config.
Variable env : Env.

Lemma stats_body_logs_info : logs is_info (stats_body config env).
Proof. unfold stats_body, log_ports, of_ext. repeat logs_step. Qed.

(** X11.  The statistics block is always closed, and an error is
    logged exactly when the body fails.  With statistics on, the body
    of the [try] block runs after the heading and the rule and logs
    records of level INFO only.  When it returns,
    [collect_network_stats] adds the closing rule and nothing else;
    when it raises, the exception is an instance of [Exception], and
    one ERROR record with its message is logged right before the
    closing rule.  Either way the method returns. *)
Theorem collect_network_stats_block (w : World) :
  stats_enabled config = true →
  ∃ r w1 infos,
    stats_body config env (add_log w stats_heading) = (r, w1)
    ∧ log w1 = log w ++ stats_heading ++ infos
    ∧ Forall is_info infos
    ∧ match r with
      | Ret _ =>
          collect_network_stats config env w
          = (Ret tt, add_log w1 [(INFO, rule "=")])
      | Raise e =>
          is_Exception e = true
          ∧ collect_network_stats config env w
            = (Ret tt, add_log w1 [stats_error e; (INFO, rule "=")])
      | Unfinished => False
      end.
Proof.
  intros Hon. unfold collect_network_stats. rewrite Hon. cbn [negb].
  rewrite !bind_logging, add_log_app. cbn [app]. fold stats_heading.
  destruct (stats_body_logs_info (add_log w stats_heading)) as (infos & Hlog & Hinfos).
  pose proof (stats_body_exc_only config env (add_log w stats_heading)) as Hexc.
  rewrite bind_eq. unfold try_except.
  destruct (stats_body config env (add_log w stats_heading)) as [[[]|e|] w1];
    simpl in Hlog, Hexc; [| |done].
  - cbv beta iota. rewrite logging_eq. eexists _, w1, infos.
    split; [reflexivity|]. split; [by rewrite Hlog, <- app_assoc|]. by split.
  - rewrite Hexc. cbv beta iota. rewrite logging_eq. cbv beta iota. rewrite logging_eq.
    eexists _, w1, infos.
    split; [reflexivity|]. split; [by rewrite Hlog, <- app_assoc|]. split; [done|].
    split; [done|]. by rewrite add_log_app.
Qed.

End StatsLog.

Section TopPorts.
Context {K : Type} `{EqDecision K}.

Lemma tally_counter_add (k k' : K) (c : list (K * nat)) :
  tally (counter_add k c) k' = tally c k' + (if decide (k' = k) then 1 else 0).
Proof.
  unfold tally. induction c as [|[k0 n] c IH]; simpl.
  - rewrite filter_cons, filter_nil. simpl.
    destruct (decide (k = k')) as [->|Hne].
    + rewrite decide_True by done. simpl. lia.
    + rewrite decide_False by done. simpl. done.
  - destruct (decide (k = k0)) as [->|Hne].
    + rewrite !filter_cons. simpl. destruct (decide (k0 = k')) as [->|Hne'].
      * rewrite decide_True by done. simpl. lia.
      * rewrite decide_False by done. lia.
    + rewrite !filter_cons. simpl. destruct (decide (k0 = k')) as [->|Hne'].
      * simpl. rewrite IH. rewrite decide_False by done. lia.
      * rewrite IH. done.
Qed.

Lemma counter_add_keys (k : K) (c : list (K * nat)) :
  NoDup c.*1 →
  NoDup (counter_add k c).*1 ∧ ∀ k', k' ∈ (counter_add k c).*1 ↔ k' = k ∨ k' ∈ c.*1.
Proof.
  induction c as [|[k0 n] c IH]; intros Hnd.
  - simpl. split; [apply NoDup_singleton|]. intros k'.
    rewrite list_elem_of_singleton, elem_of_nil. tauto.
  - cbn [counter_add]. apply NoDup_cons in Hnd as [Hk0 Hnd].
    destruct (decide (k = k0)) as [->|Hne].
    + cbn [fmap list_fmap fst]. split; [by apply NoDup_cons|].
      intros k'. rewrite elem_of_cons. tauto.
    + destruct (IH Hnd) as [IH1 IH2]. cbn [fmap list_fmap fst]. split.
      * apply NoDup_cons. split; [|done]. rewrite IH2. intros [->|?]; done.
      * intros k'. rewrite !elem_of_cons, IH2. tauto.
Qed.

Lemma Counter_spec (l : list K) :
  NoDup (Counter l).*1
  ∧ (∀ k, k ∈ (Counter l).*1 ↔ k ∈ l)
  ∧ (∀ k, tally (Counter l) k = occurrences k l).
Proof.
  unfold Counter.
  assert (Hgen : ∀ c seen,
            NoDup c.*1 →
            (∀ k, k ∈ c.*1 ↔ k ∈ seen) →
            (∀ k, tally c k = occurrences k seen) →
            NoDup (fold_left (fun c k => counter_add k c) l c).*1
            ∧ (∀ k, k ∈ (fold_left (fun c k => counter_add k c) l c).*1 ↔ k ∈ seen ++ l)
            ∧ (∀ k, tally (fold_left (fun c k => counter_add k c) l c) k
                    = occurrences k (seen ++ l))).
  { induction l as [|x l IH]; intros c seen Hnd Hkeys Htally.
    - simpl. rewrite app_nil_r. done.
    - cbn [fold_left]. destruct (counter_add_keys x c Hnd) as [Hnd' Hkeys'].
      destruct (IH (counter_add x c) (seen ++ [x])) as (H1 & H2 & H3).
      + done.
      + intros k. rewrite Hkeys', elem_of_app, list_elem_of_singleton, Hkeys. tauto.
      + intros k. rewrite tally_counter_add, Htally. unfold occurrences.
        rewrite filter_app, length_app, filter_cons, filter_nil.
        destruct (decide (x = k)) as [->|Hne].
        * by rewrite decide_True.
        * rewrite decide_False by done. done.
      + rewrite <- app_assoc in H2, H3. done. }
  destruct (Hgen [] []) as (H1 & H2 & H3); [constructor|done|done|]. done.
Qed.

Lemma tally_entry (c : list (K * nat)) (k : K) (n : nat) :
  NoDup c.*1 → (k, n) ∈ c → tally c k = n.
Proof.
  unfold tally. induction c as [|[k0 n0] c IH]; intros Hnd Hin.
  { by apply elem_of_nil in Hin. }
  cbn [fmap list_fmap fst] in Hnd. apply NoDup_cons in Hnd as [Hk0 Hnd].
  rewrite filter_cons. simpl.
  apply elem_of_cons in Hin as [[= -> ->]|Hin].
  - rewrite decide_True by done. simpl.
    assert (Hnone : filter (fun x : K * nat => x.1 = k0) c = []).
    { apply elem_of_nil_inv. intros [k1 n1] [Heq Hx]%list_elem_of_filter.
      simpl in Heq. subst k1. apply Hk0. apply list_elem_of_fmap. by exists (k0, n1). }
    rewrite Hnone. simpl. lia.
  - destruct (decide (k0 = k)) as [->|Hne]; [|by apply IH].
    exfalso. apply Hk0. apply list_elem_of_fmap. by exists (k, n).
Qed.

Lemma insert_by_count_spec (x : K * nat) (l : list (K * nat)) :
  StronglySorted by_count l →
  insert_by_count x l ≡ₚ x :: l ∧ StronglySorted by_count (insert_by_count x l).
Proof.
  induction 1 as [|y l Hl IH Hy]; simpl.
  { split; [done|]. repeat constructor. }
  destruct (Nat.ltb_spec y.2 x.2) as [Hlt|Hge].
  - split; [done|]. constructor; [by constructor|].
    constructor; [unfold by_count; lia|].
    eapply Forall_impl; [exact Hy|]. unfold by_count. intros z Hz. lia.
  - destruct IH as [IHp IHs]. split.
    + rewrite IHp. apply Permutation_swap.
    + constructor; [done|]. rewrite IHp. constructor; [done|done].
Qed.

Lemma most_common_spec (c : list (K * nat)) :
  most_common c ≡ₚ c ∧ StronglySorted by_count (most_common c).
Proof.
  unfold most_common.
  assert (Hgen : ∀ acc, StronglySorted by_count acc →
            fold_left (fun acc x => insert_by_count x acc) c acc ≡ₚ acc ++ c
            ∧ StronglySorted by_count
                (fold_left (fun acc x => insert_by_count x acc) c acc)).
  { induction c as [|x c IH]; intros acc Hacc.
    - simpl. by rewrite app_nil_r.
    - cbn [fold_left]. destruct (insert_by_count_spec x acc Hacc) as [Hp Hs].
      destruct (IH _ Hs) as [IHp IHs]. split; [|done].
      rewrite IHp, Hp. simpl. apply Permutation_middle. }
  destruct (Hgen [] (SSorted_nil _)) as [Hp Hs]. done.
Qed.

End TopPorts.

Section PortStats.
Variable config : Config.

(** X12.  The ports under a heading are the most used ones: at most
    [top_ports_count] ports, each once and with the number of
    connections that use it, in the order of decreasing use, and no
    port left out is used more than a port shown.  Without any port
    nothing is logged, not even the heading. *)
Theorem log_ports_most_used (title : str) (ports : list nat) :
  ∃ shown,
    shown = most_common_n (top_ports_count config) (Counter ports)
    ∧ emits (log_ports config title ports) tt
        (if bool_decide (ports ≠ [])
         then (INFO, [LF] ++ u "Top " ++ decimalZ (top_ports_count config)
                       ++ u " " ++ title ++ u " Ports:") :: port_records shown
         else [])
    ∧ length shown ≤ Z.to_nat (top_ports_count config)
    ∧ NoDup shown.*1
    ∧ StronglySorted by_count shown
    ∧ (∀ port count, (port, count) ∈ shown →
         port ∈ ports ∧ count = occurrences port ports)
    ∧ (∀ port count other,
         (port, count) ∈ shown → other ∈ ports → other ∉ shown.*1 →
         occurrences other ports ≤ count).
Proof.
  eexists. split; [reflexivity|].
  destruct (Counter_spec ports) as (Hnd & Hkeys & Htally).
  destruct (most_common_spec (Counter ports)) as [Hperm Hsorted].
  unfold most_common_n. set (top := Z.to_nat (top_ports_count config)).
  set (all := most_common (Counter ports)) in *.
  assert (Hentry : ∀ port count, (port, count) ∈ all →
            port ∈ ports ∧ count = occurrences port ports).
  { intros port count Hin. rewrite Hperm in Hin. split.
    - apply Hkeys, list_elem_of_fmap. by exists (port, count).
    - rewrite <- Htally. symmetry. by apply tally_entry. }
  split_and!.
  - unfold log_ports. eapply emits_eq.
    + apply emits_when. eapply emits_bind; [apply emits_logging|].
      apply emits_for_each with
        (f := fun x : nat * nat =>
                [(INFO, u "  Port " ++ decimal x.1 ++ u ": "
                          ++ decimal x.2 ++ u " connections")]).
      intros [port count]. apply emits_logging.
    + case_bool_decide; [|done]. cbn [app]. f_equal.
      rewrite concat_map_singleton. unfold port_records.
      apply map_ext. by intros [port count].
  - rewrite length_take. lia.
  - rewrite fmap_take. apply (sublist_NoDup _ (all.*1)); [|apply sublist_take].
    by rewrite Hperm.
  - rewrite <- (take_drop top all) in Hsorted.
    by apply StronglySorted_app_1_l in Hsorted.
  - intros port count Hin. apply Hentry. by apply subseteq_take in Hin.
  - intros port count other Hin Hother Hnot.
    assert (Hall : (other, occurrences other ports) ∈ all).
    { apply Hkeys, list_elem_of_fmap in Hother as ([k n] & -> & Hk).
      rewrite <- Hperm in Hk. destruct (Hentry _ _ Hk) as [_ ->]. done. }
    rewrite <- (take_drop top all) in Hall, Hsorted.
    apply elem_of_app in Hall as [Hshown|Hrest].
    { exfalso. apply Hnot, list_elem_of_fmap. by eexists (_, _). }
    by apply (StronglySorted_app_1_elem_of _ _ _ _ _ Hsorted Hin Hrest).
Qed.

End PortStats.

(** ** Leaving daemon mode *)

Section DaemonMore.
Variable env : Env.

(** X13.  An interrupt during the sleep ends daemon mode cleanly: the
    two shutdown records are logged, [run_periodically] returns, no
    further cycle is started and the file system is as the last
    completed cycle left it.  The same holds for an interrupt raised
    out of a cycle.  The sleep is one that [time.sleep] starts: the
    interval is within its range. *)
Theorem daemon_interrupt_stops (cycle : M bool) (interval : Z) (n : nat) :
  (∀ w,
     usable_interval interval → sleep_interrupted env (tick w) = true →
     daemon_steps env cycle interval (S n) (AtSleep w)
     = Left (Ret tt) (add_log (ticked w) shutdown_records))
  ∧ (∀ w w',
       cycle w = (Raise KeyboardInterrupt, w') →
       daemon_steps env cycle interval (S n) (AtCycle w)
       = Left (Ret tt) (add_log w' shutdown_records)).
Proof.
  split.
  - intros w Hi Hs. cbn [daemon_steps]. cbn [daemon_step].
    rewrite (time_sleep_usable env interval w Hi), Hs. simpl.
    rewrite daemon_steps_left. unfold add_log, ticked, shutdown_records. simpl.
    by rewrite <- app_assoc.
  - intros w w' Hc. cbn [daemon_steps]. cbn [daemon_step]. rewrite Hc. simpl.
    rewrite daemon_steps_left. unfold add_log, shutdown_records. simpl.
    by rewrite <- app_assoc.
Qed.

(** X14.  An interval that [time.sleep] rejects, given or taken from
    the configuration, lets exactly one cycle run: the first
    [time.sleep] raises, the exception is logged as an unexpected error
    and re-raised out of [run_periodically].  It is a [ValueError] for
    a negative interval down to [-9223372036], and an [OverflowError]
    for an interval below that or above [9223372036]. *)
Theorem daemon_rejected_interval (config : Config) (interval : option Z)
    (n : nat) (w : World) :
  ¬ usable_interval (default (interval_seconds config) interval) →
  ∃ b w1,
    run_once config env
      (add_log w (daemon_heading (default (interval_seconds config) interval)))
    = (Ret b, w1)
    ∧ run_periodically config env interval (S (S n)) w
      = Left (Raise (sleep_error (default (interval_seconds config) interval)))
             (add_log (ticked w1)
                [daemon_error
                   (sleep_error (default (interval_seconds config) interval))])
    ∧ ((- SLEEP_MAX ≤ default (interval_seconds config) interval < 0)%Z →
       sleep_error (default (interval_seconds config) interval)
       = Exc "ValueError" (u "sleep length must be non-negative"))
    ∧ ((default (interval_seconds config) interval < - SLEEP_MAX
        ∨ SLEEP_MAX < default (interval_seconds config) interval)%Z →
       sleep_error (default (interval_seconds config) interval)
       = Exc "OverflowError" (u "timestamp too large to convert to C _PyTime_t")).
Proof.
  intros Hbad.
  destruct (returns_run _
              (add_log w (daemon_heading (default (interval_seconds config) interval)))
              (run_once_returns config env)) as (b & w1 & Hrun).
  exists b, w1. split; [done|]. split_and!.
  - unfold run_periodically, daemon_start.
    rewrite bind_logging, logging_eq.
    rewrite add_log_app.
    change (add_log w _)
      with (add_log w (daemon_heading (default (interval_seconds config) interval))).
    cbn [daemon_steps]. cbn [daemon_step]. rewrite Hrun.
    cbn [daemon_step]. rewrite (time_sleep_unusable env _ w1 Hbad).
    unfold sleep_error.
    destruct ((_ <? - SLEEP_MAX)%Z || (SLEEP_MAX <? _)%Z);
      cbn [daemon_except is_Exception]; rewrite logging_eq; apply daemon_steps_left.
  - intros [Hlo Hhi]. unfold sleep_error.
    rewrite (proj2 (Z.ltb_ge _ _)) by done.
    rewrite (proj2 (Z.ltb_ge _ _)); [done|]. unfold SLEEP_MAX in *. lia.
  - intros Hout. unfold sleep_error.
    destruct Hout as [Hlo|Hhi].
    + by rewrite (proj2 (Z.ltb_lt _ _) Hlo).
    + rewrite (proj2 (Z.ltb_lt _ _) Hhi). by rewrite orb_true_r.
Qed.

End DaemonMore.


(** ** What the diff shows *)

Section Bodies.

Lemma line_body_app (cur rest : str) :
  Forall (fun c => is_linebreak c = false) cur →
  line_body (cur ++ rest) = cur ++ line_body rest.
Proof.
  induction 1 as [|c cur Hc _ IH]; [done|]. simpl. by rewrite Hc, IH.
Qed.

Lemma line_body_break (cur : str) (c : N) (rest : str) :
  Forall (fun c => is_linebreak c = false) cur → is_linebreak c = true →
  line_body (cur ++ c :: rest) = cur.
Proof.
  intros Hcur Hc. rewrite line_body_app by done. simpl. rewrite Hc. apply app_nil_r.
Qed.

Lemma line_body_whole (cur : str) :
  Forall (fun c => is_linebreak c = false) cur → line_body cur = cur.
Proof.
  intros Hcur. rewrite <- (app_nil_r cur) at 1. rewrite line_body_app by done.
  apply app_nil_r.
Qed.

Lemma splitlines_from_bodies (n : nat) (s cur : str) :
  length s ≤ n →
  Forall (fun c => is_linebreak c = false) cur →
  map line_body (splitlines_from true cur s) = splitlines_from false cur s.
Proof.
  revert s cur. induction n as [|n IH]; intros s cur Hn Hcur.
  { destruct s; [|simpl in Hn; lia]. destruct cur; [done|].
    cbn [splitlines_from map]. by rewrite line_body_whole. }
  destruct s as [|c rest].
  { destruct cur; [done|]. cbn [splitlines_from map]. by rewrite line_body_whole. }
  simpl in Hn. cbn [splitlines_from].
  destruct (is_linebreak c) eqn:Hc; [|apply IH; [lia|]; apply Forall_app; by repeat constructor].
  destruct rest as [|c' rest'].
  { cbn [map splitlines_from]. by rewrite line_body_break, app_nil_r. }
  simpl in Hn.
  destruct ((c =? CR)%N && (c' =? LF)%N); cbn [map];
    rewrite line_body_break, app_nil_r by done; f_equal; apply IH;
    solve [simpl; lia | constructor].
Qed.

Lemma is_linebreak_space (c : N) : is_linebreak c = true → is_space c = true.
Proof.
  unfold is_linebreak, is_space.
  rewrite !orb_true_iff, !andb_true_iff, !N.leb_le, !N.eqb_eq. lia.
Qed.

(** A line with its end is its body followed by white space. *)
Lemma splitlines_from_ends (n : nat) (s cur : str) :
  length s ≤ n →
  Forall (fun c => is_linebreak c = false) cur →
  Forall (fun y => ∃ term, y = line_body y ++ term ∧ blank term)
         (splitlines_from true cur s).
Proof.
  revert s cur. induction n as [|n IH]; intros s cur Hn Hcur.
  { destruct s; [|simpl in Hn; lia]. destruct cur; [constructor|].
    cbn [splitlines_from]. repeat constructor.
    exists []. rewrite line_body_whole, app_nil_r by done. split; [done|constructor]. }
  destruct s as [|c rest].
  { destruct cur; [constructor|].
    cbn [splitlines_from]. repeat constructor.
    exists []. rewrite line_body_whole, app_nil_r by done. split; [done|constructor]. }
  simpl in Hn. cbn [splitlines_from].
  destruct (is_linebreak c) eqn:Hc; [|apply IH; [lia|]; apply Forall_app; by repeat constructor].
  pose proof (is_linebreak_space c Hc) as Hsp.
  destruct rest as [|c' rest'].
  { cbn [splitlines_from]. repeat constructor.
    exists [c]. rewrite line_body_break by done. split; [done|by repeat constructor]. }
  simpl in Hn.
  destruct ((c =? CR)%N && (c' =? LF)%N) eqn:Hpair.
  - constructor; [|apply IH; [lia|constructor]].
    exists [c; c']. rewrite line_body_break by done. split; [done|].
    apply andb_prop in Hpair as [_ ->%N.eqb_eq]. by repeat constructor.
  - constructor; [|apply IH; [simpl; lia|constructor]].
    exists [c]. rewrite line_body_break by done. split; [done|by repeat constructor].
Qed.

Lemma splitlines_keepends_ends (s y : str) :
  y ∈ splitlines_keepends s → ∃ term, y = line_body y ++ term ∧ blank term.
Proof.
  intros Hy.
  pose proof (splitlines_from_ends (length s) s [] (Nat.le_refl _) (Forall_nil_2 _)) as Hall.
  by eapply Forall_forall in Hall.
Qed.

Lemma lstrip_blank_app (bl x : str) : blank bl → lstrip (bl ++ x) = lstrip x.
Proof. induction 1 as [|c bl Hc _ IH]; [done|]. simpl. by rewrite Hc. Qed.

Lemma lstrip_snoc (x : str) (c : N) :
  is_space c = false → lstrip (x ++ [c]) = lstrip x ++ [c].
Proof.
  intros Hc. induction x as [|d x IH]; simpl; [by rewrite Hc|].
  by destruct (is_space d).
Qed.

(** [rstrip] drops white space at the end and stops at a sign. *)
Lemma rstrip_app_blank (s term : str) : blank term → rstrip (s ++ term) = rstrip s.
Proof.
  intros Hterm. unfold rstrip. rewrite reverse_app, lstrip_blank_app; [done|].
  by apply blank_reverse.
Qed.

Lemma rstrip_cons (c : N) (s : str) :
  is_space c = false → rstrip (c :: s) = c :: rstrip s.
Proof.
  intros Hc. unfold rstrip. rewrite reverse_cons, lstrip_snoc by done.
  by rewrite reverse_app.
Qed.

(** The lines of a text are its lines with ends, cut at the boundary. *)
Lemma splitlines_bodies (s : str) :
  map line_body (splitlines_keepends s) = splitlines s.
Proof. by apply (splitlines_from_bodies (length s)). Qed.

End Bodies.

Section Covered.
Context {A : Type} `{Countable A}.
Variables a b : list A.

Lemma valid_match_lookup (i j k d : nat) :
  valid_match a b (i, j, k) → d < k → a !! (i + d) = b !! (j + d).
Proof.
  intros (Heq & _ & _) Hd.
  rewrite <- !lookup_drop, <- (lookup_take_lt (drop i a) k d) by done.
  by rewrite Heq, lookup_take_lt.
Qed.

(** An element of [b] that does not occur in [a] lies in the range of
    a [replace] or [insert] opcode. *)
Lemma ops_inserts (l : list Match) (i0 j0 j : nat) (y : A) :
  chain a b i0 j0 l (length a) (length b) →
  j0 ≤ j → b !! j = Some y → y ∉ a →
  ∃ c, c ∈ ops i0 j0 (l ++ [(length a, length b, 0)]) ∧ inserts c j.
Proof.
  intros Hl Hj Hy Hnotin. apply lookup_lt_Some in Hy as Hlt.
  revert i0 j0 Hl Hj. induction l as [|[[ai bj] size] l IH]; intros i0 j0 Hl Hj.
  - cbn [app ops]. assert ((j0 <? length b) = true) as -> by (apply Nat.ltb_lt; lia).
    destruct (i0 <? length a); cbn [andb].
    + eexists. split; [apply list_elem_of_here|]. simpl. split; [by left|lia].
    + eexists. split; [apply list_elem_of_here|]. simpl. split; [by right|lia].
  - cbn [chain] in Hl. destruct Hl as (Hi & Hj0 & Hk & Hv & Hl).
    cbn [app ops].
    destruct (decide (j < bj)) as [Hlow|Hhigh].
    + assert ((j0 <? bj) = true) as -> by (apply Nat.ltb_lt; lia).
      destruct (i0 <? ai); cbn [andb].
      * eexists. split; [apply list_elem_of_here|]. simpl. split; [by left|lia].
      * eexists. split; [apply list_elem_of_here|]. simpl. split; [by right|lia].
    + destruct (decide (j < bj + size)) as [Hin|Hout].
      * exfalso. apply Hnotin.
        pose proof (valid_match_lookup ai bj size (j - bj) Hv ltac:(lia)) as Heq.
        replace (bj + (j - bj)) with j in Heq by lia. rewrite Hy in Heq.
        by apply list_elem_of_lookup_2 in Heq.
      * destruct (IH (ai + size) (bj + size) Hl ltac:(lia)) as (c & Hc & Hins).
        exists c. split; [|done]. rewrite !elem_of_app. by right; right.
Qed.

(** An element of [a] that does not occur in [b] lies in the range of
    a [replace] or [delete] opcode. *)
Lemma ops_deletes (l : list Match) (i0 j0 i : nat) (x : A) :
  chain a b i0 j0 l (length a) (length b) →
  i0 ≤ i → a !! i = Some x → x ∉ b →
  ∃ c, c ∈ ops i0 j0 (l ++ [(length a, length b, 0)]) ∧ deletes c i.
Proof.
  intros Hl Hi Hx Hnotin. apply lookup_lt_Some in Hx as Hlt.
  revert i0 j0 Hl Hi. induction l as [|[[ai bj] size] l IH]; intros i0 j0 Hl Hi.
  - cbn [app ops]. assert ((i0 <? length a) = true) as -> by (apply Nat.ltb_lt; lia).
    destruct (j0 <? length b); cbn [andb].
    + eexists. split; [apply list_elem_of_here|]. simpl. split; [by left|lia].
    + eexists. split; [apply list_elem_of_here|]. simpl. split; [by right|lia].
  - cbn [chain] in Hl. destruct Hl as (Hi0 & Hj0 & Hk & Hv & Hl).
    cbn [app ops].
    destruct (decide (i < ai)) as [Hlow|Hhigh].
    + assert ((i0 <? ai) = true) as -> by (apply Nat.ltb_lt; lia).
      destruct (j0 <? bj); cbn [andb].
      * eexists. split; [apply list_elem_of_here|]. simpl. split; [by left|lia].
      * eexists. split; [apply list_elem_of_here|]. simpl. split; [by right|lia].
    + destruct (decide (i < ai + size)) as [Hin|Hout].
      * exfalso. apply Hnotin.
        pose proof (valid_match_lookup ai bj size (i - ai) Hv ltac:(lia)) as Heq.
        replace (ai + (i - ai)) with i in Heq by lia. rewrite Hx in Heq.
        symmetry in Heq. by apply list_elem_of_lookup_2 in Heq.
      * destruct (IH (ai + size) (bj + size) Hl ltac:(lia)) as (c & Hc & Hdel).
        exists c. split; [|done]. rewrite !elem_of_app. by right; right.
Qed.

End Covered.

Section Grouped.

(** Grouping cuts [equal] opcodes only: every other opcode is found
    in a group as it was. *)
Lemma fix_first_keeps (n : nat) (codes : list opcode) (c : opcode) :
  changed c → c ∈ codes → c ∈ fix_first n codes.
Proof.
  intros Hc Hin. destruct codes as [|[[[[t i1] i2] j1] j2] rest]; [done|].
  destruct t; try done. cbn [fix_first].
  apply elem_of_cons in Hin as [->|Hin]; [done|]. by apply list_elem_of_further.
Qed.

Lemma fix_last_keeps (n : nat) (codes : list opcode) (c : opcode) :
  changed c → c ∈ codes → c ∈ fix_last n codes.
Proof.
  intros Hc. induction codes as [|[[[[t i1] i2] j1] j2] rest IH]; [done|].
  intros [->|Hin]%elem_of_cons.
  - destruct t; try done; destruct rest; apply list_elem_of_here.
  - specialize (IH Hin).
    destruct t, rest as [|c' rest]; try (by apply elem_of_nil in Hin);
      cbn [fix_last]; by apply list_elem_of_further.
Qed.

Lemma group_fold_keeps (n : nat) (codes : list opcode) (c : opcode)
    (groups : list (list opcode)) (group : list opcode) :
  changed c →
  c ∈ codes ∨ c ∈ group ∨ (∃ g, g ∈ groups ∧ c ∈ g) →
  let '(groups', group') := fold_left (group_step n) codes (groups, group) in
  c ∈ group' ∨ (∃ g, g ∈ groups' ∧ c ∈ g).
Proof.
  intros Hc. revert groups group.
  induction codes as [|c' codes IH]; intros groups group Hpre.
  { simpl. destruct Hpre as [Hin|Hpre]; [by apply elem_of_nil in Hin|done]. }
  cbn [fold_left]. destruct c' as [[[[t i1] i2] j1] j2]. cbn [group_step].
  destruct (is_equal t && (n + n <? i2 - i1)) eqn:Hcut.
  - apply IH. destruct Hpre as [[->|Hin]%elem_of_cons|[Hg|(g & Hg & Hin)]].
    + apply andb_prop in Hcut as [Ht _]. by destruct t.
    + by left.
    + right. right. eexists. split; [apply elem_of_app; right; apply list_elem_of_here|].
      apply elem_of_app. by left.
    + right. right. exists g. split; [|done]. apply elem_of_app. by left.
  - apply IH. destruct Hpre as [[->|Hin]%elem_of_cons|[Hg|Hg]].
    + right. left. apply elem_of_app. right. apply list_elem_of_here.
    + by left.
    + right. left. apply elem_of_app. by left.
    + right. by right.
Qed.

Lemma group_codes_keeps (n : nat) (codes : list opcode) (c : opcode) :
  changed c → c ∈ codes → ∃ g, g ∈ group_codes n codes ∧ c ∈ g.
Proof.
  intros Hc Hin. unfold group_codes.
  assert (Hfix : c ∈ fix_last n (fix_first n
                   match codes with [] => [(Equal, 0, 1, 0, 1)] | _ => codes end)).
  { apply fix_last_keeps, fix_first_keeps; [done..|].
    destruct codes; [by apply elem_of_nil in Hin|done]. }
  pose proof (group_fold_keeps n _ c [] [] Hc (or_introl Hfix)) as Hfold.
  destruct (fold_left (group_step n) _ ([], [])) as [groups group].
  destruct Hfold as [Hg|(g & Hg & Hcg)].
  - exists group. split; [|done].
    destruct group as [|[[[[t ?] ?] ?] ?] [|? ?]].
    + by apply elem_of_nil in Hg.
    + apply list_elem_of_singleton in Hg. subst c.
      destruct t; try done; apply elem_of_app; right; apply list_elem_of_here.
    + destruct t; apply elem_of_app; right; apply list_elem_of_here.
  - exists g. split; [|done].
    destruct group as [|[[[[[] ?] ?] ?] ?] [|? ?]]; try done;
      apply elem_of_app; by left.
Qed.

End Grouped.

Section Shown.
Variables a b : list str.
Variables fromfile tofile : str.
Variable n : nat.

Local Abbreviation diff :=
  (unified_diff a b fromfile tofile [] [] n []) (only parsing).

Lemma elem_of_slice {A} (l : list A) (i1 i2 i : nat) (x : A) :
  i1 ≤ i < i2 → l !! i = Some x → x ∈ slice l i1 i2.
Proof.
  intros Hi Hx. unfold slice. apply (list_elem_of_lookup_2 _ (i - i1)).
  rewrite lookup_take_lt by lia. rewrite lookup_drop.
  by replace (i1 + (i - i1)) with i by lia.
Qed.

Lemma slice_subseteq {A} (l : list A) (i1 i2 : nat) (x : A) :
  x ∈ slice l i1 i2 → x ∈ l.
Proof.
  unfold slice. intros Hx. by apply subseteq_take, subseteq_drop in Hx.
Qed.

Lemma elem_of_concat {A} (x : A) (ls : list (list A)) :
  x ∈ concat ls ↔ ∃ l, x ∈ l ∧ l ∈ ls.
Proof.
  induction ls as [|l0 ls IH]; simpl.
  - split; [by intros ?%elem_of_nil|]. by intros (l & _ & ?%elem_of_nil).
  - rewrite elem_of_app, IH. split.
    + intros [Hx|(l & Hx & Hl)].
      * exists l0. split; [done|apply list_elem_of_here].
      * exists l. split; [done|by apply list_elem_of_further].
    + intros (l & Hx & [->|Hl]%elem_of_cons); [by left|].
      right. by exists l.
Qed.

Lemma unified_diff_groups_hunk (groups : list (list opcode)) (g : list opcode)
    (c : opcode) (line : str) :
  g ∈ groups → c ∈ g → line ∈ group_lines a b c →
  line ∈ unified_diff_groups a b fromfile tofile [] [] [] groups.
Proof.
  intros Hg Hc Hline. unfold unified_diff_groups.
  destruct groups as [|g0 groups]; [by apply elem_of_nil in Hg|].
  apply elem_of_app. right. apply elem_of_concat.
  exists (hunk a b [] g). split; [|apply list_elem_of_fmap; by exists g].
  unfold hunk. destruct (first_op g) as [[[[? ?] ?] ?] ?].
  destruct (last_op g) as [[[[? ?] ?] ?] ?].
  apply list_elem_of_further, elem_of_concat.
  exists (group_lines a b c). split; [done|]. apply list_elem_of_fmap. by exists c.
Qed.

(** Every line of [b] that is not a line of [a] is in the diff with a
    plus sign. *)
Lemma unified_diff_inserted (y : str) :
  y ∈ b → y ∉ a →
  ∃ d, diff = Some d ∧ (u "+" ++ y) ∈ d.
Proof.
  intros Hb Ha. apply list_elem_of_lookup_1 in Hb as [j Hj].
  unfold unified_diff, get_grouped_opcodes, get_opcodes.
  destruct (get_matching_blocks_chain a b) as (l & -> & Hl).
  eexists. split; [reflexivity|]. cbn [fmap option_fmap option_map].
  rewrite opcodes_of_ops.
  destruct (ops_inserts a b l 0 0 j y Hl ltac:(lia) Hj Ha) as (c & Hc & Hins).
  destruct c as [[[[t i1] i2] j1] j2]. cbn [inserts] in Hins. destruct Hins as [Ht Hr].
  destruct (group_codes_keeps n (ops 0 0 (l ++ [(length a, length b, 0)]))
              (t, i1, i2, j1, j2)) as (g & Hg & Hcg);
    [by destruct Ht as [-> | ->]|exact Hc|].
  apply (unified_diff_groups_hunk _ g (t, i1, i2, j1, j2)); [done..|].
  assert (Hin : (u "+" ++ y) ∈ map (fun line => u "+" ++ line) (slice b j1 j2)).
  { apply list_elem_of_fmap. exists y. split; [done|]. by apply (elem_of_slice _ _ _ j). }
  cbn [group_lines]. destruct Ht as [-> | ->]; [|done].
  apply elem_of_app. by right.
Qed.

(** Every line of [a] that is not a line of [b] is in the diff with a
    minus sign. *)
Lemma unified_diff_deleted (x : str) :
  x ∈ a → x ∉ b →
  ∃ d, diff = Some d ∧ (u "-" ++ x) ∈ d.
Proof.
  intros Ha Hb. apply list_elem_of_lookup_1 in Ha as [i Hi].
  unfold unified_diff, get_grouped_opcodes, get_opcodes.
  destruct (get_matching_blocks_chain a b) as (l & -> & Hl).
  eexists. split; [reflexivity|]. cbn [fmap option_fmap option_map].
  rewrite opcodes_of_ops.
  destruct (ops_deletes a b l 0 0 i x Hl ltac:(lia) Hi Hb) as (c & Hc & Hdel).
  destruct c as [[[[t i1] i2] j1] j2]. cbn [deletes] in Hdel. destruct Hdel as [Ht Hr].
  destruct (group_codes_keeps n (ops 0 0 (l ++ [(length a, length b, 0)]))
              (t, i1, i2, j1, j2)) as (g & Hg & Hcg);
    [by destruct Ht as [-> | ->]|exact Hc|].
  apply (unified_diff_groups_hunk _ g (t, i1, i2, j1, j2)); [done..|].
  assert (Hin : (u "-" ++ x) ∈ map (fun line => u "-" ++ line) (slice a i1 i2)).
  { apply list_elem_of_fmap. exists x. split; [done|]. by apply (elem_of_slice _ _ _ i). }
  cbn [group_lines]. destruct Ht as [-> | ->]; [|done].
  apply elem_of_app. by left.
Qed.

Lemma group_lines_origin (c : opcode) (d : str) :
  d ∈ group_lines a b c → diff_line a b d.
Proof.
  destruct c as [[[[t i1] i2] j1] j2]. unfold diff_line. cbn [group_lines].
  destruct t.
  - intros [Hd|Hd]%elem_of_app; apply list_elem_of_fmap in Hd as (y & -> & Hy%slice_subseteq).
    + right. left. exists y. split; [done|by right].
    + right. right. by exists y.
  - intros Hd. apply list_elem_of_fmap in Hd as (y & -> & Hy%slice_subseteq).
    right. left. exists y. split; [done|by right].
  - intros Hd. apply list_elem_of_fmap in Hd as (y & -> & Hy%slice_subseteq).
    right. right. by exists y.
  - intros Hd. apply list_elem_of_fmap in Hd as (y & -> & Hy%slice_subseteq).
    right. left. exists y. split; [done|by left].
Qed.

Lemma hunk_origin (g : list opcode) :
  ∃ body, hunk a b [] g = body ∧ (∃ h rest, body = h :: rest ∧ hunk_header h)
          ∧ Forall (diff_line a b) body.
Proof.
  eexists. split; [reflexivity|]. unfold hunk.
  destruct (first_op g) as [[[[? f1] ?] f3] ?].
  destruct (last_op g) as [[[[? ?] l2] ?] l4].
  assert (Hh : hunk_header
            (u "@@ -" ++ format_range_unified f1 l2 ++ u " +"
               ++ format_range_unified f3 l4 ++ u " @@" ++ [])).
  { rewrite app_nil_r. by eexists _, _. }
  split; [by eexists _, _|].
  constructor; [by left|].
  apply Forall_forall. intros d (lines & Hd & Hlines)%elem_of_concat.
  apply list_elem_of_fmap in Hlines as (c & -> & _). by eapply group_lines_origin.
Qed.

(** The diff, when it is not empty, is the two lines of the file header,
    then a hunk header, and from there on hunk headers and lines of [a]
    and [b] with their sign. *)
Lemma unified_diff_shape (d : list str) :
  diff = Some d → d ≠ [] →
  ∃ h body,
    d = (u "--- " ++ fromfile) :: (u "+++ " ++ tofile) :: h :: body
    ∧ hunk_header h
    ∧ Forall (diff_line a b) (h :: body).
Proof.
  unfold unified_diff.
  destruct (get_grouped_opcodes a b n) as [groups|]; [|done].
  cbn [fmap option_fmap option_map]. intros [= <-] Hd.
  unfold unified_diff_groups in *. destruct groups as [|g groups]; [done|].
  unfold file_header. cbn [truthy]. rewrite !app_nil_r. cbn [app map concat].
  destruct (hunk_origin g) as (body & -> & (h & rest & Hbody & Hh) & Hall).
  rewrite Hbody in *. cbn [app].
  exists h, (rest ++ concat (map (hunk a b []) groups)). split; [done|]. split; [done|].
  rewrite app_comm_cons. apply Forall_app. split; [done|].
  apply Forall_forall. intros x (lines & Hx & Hlines)%elem_of_concat.
  apply list_elem_of_fmap in Hlines as (g' & -> & _).
  destruct (hunk_origin g') as (body' & <- & _ & Hall').
  by eapply Forall_forall in Hall'.
Qed.

End Shown.

Section ReportShows.

(** X15.  Every route of the added set is in the diff as an inserted
    line and every route of the removed set as a deleted line: the line
    in the diff is the route with its line end, behind the sign, and it
    is logged as the sign followed by the route without trailing white
    space. *)
Theorem diff_shows_added_and_removed (previous current : str) :
  ∃ r,
    compare previous current = Some r
    ∧ (∀ route, route ∈ added r →
         (∃ y, y ∈ splitlines_keepends current ∧ line_body y = route
               ∧ (u "+" ++ y) ∈ diffLines r)
         ∧ (INFO, u "+" ++ rstrip route) ∈ render r)
    ∧ (∀ route, route ∈ removed r →
         (∃ y, y ∈ splitlines_keepends previous ∧ line_body y = route
               ∧ (u "-" ++ y) ∈ diffLines r)
         ∧ (INFO, u "-" ++ rstrip route) ∈ render r).
Proof.
  unfold compare. case_bool_decide as Heq.
  { eexists. split; [reflexivity|].
    split; intros route Hr; by apply elem_of_empty in Hr. }
  destruct (diff_of_total previous current) as [d Hd]. rewrite Hd.
  cbn [mbind option_bind]. eexists. split; [reflexivity|].
  cbn [added removed diffLines].
  assert (Hrender : ∀ line, line ∈ d →
            (INFO, rstrip line) ∈ render
              (mkChangeReport false d (line_set current ∖ line_set previous)
                 (line_set previous ∖ line_set current))).
  { intros line Hline. unfold render. cbn [unchanged diffLines].
    rewrite bool_decide_eq_true_2 by (intros ->; by apply elem_of_nil in Hline).
    apply elem_of_app. right. apply elem_of_app. left.
    apply list_elem_of_further, list_elem_of_fmap. by exists line. }
  assert (Hbody : ∀ s route, route ∈ line_set s →
            ∃ y, y ∈ splitlines_keepends s ∧ line_body y = route).
  { intros s route Hin. unfold line_set in Hin.
    rewrite elem_of_list_to_set, <- splitlines_bodies in Hin.
    apply list_elem_of_fmap in Hin as (y & -> & Hy). by exists y. }
  assert (Hlogged : ∀ (sign : N) s y,
            is_space sign = false → y ∈ splitlines_keepends s →
            rstrip (sign :: y) = sign :: rstrip (line_body y)).
  { intros sign s y Hsign Hy. rewrite rstrip_cons by done. f_equal.
    destruct (splitlines_keepends_ends s y Hy) as (term & Hterm & Hblank).
    rewrite Hterm at 1. by apply rstrip_app_blank. }
  assert (Hout : ∀ s y, y ∈ splitlines_keepends s → line_body y ∈ line_set s).
  { intros s y Hy. unfold line_set.
    rewrite elem_of_list_to_set, <- splitlines_bodies.
    apply list_elem_of_fmap. by exists y. }
  split; intros route [Hin Hnot]%elem_of_difference.
  - destruct (Hbody current route Hin) as (y & Hy & <-).
    destruct (unified_diff_inserted (splitlines_keepends previous)
                (splitlines_keepends current) (u "Previous Routes")
                (u "Current Routes") 3 y Hy) as (d' & Hd' & Hplus).
    { intros Hprev. by apply Hnot, Hout. }
    unfold diff_of in Hd. rewrite Hd in Hd'. injection Hd' as <-.
    split; [by exists y|].
    change (u "+" ++ rstrip (line_body y)) with (43%N :: rstrip (line_body y)).
    rewrite <- (Hlogged 43%N current y) by done. by apply Hrender.
  - destruct (Hbody previous route Hin) as (y & Hy & <-).
    destruct (unified_diff_deleted (splitlines_keepends previous)
                (splitlines_keepends current) (u "Previous Routes")
                (u "Current Routes") 3 y Hy) as (d' & Hd' & Hminus).
    { intros Hcur. by apply Hnot, Hout. }
    unfold diff_of in Hd. rewrite Hd in Hd'. injection Hd' as <-.
    split; [by exists y|].
    change (u "-" ++ rstrip (line_body y)) with (45%N :: rstrip (line_body y)).
    rewrite <- (Hlogged 45%N previous y) by done. by apply Hrender.
Qed.

(** X16.  Whenever the two texts differ the diff starts with the lines
    [--- Previous Routes] and [+++ Current Routes] and a hunk header, so
    the heading of the diff is always logged; every further line is a
    hunk header, a line of the previous text behind a blank or a minus
    sign, or a line of the current text behind a plus sign. *)
Theorem diff_lines_shape (previous current : str) :
  previous ≠ current →
  ∃ r h body,
    compare previous current = Some r
    ∧ diffLines r
      = u "--- Previous Routes" :: u "+++ Current Routes" :: h :: body
    ∧ hunk_header h
    ∧ Forall (diff_line (splitlines_keepends previous)
                        (splitlines_keepends current)) (h :: body).
Proof.
  intros Hne. destruct (diff_of_nonempty previous current Hne) as (d & Hd & Hnil).
  destruct (unified_diff_shape _ _ _ _ _ d Hd Hnil) as (h & body & -> & Hh & Hall).
  eexists _, h, body. split.
  { unfold compare. rewrite bool_decide_eq_false_2 by done. by rewrite Hd. }
  by cbn [diffLines].
Qed.

End ReportShows.

Section ListingMore.

(** X17.  The heading of the added routes with nothing under it.  When
    the current snapshot has lines the previous one has not, and all of
    them are blank, [compare_and_log_changes] reports a change and logs
    the diff, then the record ["Added routes:"] directly followed by
    the listing of the removed routes and the closing rule: no route is
    listed under the heading. *)
Theorem added_heading_without_routes (previous current : str) (w : World) :
  (∃ line, line ∈ splitlines current ∧ line ∉ splitlines previous) →
  (∀ line, line ∈ splitlines current → line ∉ splitlines previous → blank line) →
  ∃ d,
    diff_of previous current = Some d
    ∧ d ≠ []
    ∧ compare_and_log_changes previous current w
      = (Ret tt,
         add_log w
           ([(INFO, u "Route change detected!"); (INFO, rule "-");
             (INFO, u "Routing table diff:")]
            ++ map (fun line => (INFO, rstrip line)) d
            ++ [(INFO, rule "-"); (INFO, u "Added routes:")]
            ++ listing "Removed routes:" "  - " (line_set previous ∖ line_set current)
            ++ [(INFO, rule "=")])).
Proof.
  intros (line & Hcur & Hprev) Hblank.
  assert (Hne : previous ≠ current) by (by intros ->).
  destruct (diff_of_nonempty previous current Hne) as (d & Hd & Hnil).
  exists d. split; [done|]. split; [done|].
  assert (Hr : compare previous current
               = Some (mkChangeReport false d
                         (line_set current ∖ line_set previous)
                         (line_set previous ∖ line_set current))).
  { unfold compare. rewrite bool_decide_eq_false_2 by done. by rewrite Hd. }
  rewrite (compare_and_log_changes_emits previous current _ Hr w).
  unfold render. cbn [unchanged diffLines added removed].
  rewrite bool_decide_eq_true_2 by done.
  assert (Hadded : line_set current ∖ line_set previous ≠ ∅).
  { intros E. apply (not_elem_of_empty (C:=gset str) line). rewrite <- E.
    apply elem_of_difference. unfold line_set. by rewrite !elem_of_list_to_set. }
  assert (Hlisted : listed (line_set current ∖ line_set previous) = []).
  { apply elem_of_nil_inv. intros route [Hin Hnb]%elem_of_listed.
    apply elem_of_difference in Hin as [Hin Hout]. unfold line_set in Hin, Hout.
    rewrite elem_of_list_to_set in Hin, Hout. by apply Hnb, Hblank. }
  unfold listing at 1. rewrite bool_decide_eq_true_2 by done. rewrite Hlisted.
  cbn [map app]. reflexivity.
Qed.

End ListingMore.



Section FormatClaims.
Local Open Scope N_scope.

(** X18.  For a count below [2^53] bytes [format_bytes] never fails.
    It shows the count in the largest unit that is not above it (in
    [PB] from [1024^5] on), with two decimals that are nearest to the
    count: the number shown is off by at most half a hundredth of the
    unit.  Below [PB] the number shown is at most [1024.00], which it
    reaches just under the next unit.  Below 1024 the count itself is
    shown, with [.00 B]. *)
Theorem format_bytes_nearest (n : N) :
  n < 2 ^ 53 →
  ∃ k h,
    (k ≤ 5)%nat
    ∧ Format.format_bytes n
      = Ok (Format.hundredths h ++ u " " ++ u (unit_name k))
    ∧ ((0 < k)%nat → unit_size k ≤ n)
    ∧ ((k < 5)%nat → n < unit_size (S k))
    ∧ nearest_hundredths n (unit_size k) h
    ∧ ((k < 5)%nat → h ≤ 102400)
    ∧ (n < 1024 →
       Format.format_bytes n = Ok (Format.decimalN n ++ u ".00 B")).
Proof.
  intros Hn. destruct (N.lt_ge_cases n 1024) as [Hsmall|Hbig].
  - exists 0%nat, (100 * n). split; [lia|]. split.
    { rewrite format_bytes_below_1024, hundredths_whole by done.
      by rewrite <- app_assoc. }
    split; [lia|]. split; [done|]. split.
    { unfold nearest_hundredths, unit_size. change (1024 ^ N.of_nat 0) with 1. lia. }
    split; [lia|].
    intros _. by apply format_bytes_below_1024.
  - assert (Hk : ∃ k, (1 ≤ k ≤ 5)%nat ∧ unit_size k ≤ n
                      ∧ ((k < 5)%nat → n < unit_size (S k))).
    { change 1024 with (unit_size 1) in Hbig.
      destruct (N.lt_ge_cases n (unit_size 2)); [exists 1%nat; split_and!; [lia|lia|done..]|].
      destruct (N.lt_ge_cases n (unit_size 3)); [exists 2%nat; split_and!; [lia|lia|done..]|].
      destruct (N.lt_ge_cases n (unit_size 4)); [exists 3%nat; split_and!; [lia|lia|done..]|].
      destruct (N.lt_ge_cases n (unit_size 5)); [exists 4%nat; split_and!; [lia|lia|done..]|].
      exists 5%nat. split_and!; [lia|lia|done|lia]. }
    destruct Hk as (k & Hk & Hlo & Hhi).
    exists k, (Format.round_half_even (100 * n) (unit_size k)).
    split; [lia|]. split.
    { rewrite format_bytes_from_1024, to_float_exact by done.
      apply format_loop_from; [lia|lia|done|done]. }
    split; [done|]. split; [done|].
    assert (Hpos : 0 < unit_size k).
    { unfold unit_size. apply N.neq_0_lt_0, N.pow_nonzero. lia. }
    pose proof (round_half_even_nearest (100 * n) (unit_size k) Hpos) as Hnear.
    split; [unfold nearest_hundredths; lia|]. split; [|lia].
    intros Hk5. specialize (Hhi Hk5).
    assert (Hnext : unit_size (S k) = 1024 * unit_size k).
    { unfold unit_size. by rewrite Nat2N.inj_succ, N.pow_succ_r'. }
    set (h := Format.round_half_even (100 * n) (unit_size k)) in *.
    set (d := unit_size k) in *. clearbody h d.
    destruct (N.le_gt_cases h 102400) as [|Hgt]; [done|]. exfalso.
    assert (102401 * d ≤ h * d) by (apply N.mul_le_mono_r; lia). lia.
Qed.

(** X19.  [format_bytes] fails only on the conversion of the count to
    [float]: it returns for every count of at most 1023 bits, the
    64-bit counters of the system among them, and raises
    [OverflowError] for every count from [2^1024] on. *)
Theorem format_bytes_overflow (n : N) :
  (N.size n ≤ 1023 → ∃ s, Format.format_bytes n = Ok s)
  ∧ (2 ^ 1024 ≤ n →
     Format.format_bytes n
     = Fail "OverflowError" (u "int too large to convert to float")).
Proof.
  destruct (to_float_range n) as [Hok Hfail].
  assert (H1024 : 1024 < 2 ^ 1024).
  { change 1024 with (2 ^ 10). apply N.pow_lt_mono_r; lia. }
  split.
  - intros Hsize. destruct (N.lt_ge_cases n 1024) as [Hsmall|Hbig].
    + rewrite format_bytes_below_1024 by done. by eexists.
    + rewrite format_bytes_from_1024 by done.
      destruct (Hok Hsize) as [f ->]. apply format_loop_float.
  - intros Hn. rewrite format_bytes_from_1024 by lia. by rewrite Hfail.
Qed.

End FormatClaims.

(** ** The command line *)

Section CliFacts.
Variable env : Env.
Variable RouteTracker : str → Cli.Process → Cli.Started * Cli.Process.

Lemma os_path_exists_eq (path : str) (w : World) :
  os_path_exists path w
  = (Ret (bool_decide (is_Some (files (fs w) !! path))
          || bool_decide (path ∈ dirs (fs w))), w).
Proof. by destruct w. Qed.


End CliFacts.

(** ** The further properties at concrete inputs *)

Section MoreInstances.
Import Scenario.

Lemma load_previous_snapshot_result_witness :
  store_previous (config_local true snapshot_path) = true
  ∧ load_previous_snapshot (config_local true snapshot_path) env_ok empty_world
    = (Ret None, empty_world)
  ∧ (load_previous_snapshot (config_local true snapshot_path) env_ok saved).1
    = Ret (Some two_routes).
Proof.
  split; [reflexivity|]. split.
  - destruct (load_previous_snapshot_result (config_local true snapshot_path)
                env_ok empty_world eq_refl) as (_ & Hmissing & _).
    apply Hmissing; [reflexivity|]. apply not_elem_of_empty.
  - destruct (load_previous_snapshot_result (config_local true snapshot_path)
                env_ok saved eq_refl) as (Hread & _ & _).
    apply Hread. exists two_routes. split_and!; vm_compute; reflexivity.
Defined.

Lemma snapshot_round_trip_witness :
  store_previous (config_local true snapshot_path) = true
  ∧ save_snapshot (config_local true snapshot_path) env_ok two_routes empty_world
    = (Ret tt, saved)
  ∧ log saved = log empty_world
  ∧ read_fault env_ok (tick saved) (snapshot_file (config_local true snapshot_path))
    = None
  ∧ load_previous_snapshot (config_local true snapshot_path) env_ok saved
    = (Ret (Some (universal_newlines two_routes)), ticked saved)
  ∧ (universal_newlines two_routes = two_routes ↔ CR ∉ two_routes).
Proof.
  assert (Hsave : save_snapshot (config_local true snapshot_path) env_ok
                    two_routes empty_world = (Ret tt, saved))
    by (vm_compute; reflexivity).
  split; [reflexivity|]. split; [exact Hsave|].
  split; [reflexivity|]. split; [reflexivity|].
  exact (snapshot_round_trip (config_local true snapshot_path) env_ok two_routes
           empty_world saved eq_refl Hsave eq_refl eq_refl).
Defined.

Lemma carriage_return_reported_as_change_witness :
  CR ∈ routes_crlf
  ∧ ∃ r, compare (universal_newlines routes_crlf) routes_crlf = Some r
         ∧ unchanged r = false ∧ diffLines r ≠ []
         ∧ added r = ∅ ∧ removed r = ∅
         ∧ head (render r) = Some (INFO, u "Route change detected!")
         ∧ listing "Added routes:" "  + " (added r) = []
         ∧ listing "Removed routes:" "  - " (removed r) = [].
Proof.
  assert (Hcr : CR ∈ routes_crlf).
  { apply (bool_decide_unpack _). vm_compute. exact I. }
  split; [exact Hcr|].
  exact (carriage_return_reported_as_change routes_crlf Hcr).
Defined.

Lemma run_once_same_routes_witness :
  store_previous (config_local true snapshot_path) = true
  ∧ stored (config_local true snapshot_path) (world_with snapshot_path two_routes)
    = Some two_routes
  ∧ check_routes (config_local true snapshot_path) env_ok
      (started (world_with snapshot_path two_routes))
    = (Ret (Some two_routes), acquired (world_with snapshot_path two_routes))
  ∧ (run_once (config_local true snapshot_path) env_ok
       (world_with snapshot_path two_routes)).1 = Ret true
  ∧ report_records (Some (universal_newlines two_routes)) two_routes = [no_change].
Proof.
  assert (Hcheck :
    check_routes (config_local true snapshot_path) env_ok
      (started (world_with snapshot_path two_routes))
    = (Ret (Some two_routes), acquired (world_with snapshot_path two_routes)))
    by (vm_compute; reflexivity).
  assert (Hstored :
    stored (config_local true snapshot_path) (world_with snapshot_path two_routes)
    = Some two_routes) by (vm_compute; reflexivity).
  split; [reflexivity|]. split; [exact Hstored|]. split; [exact Hcheck|].
  destruct (run_once_same_routes (config_local true snapshot_path) env_ok
              (world_with snapshot_path two_routes)
              (acquired (world_with snapshot_path two_routes)) two_routes
              eq_refl Hstored Hcheck eq_refl)
    as (w4 & w5 & _ & _ & _ & Hrun & Hsame & _).
  split; [by rewrite Hrun|]. apply Hsame.
  apply (bool_decide_unpack _). vm_compute. exact I.
Defined.

Lemma port_statistics_need_connections_witness :
  stats_enabled config_ports_only = true
  ∧ collect_ports config_ports_only = true
  ∧ collect_connections config_ports_only = false
  ∧ collect_network_stats config_ports_only env_ok empty_world
    = (Ret tt,
       add_log (ticked empty_world)
         (stats_heading ++ traffic_records env_ok no_traffic
          ++ [stats_error (unbound_connections env_ok); (INFO, rule "=")])).
Proof.
  split; [reflexivity|]. split; [reflexivity|]. split; [reflexivity|].
  destruct (port_statistics_need_connections config_ports_only env_ok empty_world
              eq_refl eq_refl eq_refl) as (_ & Htraffic & _).
  apply Htraffic; reflexivity.
Defined.

Lemma collect_network_stats_block_witness :
  stats_enabled (config_local true snapshot_path) = true
  ∧ (∃ r w1 infos,
       stats_body (config_local true snapshot_path) env_stats_failing
         (add_log empty_world stats_heading) = (r, w1)
       ∧ log w1 = log empty_world ++ stats_heading ++ infos
       ∧ Forall is_info infos
       ∧ match r with
         | Ret _ =>
             collect_network_stats (config_local true snapshot_path)
               env_stats_failing empty_world
             = (Ret tt, add_log w1 [(INFO, rule "=")])
         | Raise e =>
             is_Exception e = true
             ∧ collect_network_stats (config_local true snapshot_path)
                 env_stats_failing empty_world
               = (Ret tt, add_log w1 [stats_error e; (INFO, rule "=")])
         | Unfinished => False
         end)
  ∧ collect_network_stats (config_local true snapshot_path) env_stats_failing
      empty_world
    = (Ret tt,
       add_log (ticked empty_world)
         (stats_heading ++ [stats_error access_denied; (INFO, rule "=")])).
Proof.
  split; [reflexivity|]. split; [|vm_compute; reflexivity].
  exact (collect_network_stats_block (config_local true snapshot_path)
           env_stats_failing empty_world eq_refl).
Defined.

Lemma daemon_rejected_interval_witness :
  ¬ usable_interval
      (default (interval_seconds (config_local true snapshot_path)) (Some (-5)%Z))
  ∧ ∃ b w1,
      run_once (config_local true snapshot_path) env_ok
        (add_log empty_world
           (daemon_heading
              (default (interval_seconds (config_local true snapshot_path))
                 (Some (-5)%Z))))
      = (Ret b, w1)
      ∧ run_periodically (config_local true snapshot_path) env_ok (Some (-5)%Z)
          2 empty_world
        = Left (Raise (Exc "ValueError" (u "sleep length must be non-negative")))
               (add_log (ticked w1)
                  [daemon_error
                     (Exc "ValueError" (u "sleep length must be non-negative"))]).
Proof.
  assert (Hbad : ¬ usable_interval
                     (default (interval_seconds (config_local true snapshot_path))
                        (Some (-5)%Z))).
  { intros [Hlo _]. by apply Hlo. }
  split; [exact Hbad|].
  destruct (daemon_rejected_interval env_ok (config_local true snapshot_path)
              (Some (-5)%Z) 0 empty_world Hbad)
    as (b & w1 & Hrun & Hloop & _ & _).
  exists b, w1. split; [exact Hrun|]. exact Hloop.
Defined.

Lemma added_heading_without_routes_witness :
  (∃ line, line ∈ splitlines (u "10.0.0.0/8 via eth0" ++ [LF; LF])
           ∧ line ∉ splitlines (u "10.0.0.0/8 via eth0" ++ [LF]))
  ∧ (∀ line, line ∈ splitlines (u "10.0.0.0/8 via eth0" ++ [LF; LF]) →
             line ∉ splitlines (u "10.0.0.0/8 via eth0" ++ [LF]) → blank line)
  ∧ ∃ d,
      diff_of (u "10.0.0.0/8 via eth0" ++ [LF]) (u "10.0.0.0/8 via eth0" ++ [LF; LF])
      = Some d
      ∧ d ≠ []
      ∧ compare_and_log_changes (u "10.0.0.0/8 via eth0" ++ [LF])
          (u "10.0.0.0/8 via eth0" ++ [LF; LF]) empty_world
        = (Ret tt,
           add_log empty_world
             ([(INFO, u "Route change detected!"); (INFO, rule "-");
               (INFO, u "Routing table diff:")]
              ++ map (fun line => (INFO, rstrip line)) d
              ++ [(INFO, rule "-"); (INFO, u "Added routes:")]
              ++ listing "Removed routes:" "  - "
                   (line_set (u "10.0.0.0/8 via eth0" ++ [LF])
                    ∖ line_set (u "10.0.0.0/8 via eth0" ++ [LF; LF]))
              ++ [(INFO, rule "=")])).
Proof.
  assert (Hlines : splitlines (u "10.0.0.0/8 via eth0" ++ [LF; LF])
                   = [u "10.0.0.0/8 via eth0"; []]) by reflexivity.
  assert (Hbefore : splitlines (u "10.0.0.0/8 via eth0" ++ [LF])
                    = [u "10.0.0.0/8 via eth0"]) by reflexivity.
  assert (Hnew : ∃ line, line ∈ splitlines (u "10.0.0.0/8 via eth0" ++ [LF; LF])
                         ∧ line ∉ splitlines (u "10.0.0.0/8 via eth0" ++ [LF])).
  { exists []. rewrite Hlines, Hbefore. split.
    - apply elem_of_cons. right. apply elem_of_cons. by left.
    - intros Hin. apply list_elem_of_singleton in Hin. discriminate Hin. }
  assert (Hblank : ∀ line,
            line ∈ splitlines (u "10.0.0.0/8 via eth0" ++ [LF; LF]) →
            line ∉ splitlines (u "10.0.0.0/8 via eth0" ++ [LF]) → blank line).
  { intros line. rewrite Hlines, Hbefore. intros Hin Hout.
    apply elem_of_cons in Hin as [->|Hin].
    - destruct Hout. apply list_elem_of_singleton. reflexivity.
    - apply list_elem_of_singleton in Hin as ->. constructor. }
  split; [exact Hnew|]. split; [exact Hblank|].
  exact (added_heading_without_routes _ _ empty_world Hnew Hblank).
Defined.

Lemma diff_lines_shape_witness :
  two_routes ≠ two_routes_changed
  ∧ ∃ r h body,
      compare two_routes two_routes_changed = Some r
      ∧ diffLines r
        = u "--- Previous Routes" :: u "+++ Current Routes" :: h :: body
      ∧ hunk_header h
      ∧ Forall (diff_line (splitlines_keepends two_routes)
                          (splitlines_keepends two_routes_changed)) (h :: body).
Proof.
  assert (Hne : two_routes ≠ two_routes_changed).
  { intros E. vm_compute in E. discriminate E. }
  split; [exact Hne|].
  exact (diff_lines_shape two_routes two_routes_changed Hne).
Defined.

Lemma format_bytes_nearest_witness :
  (1536 < 2 ^ 53)%N
  ∧ ∃ k h,
      k ≤ 5
      ∧ Format.format_bytes 1536
        = Ok (Format.hundredths h ++ u " " ++ u (unit_name k))
      ∧ (0 < k → (unit_size k ≤ 1536)%N)
      ∧ (k < 5 → (1536 < unit_size (S k))%N)
      ∧ nearest_hundredths 1536 (unit_size k) h
      ∧ (k < 5 → (h ≤ 102400)%N)
      ∧ ((1536 < 1024)%N →
         Format.format_bytes 1536 = Ok (Format.decimalN 1536 ++ u ".00 B")).
Proof.
  assert (Hn : (1536 < 2 ^ 53)%N) by reflexivity.
  split; [exact Hn|].
  exact (format_bytes_nearest 1536 Hn).
Defined.

End MoreInstances.

(** ** Further examples *)

Section MoreExamples.
Import Scenario.

(** A session that fails at the disconnect yields no routes. *)
Example ssh_session_failing_disconnect :
  (get_routes_ssh config_ssh
     (env_ssh (Ok tt) (Ok two_routes) (Fail "OSError" (u "Socket is closed")))
     empty_world).1 = Ret None
  ∧ (get_routes_ssh config_ssh (env_ssh (Ok tt) (Ok two_routes) (Ok tt))
       empty_world).1 = Ret (Some two_routes).
Proof. split; vm_compute; reflexivity. Qed.

Example format_bytes_samples :
  Format.format_bytes 0 = Ok (u "0.00 B")
  ∧ Format.format_bytes 1536 = Ok (u "1.50 KB")
  ∧ Format.format_bytes 1152 = Ok (u "1.12 KB")
  ∧ Format.format_bytes 1048575 = Ok (u "1024.00 KB")
  ∧ Format.format_bytes 1048576 = Ok (u "1.00 MB")
  ∧ Format.format_bytes 18446744073709551615 = Ok (u "16384.00 PB").
Proof. split_and!; vm_compute; reflexivity. Qed.

(** A blank line at the end of the current table: the heading of the
    added routes is logged with nothing under it. *)
Example blank_line_added :
  (compare_and_log_changes (u "10.0.0.0/8 via eth0" ++ [LF])
     (u "10.0.0.0/8 via eth0" ++ [LF; LF]) empty_world).2
  = mkWorld (mkFS ∅ ∅)
      [(INFO, u "Route change detected!");
       (INFO, rule "-");
       (INFO, u "Routing table diff:");
       (INFO, u "--- Previous Routes");
       (INFO, u "+++ Current Routes");
       (INFO, u "@@ -1 +1,2 @@");
       (INFO, u " 10.0.0.0/8 via eth0");
       (INFO, u "+");
       (INFO, rule "-");
       (INFO, u "Added routes:");
       (INFO, rule "=")]
      0.
Proof. vm_compute. reflexivity. Qed.

(** A single check whose acquisition fails exits with status 1. *)
Example check_mode_exit_status :
  (Cli.main env_no_routes (tracker_of (config_local true snapshot_path))
     (Cli.mkArgs Cli.check (u snapshot_path) None) 0
     (Cli.mkProcess (world_with snapshot_path two_routes) [])).1
  = Cli.SystemExit 1
  ∧ (Cli.main env_ok (tracker_of (config_local true snapshot_path))
       (Cli.mkArgs Cli.check (u snapshot_path) (Some 30%Z)) 0
       (Cli.mkProcess (world_with snapshot_path two_routes) []))
    = (Cli.SystemExit 0,
       Cli.mkProcess
         (run_once (config_local true snapshot_path) env_ok
            (world_with snapshot_path two_routes)).2
         [u "Warning: --interval is ignored in 'check' mode"]).
Proof. split; vm_compute; reflexivity. Qed.

End MoreExamples.
